(** * fix_latex_smart: raw LaTeX in Markdown rewritten to pandoc math

    A shallow embedding of [fix_latex_smart.py] and the properties of its
    text scanner, normalizer and line-oriented block processor.

    Python strings are sequences of Unicode code points: a character is a
    code point ([N]) and a string a list of them.  The regular expressions of
    the source are kept as data ([regex]) and run by a backtracking matcher
    that follows the priorities of Python's [re] module (leftmost match,
    alternatives in order, greedy and lazy repetition). *)

From Stdlib Require Import Ascii String.
From Stdlib Require Import List Bool Arith NArith ZArith Lia.
Import ListNotations.

Set Implicit Arguments.

(** * Text *)

Abbreviation char := N (only parsing).
Abbreviation str := (list N) (only parsing).

Definition ch (a : ascii) : char := N_of_ascii a.
Arguments ch a%_char_scope : simpl never.

(** [txt "abc"] is the Python string ['abc'] (ASCII literals only). *)
Definition txt (s : string) : str := map ch (list_ascii_of_string s).
Arguments txt s%_string_scope.

Definition nl : char := 10%N.
Definition em_dash : char := 8212%N.
Definition en_dash : char := 8211%N.

Definition str_eqb (a b : str) : bool :=
  if list_eq_dec N.eq_dec a b then true else false.

Definition in_range (lo hi c : char) : bool := ((lo <=? c) && (c <=? hi))%N.
Arguments in_range (lo hi c)%_N_scope.

(** Python's [str.isspace] on one character, which is also what [\s] matches
    in a [str] pattern and what [str.strip] removes. *)
Definition is_space (c : char) : bool :=
  in_range 9 13 c || in_range 28 32 c || (c =? 133)%N || (c =? 160)%N
  || (c =? 5760)%N || in_range 8192 8202 c || (c =? 8232)%N || (c =? 8233)%N
  || (c =? 8239)%N || (c =? 8287)%N || (c =? 12288)%N.

(** [[A-Za-z]]. *)
Definition is_ascii_letter (c : char) : bool :=
  in_range 65 90 c || in_range 97 122 c.

Definition is_ascii_digit (c : char) : bool := in_range 48 57 c.

(** [.] without DOTALL: anything but a newline. *)
Definition is_dot (c : char) : bool := negb (c =? nl)%N.

Fixpoint drop_while (p : char -> bool) (s : str) : str :=
  match s with
  | [] => []
  | c :: t => if p c then drop_while p t else s
  end.

Fixpoint take_while (p : char -> bool) (s : str) : str :=
  match s with
  | [] => []
  | c :: t => if p c then c :: take_while p t else []
  end.

Definition lstrip (s : str) : str := drop_while is_space s.
Definition rstrip (s : str) : str := rev (drop_while is_space (rev s)).
Definition strip (s : str) : str := rstrip (lstrip s).

Fixpoint startswith (s p : str) {struct p} : bool :=
  match p, s with
  | [], _ => true
  | a :: p', b :: s' => (a =? b)%N && startswith s' p'
  | _ :: _, [] => false
  end.

(** [s[i:j]] for [0 <= i], [0 <= j]. *)
Definition slice (s : str) (i j : nat) : str := firstn (j - i) (skipn i s).

(** [s.find(sub, start)]: the lowest index [>= start] where [sub] occurs
    ([None] for -1).  [find_at] scans the text from index [i] on. *)
Fixpoint find_at (sub s : str) (i : nat) : option nat :=
  if startswith s sub then Some i
  else match s with
       | [] => None
       | _ :: t => find_at sub t (S i)
       end.

Definition find (sub s : str) (start : nat) : option nat :=
  if length s <? start then None else find_at sub (skipn start s) start.

(** [content.split('\n')] and ['\n'.join(lines)]. *)
Fixpoint split_lines (s : str) : list str :=
  match s with
  | [] => [[]]
  | c :: t =>
      if (c =? nl)%N then [] :: split_lines t
      else match split_lines t with
           | l :: ls => (c :: l) :: ls
           | [] => [[c]]
           end
  end.

Fixpoint join_lines (ls : list str) : str :=
  match ls with
  | [] => []
  | [l] => l
  | l :: ls' => l ++ nl :: join_lines ls'
  end.

(** * Regular expressions

    The fragment of Python's [re] syntax that the source uses.  Repetition is
    only ever applied to a single character class there ([\s*], [\s+], [\w+],
    [[^$]*], [.*?], [={3,}]), so [Star] and [Lazy] take a class. *)

Module Re.

Inductive regex : Type :=
| Eps : regex                              (* the empty pattern *)
| Chr : char -> regex                      (* one literal character *)
| Cls : (char -> bool) -> regex            (* one character of a class *)
| Cat : regex -> regex -> regex            (* r1 r2 *)
| Alt : regex -> regex -> regex            (* r1|r2, r1 tried first *)
| Star : (char -> bool) -> regex           (* cls*, greedy *)
| Lazy : (char -> bool) -> regex           (* cls*?, lazy *)
| Grp : nat -> regex -> regex              (* capturing group number n *)
| NotAfter : char -> regex.                (* (?<!c) *)

(** Derived forms. *)
Definition lit (s : str) : regex := fold_right (fun c r => Cat (Chr c) r) Eps s.
Definition plus (p : char -> bool) : regex := Cat (Cls p) (Star p).
Definition opt (r : regex) : regex := Alt r Eps.
(** [c{3,}]. *)
Definition three_or_more (c : char) : regex :=
  Cat (Chr c) (Cat (Chr c) (Cat (Chr c) (Star (N.eqb c)))).
Fixpoint alts (rs : list regex) : regex :=
  match rs with
  | [] => Cls (fun _ => false)
  | [r] => r
  | r :: rs' => Alt r (alts rs')
  end.

(** A position in the subject: the text before it, nearest character first,
    and the text from it on. *)
Abbreviation cursor := (list N * list N)%type (only parsing).

(** The text of each group that took part in the match. *)
Abbreviation captures := (list (nat * list N)) (only parsing).

Fixpoint group (n : nat) (caps : captures) : str :=
  match caps with
  | [] => []
  | (m, s) :: caps' => if Nat.eqb m n then s else group n caps'
  end.

Section Matcher.
Variable A : Type.

Definition orelse (x y : option A) : option A :=
  match x with Some _ => x | None => y end.

(** Greedy [cls*]: one more character first, the rest of the pattern
    ([k]) on what has been taken only when that fails. *)
Fixpoint greedy_star (p : char -> bool) (k : cursor -> option A) (pre s : str) : option A :=
  match s with
  | c :: t => if p c then orelse (greedy_star p k (c :: pre) t) (k (pre, s)) else k (pre, s)
  | [] => k (pre, s)
  end.

(** Lazy [cls*?]: the rest of the pattern first, one more character only
    when that fails. *)
Fixpoint lazy_star (p : char -> bool) (k : cursor -> option A) (pre s : str) : option A :=
  orelse (k (pre, s))
         match s with
         | c :: t => if p c then lazy_star p k (c :: pre) t else None
         | [] => None
         end.

(** [mt r cur caps k]: match [r] at [cur], then go on with [k]; the first
    success in backtracking order. *)
Fixpoint mt (r : regex) (cur : cursor) (caps : captures)
         (k : cursor -> captures -> option A) : option A :=
  match r with
  | Eps => k cur caps
  | Chr c =>
      match snd cur with
      | d :: t => if (c =? d)%N then k (d :: fst cur, t) caps else None
      | [] => None
      end
  | Cls p =>
      match snd cur with
      | d :: t => if p d then k (d :: fst cur, t) caps else None
      | [] => None
      end
  | Cat r1 r2 => mt r1 cur caps (fun cur' caps' => mt r2 cur' caps' k)
  | Alt r1 r2 => orelse (mt r1 cur caps k) (mt r2 cur caps k)
  | Star p => greedy_star p (fun cur' => k cur' caps) (fst cur) (snd cur)
  | Lazy p => lazy_star p (fun cur' => k cur' caps) (fst cur) (snd cur)
  | Grp n r' =>
      mt r' cur caps
         (fun cur' caps' =>
            k cur' ((n, rev (firstn (length (fst cur') - length (fst cur)) (fst cur')))
                      :: caps'))
  | NotAfter c =>
      match fst cur with
      | d :: _ => if (c =? d)%N then None else k cur caps
      | [] => k cur caps
      end
  end.

End Matcher.

(** The match of [r] that starts exactly at the cursor, if there is one: its
    groups and the cursor after it. *)
Definition match_at (r : regex) (pre s : str) : option (captures * cursor) :=
  mt r (pre, s) [] (fun cur caps => Some (caps, cur)).

(** [re.match(r, s)]: a match at the start of [s]. *)
Definition re_match (r : regex) (s : str) : bool :=
  match match_at r [] s with Some _ => true | None => false end.

(** [re.search(r, s)]: a match at some position, scanning from the left. *)
Fixpoint search_from (r : regex) (pre s : str) : bool :=
  match match_at r pre s with
  | Some _ => true
  | None => match s with
            | [] => false
            | c :: t => search_from r (c :: pre) t
            end
  end.

Definition search (r : regex) (s : str) : bool := search_from r [] s.

(** Replacement templates: literal text and group references ([\1], [\2]). *)
Inductive piece : Type :=
| Text : str -> piece
| Ref : nat -> piece.

Abbreviation template := (list piece) (only parsing).

Fixpoint expand (tpl : template) (caps : captures) : str :=
  match tpl with
  | [] => []
  | Text s :: tpl' => s ++ expand tpl' caps
  | Ref n :: tpl' => group n caps ++ expand tpl' caps
  end.

(** What a match of [r] at the cursor puts in the output, and how many
    characters of the subject it covers. *)
Definition hit (r : regex) (tpl : template) (pre s : str) : option (str * nat) :=
  match match_at r pre s with
  | Some (caps, (_, s')) => Some (expand tpl caps, length s - length s')
  | None => None
  end.

(** The scan of [re.sub]: at each position the leftmost match is replaced
    and the scan resumes after it; a character no match starts at is copied.
    [skip] counts the characters of the current match still to be passed
    over; an empty match is replaced and the character at it copied. *)
Fixpoint rewrite (h : str -> str -> option (str * nat)) (skip : nat) (pre s : str) : str :=
  match skip with
  | S n =>
      match s with
      | [] => []
      | c :: t => rewrite h n (c :: pre) t
      end
  | O =>
      match h pre s with
      | Some (out, S n) =>
          out ++ match s with
                 | [] => []
                 | c :: t => rewrite h n (c :: pre) t
                 end
      | Some (out, O) =>
          out ++ match s with
                 | [] => []
                 | c :: t => c :: rewrite h 0 (c :: pre) t
                 end
      | None =>
          match s with
          | [] => []
          | c :: t => c :: rewrite h 0 (c :: pre) t
          end
      end
  end.

(** [re.sub(r, tpl, s)]. *)
Definition sub (r : regex) (tpl : template) (s : str) : str :=
  rewrite (hit r tpl) 0 [] s.

End Re.

(** The empty table for [\w] beyond ASCII, for closed instances on ASCII
    inputs, where the table is not consulted. *)
Definition no_unicode_alnum : N -> bool := fun _ => false.

(** * The program *)

Section Program.

(** [str.isalnum] on the code points from 128 on: the table of the Unicode
    database that Python's [\w] consults.  The source does not fix it (it
    comes with the interpreter), so the model takes it as given. *)
Variable uni_alnum : char -> bool.

(** [\w] in a [str] pattern: alphanumeric or underscore. *)
Definition is_word (c : char) : bool :=
  if (c <? 128)%N
  then is_ascii_letter c || is_ascii_digit c || (c =? ch "_")%N
  else uni_alnum c.

(** The names of [LATEX_COMMANDS], in the order of the alternation. *)
Definition LATEX_NAMES : list str :=
  [ txt "frac"; txt "int"; txt "sum"; txt "prod"; txt "sqrt"; txt "partial";
    txt "infty"; txt "pm"; txt "mp"; txt "times"; txt "div"; txt "cdot";
    txt "circ"; txt "sim";
    txt "approx"; txt "equiv"; txt "leq"; txt "geq"; txt "neq";
    txt "rightarrow"; txt "leftarrow"; txt "leftrightarrow"; txt "boxed";
    txt "mid";
    txt "Rightarrow"; txt "Leftarrow"; txt "to"; txt "mapsto"; txt "text";
    txt "mathcal"; txt "mathbb"; txt "mathrm"; txt "mathbf";
    txt "hat"; txt "bar"; txt "vec"; txt "dot"; txt "tilde"; txt "lim";
    txt "max"; txt "min"; txt "log"; txt "exp"; txt "sin"; txt "cos";
    txt "tan";
    txt "alpha"; txt "beta"; txt "gamma"; txt "delta"; txt "epsilon";
    txt "zeta"; txt "eta"; txt "theta"; txt "iota"; txt "kappa";
    txt "lambda"; txt "mu"; txt "nu";
    txt "xi"; txt "pi"; txt "rho"; txt "sigma"; txt "tau"; txt "upsilon";
    txt "phi"; txt "chi"; txt "psi"; txt "omega";
    txt "Alpha"; txt "Beta"; txt "Gamma"; txt "Delta"; txt "Epsilon";
    txt "Zeta"; txt "Eta"; txt "Theta"; txt "Lambda"; txt "Mu"; txt "Nu";
    txt "Xi"; txt "Pi"; txt "Rho"; txt "Sigma"; txt "Tau"; txt "Upsilon";
    txt "Phi"; txt "Chi"; txt "Psi"; txt "Omega" ].

(** [\\(?:frac|int|...|Omega)]. *)
Definition LATEX_COMMANDS : Re.regex :=
  Re.Cat (Re.Chr (ch "\")) (Re.alts (map Re.lit LATEX_NAMES)).

Definition is_math (text : str) : bool := Re.search LATEX_COMMANDS text.

(** The [for i, c in enumerate(s[start:], start)] loop of
    [extract_paren_content]: [rest] is what is left of [s[start:]], [i] the
    index of its first character in [s]. *)
Fixpoint paren_loop (s : str) (start : nat) (rest : str) (i : nat) (depth : Z)
  : option (str * nat) :=
  match rest with
  | [] => None
  | c :: rest' =>
      if (c =? ch "(")%N then paren_loop s start rest' (S i) (depth + 1)%Z
      else if (c =? ch ")")%N then
        let depth := (depth - 1)%Z in
        if (depth =? 0)%Z then Some (slice s (start + 1) i, i)
        else paren_loop s start rest' (S i) depth
      else paren_loop s start rest' (S i) depth
  end.

(** [None] stands for the pair [(None, -1)]. *)
Definition extract_paren_content (s : str) (start : nat) : option (str * nat) :=
  match nth_error s start with
  | None => None
  | Some c =>
      if negb (c =? ch "(")%N then None
      else paren_loop s start (skipn start s) start 0%Z
  end.

(** [\\(mathcal|mathbb|mathrm|mathbf|text)\s+([A-Za-z])] and [\\\1{\2}]. *)
Definition STYLE_NAMES : list str :=
  [txt "mathcal"; txt "mathbb"; txt "mathrm"; txt "mathbf"; txt "text"].
Definition style_re : Re.regex :=
  Re.Cat (Re.Chr (ch "\"))
    (Re.Cat (Re.Grp 1 (Re.alts (map Re.lit STYLE_NAMES)))
       (Re.Cat (Re.plus is_space) (Re.Grp 2 (Re.Cls is_ascii_letter)))).
Definition style_tpl : Re.template :=
  [Re.Text (txt "\"); Re.Ref 1; Re.Text (txt "{"); Re.Ref 2; Re.Text (txt "}")].

(** A comma, group 1 [\s*], group 2 [d\w+]; the template is [\,\1\2], whose
    [\,] stands for itself. *)
Definition thin_re : Re.regex :=
  Re.Cat (Re.Chr (ch ","))
    (Re.Cat (Re.Grp 1 (Re.Star is_space))
       (Re.Grp 2 (Re.Cat (Re.Chr (ch "d")) (Re.plus is_word)))).
Definition thin_tpl : Re.template := [Re.Text (txt "\,"); Re.Ref 1; Re.Ref 2].

(** [;\s*(\\sim|\\circ|\\mid|\\approx|\\equiv|\\cdot)\s*;] and [ \1 ]. *)
Definition rel_re : Re.regex :=
  Re.Cat (Re.Chr (ch ";"))
    (Re.Cat (Re.Star is_space)
       (Re.Cat (Re.Grp 1 (Re.alts (map Re.lit
                  [txt "\sim"; txt "\circ"; txt "\mid"; txt "\approx";
                   txt "\equiv"; txt "\cdot"])))
          (Re.Cat (Re.Star is_space) (Re.Chr (ch ";"))))).
Definition rel_tpl : Re.template := [Re.Text (txt " "); Re.Ref 1; Re.Text (txt " ")].

(** [(?<!\\)#] and [\\#]. *)
Definition hash_re : Re.regex := Re.Cat (Re.NotAfter (ch "\")) (Re.Chr (ch "#")).
Definition hash_tpl : Re.template := [Re.Text (txt "\#")].

(** A dollar, group 1 [[^$]*], a dollar; the template is [\1]. *)
Definition dollar_re : Re.regex :=
  Re.Cat (Re.Chr (ch "$"))
    (Re.Cat (Re.Grp 1 (Re.Star (fun c => negb (c =? ch "$")%N))) (Re.Chr (ch "$"))).
Definition dollar_tpl : Re.template := [Re.Ref 1].

(** The rewrites of [normalize_math], one definition per [re.sub] line. *)
Definition norm_style (text : str) : str := Re.sub style_re style_tpl text.
Definition norm_thin_space (text : str) : str := Re.sub thin_re thin_tpl text.
Definition norm_relations (text : str) : str := Re.sub rel_re rel_tpl text.
Definition norm_hash (text : str) : str := Re.sub hash_re hash_tpl text.
Definition norm_dollars (text : str) : str := Re.sub dollar_re dollar_tpl text.

Definition normalize_math (text : str) : str :=
  let text := norm_style text in
  let text := norm_thin_space text in
  let text := norm_relations text in
  let text := norm_hash text in
  let text := norm_dollars text in
  strip text.

Definition escape_hash_in_math (line : str) : str := Re.sub hash_re hash_tpl line.

(** The characters of ['=—_–- ']. *)
Definition SEPARATORS : str :=
  [ch "="; em_dash; ch "_"; en_dash; ch "-"; ch " "].

Definition is_pure_separator (line : str) : bool :=
  let stripped := strip line in
  match stripped with
  | [] => false
  | _ => forallb (fun c => existsb (N.eqb c) SEPARATORS) stripped
  end.

Definition blank : Re.template := [Re.Text (txt " ")].

Fixpoint clean_display_lines (lines : list str) : list str :=
  match lines with
  | [] => []
  | line :: rest =>
      if is_pure_separator line then clean_display_lines rest
      else
        let line := Re.sub (Re.three_or_more (ch "=")) blank line in
        let line := Re.sub (Re.three_or_more (ch "-")) blank line in
        let line := Re.sub (Re.three_or_more (ch "_")) blank line in
        let line := escape_hash_in_math line in
        let line := Re.sub (Re.plus is_space) blank line in
        match strip line with
        | [] => clean_display_lines rest
        | _ => rstrip line :: clean_display_lines rest
        end
  end.

(** The [while i < len(line)] loop of [convert_inline_parens]; [result] is
    the text appended so far.  Every turn moves [i] forward, so
    [length line] turns are enough. *)
Fixpoint convert_loop (fuel : nat) (line : str) (i : nat) (result : str) : str :=
  match fuel with
  | O => result
  | S fuel' =>
      match nth_error line i with
      | None => result
      | Some c =>
          let literal := convert_loop fuel' line (S i) (result ++ [c]) in
          let paren :=
            if (c =? ch "(")%N then
              match extract_paren_content line i with
              | Some (content, e) =>
                  if is_math content then
                    let clean := normalize_math content in
                    convert_loop fuel' line (S e)
                      (result ++ ch "$" :: clean ++ [ch "$"])
                  else literal
              | None => literal
              end
            else literal in
          if (c =? ch "$")%N then
            if str_eqb (slice line i (i + 2)) (txt "$$") then
              match find (txt "$$") line (i + 2) with
              | Some e => convert_loop fuel' line (e + 2) (result ++ slice line i (e + 2))
              | None => paren
              end
            else
              match find (txt "$") line (i + 1) with
              | Some e => convert_loop fuel' line (e + 1) (result ++ slice line i (e + 1))
              | None => paren
              end
          else paren
      end
  end.

Definition convert_inline_parens (line : str) : str :=
  convert_loop (length line) line 0 [].

(** [!\[.*?\]\(https?://]. *)
Definition image_re : Re.regex :=
  Re.Cat (Re.lit (txt "!["))
    (Re.Cat (Re.Lazy is_dot)
       (Re.Cat (Re.lit (txt "](http"))
          (Re.Cat (Re.opt (Re.Chr (ch "s"))) (Re.lit (txt "://"))))).

Definition is_remote_image (line : str) : bool := Re.re_match image_re (strip line).

(** The inner [while i < len(lines) and lines[i].strip() != terminator] loop
    of a display block: [rest] is [lines[i:]]; the result is the index the
    loop stops at and the lines collected. *)
Fixpoint block_loop (terminator : str) (rest : list str) (i : nat)
         (block_lines : list str) : nat * list str :=
  match rest with
  | [] => (i, block_lines)
  | l :: rest' =>
      if str_eqb (strip l) terminator then (i, block_lines)
      else block_loop terminator rest' (S i) (block_lines ++ [l])
  end.

(** What both display branches append: nothing when no cleaned line is left,
    else a blank line, [$$], the cleaned lines, [$$] and a blank line. *)
Definition display_block (cleaned : list str) : list str :=
  match cleaned with
  | [] => []
  | _ => [[]; txt "$$"] ++ cleaned ++ [txt "$$"; []]
  end.

(** The [while i < len(lines)] loop of [fix_content], on the state
    [(i, in_code_block, result)]. *)
Fixpoint fix_loop (fuel : nat) (lines : list str) (i : nat)
         (in_code_block : bool) (result : list str) : list str :=
  match fuel with
  | O => result
  | S fuel' =>
      match nth_error lines i with
      | None => result
      | Some line =>
          let stripped := strip line in
          if startswith stripped (txt "```") then
            fix_loop fuel' lines (S i) (negb in_code_block) (result ++ [line])
          else if in_code_block then
            fix_loop fuel' lines (S i) in_code_block (result ++ [line])
          else if is_remote_image line then
            fix_loop fuel' lines (S i) in_code_block result
          else if str_eqb stripped (txt "[") then
            let '(j, block_lines) := block_loop (txt "]") (skipn (S i) lines) (S i) [] in
            fix_loop fuel' lines (S j) in_code_block
                     (result ++ display_block (clean_display_lines block_lines))
          else if str_eqb stripped (txt "$$") then
            let '(j, block_lines) := block_loop (txt "$$") (skipn (S i) lines) (S i) [] in
            fix_loop fuel' lines (S j) in_code_block
                     (result ++ display_block (clean_display_lines block_lines))
          else
            let line := escape_hash_in_math line in
            fix_loop fuel' lines (S i) in_code_block
                     (result ++ [convert_inline_parens line])
      end
  end.

(** The last pass: of a run of empty lines only the first is kept. *)
Fixpoint collapse_blank (result : list str) (prev_empty : bool) : list str :=
  match result with
  | [] => []
  | line :: rest =>
      match line with
      | [] => if prev_empty then collapse_blank rest true
              else line :: collapse_blank rest true
      | _ => line :: collapse_blank rest false
      end
  end.

(** The lines [fix_content] has appended to [result] when its main loop ends. *)
Definition fix_lines (lines : list str) : list str :=
  fix_loop (length lines) lines 0 false [].

Definition fix_content (content : str) : str :=
  let lines := split_lines content in
  join_lines (collapse_blank (fix_lines lines) false).

(** * Notions the statements use *)

(** ** Parentheses *)

(** Opening minus closing parentheses of a text. *)
Fixpoint nesting (w : str) : Z :=
  match w with
  | [] => 0%Z
  | c :: t =>
      ((if (c =? ch "(")%N then 1 else if (c =? ch ")")%N then -1 else 0)
       + nesting t)%Z
  end.

(** A text whose parentheses match: no prefix closes more than it opens, and
    the whole text closes all it opens. *)
Definition balanced (w : str) : bool :=
  forallb (fun k => (0 <=? nesting (firstn k w))%Z) (seq 0 (S (length w)))
  && (nesting w =? 0)%Z.

(** The parenthesis that opens ["(" :: rest] is still open at the end of the
    line: no prefix of the line has nesting zero. *)
Definition never_closes (rest : str) : bool :=
  forallb (fun k => negb (nesting (firstn k (ch "(" :: rest)) =? 0)%Z)
          (seq 1 (S (length rest))).

(** ** Auxiliary notions of the proofs *)

Definition is_some (A : Type) (x : option A) : bool :=
  match x with Some _ => true | None => false end.

Definition shift_span (n : nat) (r : option (list N * nat)) : option (list N * nat) :=
  match r with
  | Some (c, e) => Some (c, n + e)
  | None => None
  end.

(** No parenthesized span of the line, wherever it starts, classifies as
    math. *)
Definition no_math_parens (line : str) : Prop :=
  forall i content e,
    extract_paren_content line i = Some (content, e) -> is_math content = false.

(** The interior of a display block that opens just before [rest]: the
    lines before the first one whose trimmed content is the terminator. *)
Fixpoint interior (terminator : str) (rest : list str) : list str :=
  match rest with
  | [] => []
  | l :: rest' =>
      if str_eqb (strip l) terminator then [] else l :: interior terminator rest'
  end.

(** What the main loop appends when it runs on [lines] from their first line
    with the code-block flag as given; [fix_lines] is [fix_run] with the flag
    unset. *)
Definition fix_run (lines : list str) (in_code_block : bool) : list str :=
  fix_loop (length lines) lines 0 in_code_block [].

(** A scan whose matches do not look behind: [re.sub] for a pattern with
    no lookbehind, [g] telling what matches at the head of a text. *)
Definition scan (g : list N -> option (list N * nat)) (s : str) : str :=
  Re.rewrite (fun _ => g) 0 [] s.

(** ** Three patterns written out

    What [hash_re], [thin_re] and [style_re] match at the head of a text,
    as plain functions; [hit_hash], [hit_thin] and [hit_style] prove them
    equal to what the matcher finds. *)

Definition hash_hit (pre s : str) : option (list N * nat) :=
  match s with
  | c :: _ =>
      if (c =? ch "#")%N && negb (match pre with d :: _ => (d =? ch "\")%N | [] => false end)
      then Some (txt "\#", 1)
      else None
  | [] => None
  end.

(** Hash escaping as a structural scan: [prev] is the character before. *)
Fixpoint escape_scan (prev : option N) (s : str) : str :=
  match s with
  | [] => []
  | c :: t =>
      if (c =? ch "#")%N
         && negb (match prev with Some d => (d =? ch "\")%N | None => false end)
      then ch "\" :: ch "#" :: escape_scan (Some c) t
      else c :: escape_scan (Some c) t
  end.

(** A match of [thin_re] at the head of [s]: a comma, the longest run of
    white space, [d] and the longest run of word characters, not empty. *)
Definition thin_hit (s : str) : option (list N * nat) :=
  match s with
  | c :: t =>
      if (c =? ch ",")%N then
        match drop_while is_space t with
        | d :: t' =>
            if (d =? ch "d")%N then
              match take_while is_word t' with
              | [] => None
              | w => Some (txt "\," ++ take_while is_space t ++ ch "d" :: w,
                           S (length (take_while is_space t) + S (length w)))
              end
            else None
        | [] => None
        end
      else None
  | [] => None
  end.

(** [norm_thin_space] as a scan that does not look behind. *)
Definition thin_scan (s : str) : str := scan thin_hit s.

(** No word of the list starts another one. *)
Fixpoint exclusive (ws : list str) : bool :=
  match ws with
  | [] => true
  | w :: ws' =>
      forallb (fun w' => negb (startswith w w') && negb (startswith w' w)) ws'
      && exclusive ws'
  end.

(** A match of [style_re] at the head of [s]: a backslash, one of the style
    names, the longest run of white space, not empty, and a letter. *)
Definition style_hit (s : str) : option (list N * nat) :=
  match s with
  | c :: t =>
      if (c =? ch "\")%N then
        match List.find (startswith t) STYLE_NAMES with
        | Some name =>
            let r := skipn (length name) t in
            match take_while is_space r, drop_while is_space r with
            | (_ :: _) as ws, l :: _ =>
                if is_ascii_letter l
                then Some (ch "\" :: name ++ ch "{" :: l :: [ch "}"],
                           S (length name + length ws + 1))
                else None
            | _, _ => None
            end
        | None => None
        end
      else None
  | [] => None
  end.

(** [norm_style] as a scan that does not look behind. *)
Definition style_scan (s : str) : str := scan style_hit s.

(** ** Steps 1 to 4 together *)

(** Steps 1 to 4 of [normalize_math], before the dollar stripping and the
    final trim. *)
Definition norm_steps (text : str) : str :=
  norm_hash (norm_relations (norm_thin_space (norm_style text))).

(** ** Converted documents *)

Definition is_empty (line : str) : bool :=
  match line with [] => true | _ => false end.

(** Some [#] of the text has no backslash right before it; [prev] is the
    character before the text. *)
Fixpoint has_unescaped_hash (prev : option N) (s : str) : bool :=
  match s with
  | [] => false
  | c :: t =>
      ((c =? ch "#")%N
       && negb (match prev with Some d => (d =? ch "\")%N | None => false end))
      || has_unescaped_hash (Some c) t
  end.

(** The loop of [convert_inline_parens] with its output left out: whether
    the scan, copying dollar spans as it does, comes to a parenthesized span
    that classifies as math. *)
Fixpoint converts_loop (fuel : nat) (line : str) (i : nat) : bool :=
  match fuel with
  | O => false
  | S fuel' =>
      match nth_error line i with
      | None => false
      | Some c =>
          let literal := converts_loop fuel' line (S i) in
          let paren :=
            if (c =? ch "(")%N then
              match extract_paren_content line i with
              | Some (content, _) => if is_math content then true else literal
              | None => literal
              end
            else literal in
          if (c =? ch "$")%N then
            if str_eqb (slice line i (i + 2)) (txt "$$") then
              match find (txt "$$") line (i + 2) with
              | Some e => converts_loop fuel' line (e + 2)
              | None => paren
              end
            else
              match find (txt "$") line (i + 1) with
              | Some e => converts_loop fuel' line (e + 1)
              | None => paren
              end
          else paren
      end
  end.

(** The line has a convertible parenthesized math span. *)
Definition convertible (line : str) : bool := converts_loop (length line) line 0.

(** A line of a converted document outside code fences and display blocks:
    no fence, no remote image, no display delimiter alone on the line, every
    hash escaped, no convertible math left in parentheses. *)
Definition ordinary (line : str) : bool :=
  negb (startswith (strip line) (txt "```"))
  && negb (is_remote_image line)
  && negb (str_eqb (strip line) (txt "["))
  && negb (str_eqb (strip line) (txt "$$"))
  && negb (has_unescaped_hash None line)
  && negb (convertible line).

(** [converted prev flag lines]: the lines are in converted form, read with
    the code-block flag [flag] after a line that was empty iff [prev].  No
    empty line follows an empty line; a display block has the two dollars
    alone on its fences, an empty line before and after, and an interior the
    display cleaner leaves as it is. *)
Inductive converted : bool -> bool -> list str -> Prop :=
| converted_end (prev flag : bool) : converted prev flag []
| converted_fence (prev flag : bool) (line : str) (rest : list str) :
    startswith (strip line) (txt "```") = true ->
    converted false (negb flag) rest ->
    converted prev flag (line :: rest)
| converted_code (prev : bool) (line : str) (rest : list str) :
    startswith (strip line) (txt "```") = false ->
    prev && is_empty line = false ->
    converted (is_empty line) true rest ->
    converted prev true (line :: rest)
| converted_plain (prev : bool) (line : str) (rest : list str) :
    ordinary line = true ->
    prev && is_empty line = false ->
    converted (is_empty line) false rest ->
    converted prev false (line :: rest)
| converted_display (body rest : list str) :
    body <> [] ->
    clean_display_lines body = body ->
    forallb (fun l => negb (str_eqb (strip l) (txt "$$"))) body = true ->
    converted true false rest ->
    converted true false (txt "$$" :: body ++ txt "$$" :: [] :: rest).

(** ** The vocabulary by kind

    The two Greek lists follow the words of the specification, which speaks
    of the Greek letter names in lower and in upper case: the twenty-four
    letters of the alphabet by name, and the same names with a capital.
    They are not read off the pattern of the source.  The other three lists
    sort the remaining names of the pattern by kind. *)

(** The name with its first letter in upper case. *)
Definition capitalize (name : str) : str :=
  match name with
  | [] => []
  | c :: t => (if in_range 97 122 c then c - 32 else c)%N :: t
  end.

Definition GREEK_LOWER : list str :=
  [ txt "alpha"; txt "beta"; txt "gamma"; txt "delta"; txt "epsilon"; txt "zeta";
    txt "eta"; txt "theta"; txt "iota"; txt "kappa"; txt "lambda"; txt "mu";
    txt "nu"; txt "xi"; txt "omicron"; txt "pi"; txt "rho"; txt "sigma"; txt "tau";
    txt "upsilon"; txt "phi"; txt "chi"; txt "psi"; txt "omega" ].

Definition GREEK_UPPER : list str := map capitalize GREEK_LOWER.

(** The Greek letter names that the pattern of the source does not list. *)
Definition GREEK_UNLISTED : list str :=
  [ txt "omicron"; txt "Iota"; txt "Kappa"; txt "Omicron" ].

Definition OPERATORS : list str :=
  [ txt "pm"; txt "mp"; txt "times"; txt "div"; txt "cdot"; txt "circ"; txt "sim";
    txt "approx"; txt "equiv"; txt "leq"; txt "geq"; txt "neq"; txt "rightarrow";
    txt "leftarrow"; txt "leftrightarrow"; txt "mid"; txt "Rightarrow";
    txt "Leftarrow"; txt "to"; txt "mapsto"; txt "partial"; txt "infty" ].

Definition FUNCTIONS : list str :=
  [ txt "lim"; txt "max"; txt "min"; txt "log"; txt "exp"; txt "sin"; txt "cos";
    txt "tan" ].

Definition STRUCTURAL : list str :=
  [ txt "frac"; txt "int"; txt "sum"; txt "prod"; txt "sqrt"; txt "boxed";
    txt "text"; txt "mathcal"; txt "mathbb"; txt "mathrm"; txt "mathbf";
    txt "hat"; txt "bar"; txt "vec"; txt "dot"; txt "tilde" ].

(** ** Notions of the further properties *)

Definition not_dollar (c : char) : bool := negb (c =? ch "$")%N.

(** A match of [dollar_re] at the head of [s]: a dollar sign, the longest
    run without one, and a dollar sign; what is kept is the run. *)
Definition dollar_hit (s : str) : option (list N * nat) :=
  match s with
  | c :: t =>
      if (c =? ch "$")%N then
        match drop_while not_dollar t with
        | d :: _ =>
            if (d =? ch "$")%N
            then Some (take_while not_dollar t, S (S (length (take_while not_dollar t))))
            else None
        | [] => None
        end
      else None
  | [] => None
  end.

(** The number of dollar signs of a text. *)
Definition dollars (s : str) : nat := count_occ N.eq_dec s (ch "$").

(** Neither the first nor the last character is white space. *)
Definition trimmed (s : str) : bool :=
  match s with
  | [] => true
  | c :: _ => negb (is_space c) && negb (is_space (last s c))
  end.

(** The relation commands of step 3, in the order of the alternation. *)
Definition RELATIONS : list str :=
  [txt "\sim"; txt "\circ"; txt "\mid"; txt "\approx"; txt "\equiv"; txt "\cdot"].

(** A match of [rel_re] at the head of [s]: a semicolon, the longest run of
    white space, one of the relation commands, the longest run of white
    space, and a semicolon. *)
Definition rel_hit (s : str) : option (list N * nat) :=
  match s with
  | c :: t =>
      if (c =? ch ";")%N then
        let r := drop_while is_space t in
        match List.find (startswith r) RELATIONS with
        | Some rel =>
            let r2 := skipn (length rel) r in
            match drop_while is_space r2 with
            | d :: _ =>
                if (d =? ch ";")%N
                then Some (ch " " :: rel ++ [ch " "],
                           S (length (take_while is_space t) + length rel
                              + length (take_while is_space r2) + 1))
                else None
            | [] => None
            end
        | None => None
        end
      else None
  | [] => None
  end.

(** A match of [\s+] at the head of [s]: the longest run of white space,
    not empty; a blank is written for it. *)
Definition space_hit (s : str) : option (list N * nat) :=
  match s with
  | c :: t =>
      if is_space c then Some (txt " ", S (length (take_while is_space t))) else None
  | [] => None
  end.

(** A match of [c{3,}] at the head of [s]: the longest run of [c], of three
    at least; a blank is written for it. *)
Definition run_hit (c : char) (s : str) : option (list N * nat) :=
  match s with
  | a :: b :: d :: t =>
      if (c =? a)%N && (c =? b)%N && (c =? d)%N
      then Some (txt " ", 3 + length (take_while (N.eqb c) t))
      else None
  | _ => None
  end.

(** Every white-space character of the text is a blank, and no white space
    follows it. *)
Fixpoint single_spaced (s : str) : bool :=
  match s with
  | [] => true
  | c :: t =>
      (negb (is_space c)
       || ((c =? ch " ")%N
           && match t with d :: _ => negb (is_space d) | [] => true end))
      && single_spaced t
  end.

(** Somewhere in the text [c] comes three times in a row. *)
Fixpoint long_run (c : char) (s : str) : bool :=
  match s with
  | [] => false
  | _ :: t => startswith s [c; c; c] || long_run c t
  end.

(** The length of the run of [c] a text starts with. *)
Definition run_length (c : char) (s : str) : nat := length (take_while (N.eqb c) s).

(** No empty line comes right after an empty line; [prev] tells whether the
    line before the list was empty. *)
Fixpoint no_blank_run (prev : bool) (ls : list str) : bool :=
  match ls with
  | [] => true
  | l :: rest => negb (prev && is_empty l) && no_blank_run (is_empty l) rest
  end.

(** A line of running text: no recognized command, every hash sign escaped,
    no code fence, no image, no display delimiter alone on the line. *)
Definition prose (line : str) : bool :=
  negb (is_math line)
  && negb (has_unescaped_hash None line)
  && negb (startswith (strip line) (txt "```"))
  && negb (startswith (strip line) (txt "!["))
  && negb (str_eqb (strip line) (txt "["))
  && negb (str_eqb (strip line) (txt "$$")).

(** A character that is neither white space nor one of the separators. *)
Definition is_content (c : char) : bool :=
  negb (is_space c) && negb (existsb (N.eqb c) SEPARATORS).

(** Python's [sub in s]. *)
Definition occurs (sub s : str) : bool := is_some (find sub s 0).

(** * Properties *)

(** ** Text *)

Lemma startswith_spec (s p : str) :
  startswith s p = true <-> exists r, s = p ++ r.
Proof.
  revert s; induction p as [|a p IH]; intros s; simpl.
  - split; [intros _; now exists s | reflexivity].
  - destruct s as [|b s].
    + split; [discriminate | intros [r H]; discriminate].
    + rewrite andb_true_iff, N.eqb_eq, IH. split.
      * intros [-> [r ->]]. now exists r.
      * intros [r H]. injection H as -> ->. split; [reflexivity | now exists r].
Qed.

Lemma startswith_app (p r : str) : startswith (p ++ r) p = true.
Proof. apply startswith_spec. now exists r. Qed.

Lemma startswith_skipn (s p : str) :
  startswith s p = true -> s = p ++ skipn (length p) s.
Proof.
  intros H. apply startswith_spec in H as [r ->].
  now rewrite skipn_app, skipn_all, Nat.sub_diag.
Qed.

Lemma str_eqb_eq (a b : str) : str_eqb a b = true <-> a = b.
Proof. unfold str_eqb. destruct (list_eq_dec N.eq_dec a b); split; congruence. Qed.

Lemma str_eqb_refl (a : str) : str_eqb a a = true.
Proof. now apply str_eqb_eq. Qed.

Lemma str_eqb_neq (a b : str) : str_eqb a b = false <-> a <> b.
Proof. unfold str_eqb. destruct (list_eq_dec N.eq_dec a b); split; congruence. Qed.

(** ** The matcher on literals and alternations of literals *)

Lemma mt_lit (A : Type) (w pre s : str) (caps : Re.captures)
      (k : Re.cursor -> Re.captures -> option A) :
  Re.mt (Re.lit w) (pre, s) caps k =
  if startswith s w then k (rev w ++ pre, skipn (length w) s) caps else None.
Proof.
  revert pre s; induction w as [|a w IH]; intros pre s; simpl.
  - reflexivity.
  - destruct s as [|b s]; [reflexivity|].
    destruct (N.eqb_spec a b) as [->|]; simpl; [|reflexivity].
    rewrite IH, <- app_assoc. reflexivity.
Qed.

Lemma mt_alts_lit (A : Type) (ws : list str) (pre s : str) (caps : Re.captures)
      (k : Re.cursor -> Re.captures -> option A) :
  (forall cur caps', k cur caps' <> None) ->
  is_some (Re.mt (Re.alts (map Re.lit ws)) (pre, s) caps k) = existsb (startswith s) ws.
Proof.
  intros Hk. induction ws as [|w ws IH].
  - simpl. now destruct s.
  - assert (Hw : is_some (Re.mt (Re.lit w) (pre, s) caps k) = startswith s w).
    { rewrite mt_lit. destruct (startswith s w); [|reflexivity].
      specialize (Hk (rev w ++ pre, skipn (length w) s) caps).
      now destruct (k _ _). }
    destruct ws as [|w' ws].
    + simpl in *. now rewrite Hw, orb_false_r.
    + change (Re.alts (map Re.lit (w :: w' :: ws)))
        with (Re.Alt (Re.lit w) (Re.alts (map Re.lit (w' :: ws)))).
      change (existsb (startswith s) (w :: w' :: ws))
        with (startswith s w || existsb (startswith s) (w' :: ws)).
      cbn [Re.mt]. rewrite <- IH, <- Hw. unfold Re.orelse.
      now destruct (Re.mt (Re.lit w) (pre, s) caps k).
Qed.

Lemma search_from_spec (r : Re.regex) (pre s : str) :
  Re.search_from r pre s = true <->
  exists u v, s = u ++ v /\ Re.match_at r (rev u ++ pre) v <> None.
Proof.
  revert pre; induction s as [|c s IH]; intros pre; simpl.
  - destruct (Re.match_at r pre []) eqn:E.
    + split; [intros _|reflexivity]. exists [], []. simpl. split; congruence.
    + split; [discriminate|]. intros (u & v & H & Hm).
      symmetry in H. apply app_eq_nil in H as [-> ->]. simpl in Hm. congruence.
  - destruct (Re.match_at r pre (c :: s)) eqn:E.
    + split; [intros _|reflexivity]. exists [], (c :: s). simpl. split; congruence.
    + rewrite IH. split.
      * intros (u & v & -> & Hm). exists (c :: u), v. split; [reflexivity|].
        simpl. now rewrite <- app_assoc.
      * intros (u & v & H & Hm). destruct u as [|d u].
        -- simpl in *. subst v. congruence.
        -- injection H as -> ->. exists u, v. split; [reflexivity|].
           simpl in Hm. now rewrite <- app_assoc in Hm.
Qed.

Lemma match_at_commands (pre s : str) :
  Re.match_at LATEX_COMMANDS pre s <> None <->
  exists name post, In name LATEX_NAMES /\ s = ch "\" :: name ++ post.
Proof.
  unfold Re.match_at, LATEX_COMMANDS. cbn [Re.mt fst snd].
  destruct s as [|c s].
  - split; [congruence|]. intros (n & p & _ & H). discriminate.
  - destruct (N.eqb_spec (ch "\") c) as [<-|Hc].
    + pose proof (@mt_alts_lit _ LATEX_NAMES (ch "\" :: pre) s []
                    (fun cur caps => Some (caps, cur))) as H.
      assert (Hs : forall x : option (Re.captures * Re.cursor),
                 x <> None <-> is_some x = true).
      { intros [x|]; simpl; split; congruence. }
      etransitivity; [apply Hs|]. rewrite H by congruence.
      rewrite existsb_exists. split.
      * intros (n & Hn & Hst). apply startswith_spec in Hst as [post ->]. now exists n, post.
      * intros (n & post & Hn & Heq). injection Heq as ->. exists n. split; [assumption|].
        apply startswith_app.
    + split; [congruence|]. intros (n & p & _ & H). congruence.
Qed.

(** ** The classifier *)

Lemma is_math_spec (text : str) :
  is_math text = true <->
  exists pre name post, In name LATEX_NAMES /\ text = pre ++ ch "\" :: name ++ post.
Proof.
  unfold is_math, Re.search. rewrite search_from_spec. split.
  - intros (u & v & -> & Hm). apply match_at_commands in Hm as (n & p & Hn & ->).
    now exists u, n, p.
  - intros (pre & n & p & Hn & ->). exists pre, (ch "\" :: n ++ p).
    split; [reflexivity|]. apply match_at_commands. now exists n, p.
Qed.

Lemma is_math_substring (a b c : str) :
  is_math (a ++ b ++ c) = false -> is_math b = false.
Proof.
  intros H. destruct (is_math b) eqn:E; [|reflexivity].
  apply is_math_spec in E as (pre & n & p & Hn & ->).
  assert (is_math (a ++ (pre ++ ch "\" :: n ++ p) ++ c) = true); [|congruence].
  apply is_math_spec. exists (a ++ pre), n, (p ++ c). split; [assumption|].
  rewrite <- !app_assoc. simpl. now rewrite <- !app_assoc.
Qed.

Lemma slice_substring (s : str) (i j : nat) :
  exists a c, s = a ++ slice s i j ++ c.
Proof.
  exists (firstn i s), (skipn (j - i) (skipn i s)). unfold slice.
  now rewrite firstn_skipn, firstn_skipn.
Qed.

(** ** The parenthesis extractor *)

Lemma paren_loop_bounds (s : str) (start : nat) (rest : str) (i : nat) (depth : Z)
      (content : str) (e : nat) :
  paren_loop s start rest i depth = Some (content, e) ->
  content = slice s (start + 1) e /\ i <= e < i + length rest.
Proof.
  revert i depth; induction rest as [|c rest IH]; intros i depth; simpl; [discriminate|].
  destruct (c =? ch "(")%N.
  - intros H. apply IH in H. intuition lia.
  - destruct (c =? ch ")")%N.
    + destruct (depth - 1 =? 0)%Z.
      * intros [= <- <-]. split; [reflexivity | lia].
      * intros H. apply IH in H. intuition lia.
    + intros H. apply IH in H. intuition lia.
Qed.

Lemma paren_loop_open (s : str) (start : nat) (rest : str) (i : nat) (depth : Z) :
  (forall k, k < length rest -> (depth + nesting (firstn (S k) rest))%Z <> 0%Z) ->
  paren_loop s start rest i depth = None.
Proof.
  revert i depth; induction rest as [|c rest IH]; intros i depth H; simpl; [reflexivity|].
  assert (Hstep : forall d,
             d = (depth + nesting [c])%Z ->
             forall k, k < length rest -> (d + nesting (firstn (S k) rest))%Z <> 0%Z).
  { intros d -> k Hk. specialize (H (S k)). simpl in H |- *.
    specialize (H ltac:(lia)). simpl in H. lia. }
  pose proof (H 0 ltac:(simpl; lia)) as H0. simpl in H0, Hstep.
  destruct (c =? ch "(")%N.
  - apply IH, Hstep. lia.
  - destruct (c =? ch ")")%N.
    + destruct (depth - 1 =? 0)%Z eqn:E; [lia|]. apply IH, Hstep. lia.
    + apply IH, Hstep. lia.
Qed.

Lemma paren_loop_close (s : str) (start : nat) (w tail : str) (i : nat) (depth : Z) :
  (forall k, k <= length w -> (1 <= depth + nesting (firstn k w))%Z) ->
  (depth + nesting w = 1)%Z ->
  paren_loop s start (w ++ ch ")" :: tail) i depth
  = Some (slice s (start + 1) (i + length w), i + length w).
Proof.
  revert i depth; induction w as [|c w IH]; intros i depth Hpre Htot; simpl.
  - simpl in Htot. replace (depth - 1 =? 0)%Z with true by lia.
    now rewrite Nat.add_0_r.
  - assert (Hstep : forall d,
               d = (depth + nesting [c])%Z ->
               (forall k, k <= length w -> (1 <= d + nesting (firstn k w))%Z)
               /\ (d + nesting w = 1)%Z).
    { intros d ->. simpl in Htot |- *. split; [|lia].
      intros k Hk. specialize (Hpre (S k) ltac:(simpl; lia)). simpl in Hpre. lia. }
    pose proof (Hpre 1 ltac:(simpl; lia)) as H1. simpl in H1, Hstep.
    replace (i + S (length w)) with (S i + length w) by lia.
    destruct (c =? ch "(")%N.
    + apply IH; apply Hstep; lia.
    + destruct (c =? ch ")")%N.
      * replace (depth - 1 =? 0)%Z with false by lia. apply IH; apply Hstep; lia.
      * apply IH; apply Hstep; lia.
Qed.

Lemma extract_bounds (s : str) (start : nat) (content : str) (e : nat) :
  extract_paren_content s start = Some (content, e) ->
  content = slice s (start + 1) e /\ start <= e < length s.
Proof.
  unfold extract_paren_content. destruct (nth_error s start) as [c|] eqn:E; [|discriminate].
  destruct (negb (c =? ch "(")%N); [discriminate|].
  intros H. apply paren_loop_bounds in H as [-> H]. split; [reflexivity|].
  assert (start < length s) by (apply nth_error_Some; congruence).
  rewrite length_skipn in H. lia.
Qed.

Lemma forallb_seq (f : nat -> bool) (a n : nat) :
  forallb f (seq a n) = true <-> forall k, a <= k < a + n -> f k = true.
Proof.
  rewrite forallb_forall. split.
  - intros H k Hk. apply H, in_seq. lia.
  - intros H k Hk. apply in_seq in Hk. apply H. lia.
Qed.

Lemma extract_balanced (content tail : str) :
  balanced content = true ->
  extract_paren_content (ch "(" :: content ++ ch ")" :: tail) 0
  = Some (content, S (length content)).
Proof.
  unfold balanced. rewrite andb_true_iff, forallb_seq, Z.eqb_eq. intros [Hpre Htot].
  unfold extract_paren_content. cbn [nth_error skipn paren_loop].
  change (ch "(" =? ch "(")%N with true. cbn [negb].
  rewrite paren_loop_close.
  - f_equal. f_equal. unfold slice. cbn [Nat.add skipn].
    replace (S (length content) - 1) with (length content) by lia.
    rewrite firstn_app, firstn_all, Nat.sub_diag. simpl. apply app_nil_r.
  - intros k Hk. specialize (Hpre k ltac:(lia)). apply Z.leb_le in Hpre. lia.
  - lia.
Qed.

Lemma extract_open (rest : str) :
  never_closes rest = true -> extract_paren_content (ch "(" :: rest) 0 = None.
Proof.
  unfold never_closes. rewrite forallb_seq. intros H.
  unfold extract_paren_content. cbn [nth_error skipn].
  change (ch "(" =? ch "(")%N with true. cbn [negb].
  apply paren_loop_open. intros k Hk. simpl in Hk.
  specialize (H (S k) ltac:(lia)). apply negb_true_iff, Z.eqb_neq in H. lia.
Qed.

(** ** Searching and slicing *)

Lemma find_at_bounds (sub s : str) (i e : nat) :
  find_at sub s i = Some e -> i <= e /\ e + length sub <= i + length s.
Proof.
  revert i; induction s as [|c s IH]; intros i; cbn [find_at].
  - destruct (startswith [] sub) eqn:E; [|discriminate].
    intros [= <-]. apply startswith_spec in E as [r E].
    symmetry in E. apply app_eq_nil in E as [-> _]. simpl. lia.
  - destruct (startswith (c :: s) sub) eqn:E.
    + intros [= <-]. apply startswith_spec in E as [r E].
      apply (f_equal (@length N)) in E. rewrite length_app in E. lia.
    + intros H. apply IH in H. simpl. lia.
Qed.

Lemma find_bounds (sub s : str) (start e : nat) :
  find sub s start = Some e -> start <= e /\ e + length sub <= length s.
Proof.
  unfold find. destruct (Nat.ltb_spec (length s) start); [discriminate|].
  intros H0. apply find_at_bounds in H0. rewrite length_skipn in H0. lia.
Qed.

Lemma find_at_shift (sub s : str) (n i : nat) :
  find_at sub s (n + i) = option_map (Nat.add n) (find_at sub s i).
Proof.
  revert i; induction s as [|c s IH]; intros i; cbn [find_at].
  - now destruct (startswith [] sub).
  - destruct (startswith (c :: s) sub); [reflexivity|].
    now rewrite <- IH, Nat.add_succ_r.
Qed.

Lemma find_shift (sub pre s : str) (j : nat) :
  find sub (pre ++ s) (length pre + j) = option_map (Nat.add (length pre)) (find sub s j).
Proof.
  unfold find. rewrite length_app.
  replace (length pre + length s <? length pre + j) with (length s <? j).
  2:{ destruct (Nat.ltb_spec (length s) j), (Nat.ltb_spec (length pre + length s) (length pre + j));
      (reflexivity || lia). }
  destruct (length s <? j); [reflexivity|].
  rewrite skipn_app, skipn_all2 by lia.
  replace (length pre + j - length pre) with j by lia. simpl.
  apply find_at_shift.
Qed.

Lemma slice_shift (pre s : str) (i j : nat) :
  slice (pre ++ s) (length pre + i) (length pre + j) = slice s i j.
Proof.
  unfold slice. rewrite skipn_app, skipn_all2 by lia.
  replace (length pre + i - length pre) with i by lia.
  replace (length pre + j - (length pre + i)) with (j - i) by lia. reflexivity.
Qed.

Lemma nth_error_shift (A : Type) (pre s : list A) (i : nat) :
  nth_error (pre ++ s) (length pre + i) = nth_error s i.
Proof. rewrite nth_error_app2 by lia. f_equal. lia. Qed.

Lemma paren_loop_shift (pre s : str) (start : nat) (rest : str) (i : nat) (depth : Z) :
  paren_loop (pre ++ s) (length pre + start) rest (length pre + i) depth
  = shift_span (length pre) (paren_loop s start rest i depth).
Proof.
  revert i depth; induction rest as [|c rest IH]; intros i depth; cbn [paren_loop].
  - reflexivity.
  - rewrite <- !Nat.add_succ_r, !IH.
    destruct (c =? ch "(")%N; [reflexivity|].
    destruct (c =? ch ")")%N; [|reflexivity].
    destruct (depth - 1 =? 0)%Z; [|reflexivity].
    cbn [shift_span]. rewrite <- Nat.add_assoc, slice_shift. reflexivity.
Qed.

Lemma extract_shift (pre s : str) (i : nat) :
  extract_paren_content (pre ++ s) (length pre + i)
  = shift_span (length pre) (extract_paren_content s i).
Proof.
  unfold extract_paren_content. rewrite nth_error_shift.
  destruct (nth_error s i) as [c|]; [|reflexivity].
  destruct (negb (c =? ch "(")%N); [reflexivity|].
  rewrite skipn_app, skipn_all2 by lia.
  replace (length pre + i - length pre) with i by lia. simpl.
  apply paren_loop_shift.
Qed.

(** ** The inline scanner: the loop seen from an index on *)

(** The loop [fuel] turns on at index [length pre + i] of [pre ++ s] is the
    loop at index [i] of [s]: it only reads the line from its index on. *)
Lemma convert_loop_shift (fuel : nat) (pre s : str) (i : nat) (result : str) :
  convert_loop fuel (pre ++ s) (length pre + i) result = convert_loop fuel s i result.
Proof.
  revert i result; induction fuel as [|fuel IH]; intros i result; cbn [convert_loop].
  - reflexivity.
  - rewrite nth_error_shift. destruct (nth_error s i) as [c|]; [|reflexivity].
    rewrite <- !Nat.add_succ_r, <- !Nat.add_assoc, !slice_shift, !find_shift, extract_shift, !IH.
    assert (Hparen :
      (if (c =? ch "(")%N
       then match shift_span (length pre) (extract_paren_content s i) with
            | Some (content, e) =>
                if is_math content
                then convert_loop fuel (pre ++ s) (S e)
                       (result ++ ch "$" :: normalize_math content ++ [ch "$"])
                else convert_loop fuel s (S i) (result ++ [c])
            | None => convert_loop fuel s (S i) (result ++ [c])
            end
       else convert_loop fuel s (S i) (result ++ [c]))
      = (if (c =? ch "(")%N
         then match extract_paren_content s i with
              | Some (content, e) =>
                  if is_math content
                  then convert_loop fuel s (S e)
                         (result ++ ch "$" :: normalize_math content ++ [ch "$"])
                  else convert_loop fuel s (S i) (result ++ [c])
              | None => convert_loop fuel s (S i) (result ++ [c])
              end
         else convert_loop fuel s (S i) (result ++ [c]))).
    { destruct (c =? ch "(")%N; [|reflexivity].
      destruct (extract_paren_content s i) as [[content e]|]; [|reflexivity].
      cbn [shift_span]. destruct (is_math content); [|reflexivity].
      now rewrite <- Nat.add_succ_r, IH. }
    rewrite Hparen.
    destruct (c =? ch "$")%N; [|reflexivity].
    destruct (str_eqb (slice s i (i + 2)) (txt "$$")).
    + destruct (find (txt "$$") s (i + 2)) as [e|]; [|reflexivity].
      cbn [option_map]. now rewrite <- Nat.add_assoc, slice_shift, IH.
    + destruct (find (txt "$") s (i + 1)) as [e|]; [|reflexivity].
      cbn [option_map]. now rewrite <- Nat.add_assoc, slice_shift, IH.
Qed.

(** The text already appended does not matter to what the loop appends, and
    neither does fuel beyond the characters left. *)
Lemma convert_loop_acc (line : str) (fuel i : nat) (result : str) :
  length line - i <= fuel ->
  convert_loop fuel line i result
  = result ++ convert_loop (length line - i) line i [].
Proof.
  revert i result; induction fuel as [fuel IH] using lt_wf_ind; intros i result Hfuel.
  destruct (nth_error line i) as [c|] eqn:Hc.
  2:{ pose proof Hc as Hlen. apply nth_error_None in Hlen.
      replace (length line - i) with 0 by lia.
      cbn [convert_loop]. rewrite app_nil_r.
      destruct fuel; cbn [convert_loop]; now rewrite ?Hc. }
  assert (Hi : i < length line) by (apply nth_error_Some; congruence).
  destruct fuel as [|fuel]; [lia|].
  destruct (length line - i) as [|m] eqn:Hm; [lia|].
  cbn [convert_loop]. rewrite Hc.
  assert (Hgo : forall j x, i < j ->
             convert_loop fuel line j (result ++ x)
             = result ++ convert_loop m line j ([] ++ x)).
  { intros j x Hj. rewrite (IH fuel) by lia. rewrite (IH m) by lia.
    simpl. now rewrite <- app_assoc. }
  assert (Hparen :
    (if (c =? ch "(")%N
     then match extract_paren_content line i with
          | Some (content, e) =>
              if is_math content
              then convert_loop fuel line (S e)
                     (result ++ ch "$" :: normalize_math content ++ [ch "$"])
              else convert_loop fuel line (S i) (result ++ [c])
          | None => convert_loop fuel line (S i) (result ++ [c])
          end
     else convert_loop fuel line (S i) (result ++ [c]))
    = result ++
      (if (c =? ch "(")%N
       then match extract_paren_content line i with
            | Some (content, e) =>
                if is_math content
                then convert_loop m line (S e)
                       ([] ++ ch "$" :: normalize_math content ++ [ch "$"])
                else convert_loop m line (S i) ([] ++ [c])
            | None => convert_loop m line (S i) ([] ++ [c])
            end
       else convert_loop m line (S i) ([] ++ [c]))).
  { destruct (c =? ch "(")%N; [|apply Hgo; lia].
    destruct (extract_paren_content line i) as [[content e]|] eqn:He; [|apply Hgo; lia].
    apply extract_bounds in He as [_ He].
    destruct (is_math content); apply Hgo; lia. }
  rewrite Hparen.
  destruct (c =? ch "$")%N; [|reflexivity].
  destruct (str_eqb (slice line i (i + 2)) (txt "$$")).
  - destruct (find (txt "$$") line (i + 2)) as [e|] eqn:He; [|reflexivity].
    apply find_bounds in He. apply Hgo. lia.
  - destruct (find (txt "$") line (i + 1)) as [e|] eqn:He; [|reflexivity].
    apply find_bounds in He. apply Hgo. lia.
Qed.

(** The loop of [convert_inline_parens] ends by itself: more turns than the
    line has characters change nothing. *)
Lemma convert_loop_enough (line : str) (fuel : nat) :
  length line <= fuel -> convert_loop fuel line 0 [] = convert_inline_parens line.
Proof.
  intros H. rewrite convert_loop_acc by lia. now rewrite Nat.sub_0_r.
Qed.

(** What [convert_inline_parens] returns for the line from index [i] on. *)
Lemma convert_from (pre s : str) :
  convert_loop (length s) (pre ++ s) (length pre) [] = convert_inline_parens s.
Proof.
  rewrite <- (Nat.add_0_r (length pre)). apply convert_loop_shift.
Qed.

Lemma convert_resume (c : N) (rest : str) (n : nat) (out w : str) :
  c :: rest = w ++ skipn n (c :: rest) -> length w = n -> 0 < n ->
  n <= S (length rest) ->
  convert_loop (length rest) (c :: rest) n ([] ++ out)
  = out ++ convert_inline_parens (skipn n (c :: rest)).
Proof.
  intros Hw Hlen Hn Hle. rewrite convert_loop_acc by (cbn [length]; lia). cbn [app].
  f_equal. remember (skipn n (c :: rest)) as s' eqn:Hs'. clear Hs'.
  remember (c :: rest) as line eqn:Hline. clear Hline. subst line n.
  rewrite length_app. replace (length w + length s' - length w) with (length s') by lia.
  apply convert_from.
Qed.

(** One turn of the loop at the head of a line, with the rest of the work
    stated on the part of the line that is left. *)
Lemma convert_unfold (c : N) (rest : str) :
  convert_inline_parens (c :: rest) =
  let line := c :: rest in
  let literal := c :: convert_inline_parens rest in
  let paren :=
    if (c =? ch "(")%N then
      match extract_paren_content line 0 with
      | Some (content, e) =>
          if is_math content
          then (ch "$" :: normalize_math content ++ [ch "$"])
                 ++ convert_inline_parens (skipn (S e) line)
          else literal
      | None => literal
      end
    else literal in
  if (c =? ch "$")%N then
    if str_eqb (slice line 0 2) (txt "$$") then
      match find (txt "$$") line 2 with
      | Some e => slice line 0 (e + 2) ++ convert_inline_parens (skipn (e + 2) line)
      | None => paren
      end
    else
      match find (txt "$") line 1 with
      | Some e => slice line 0 (e + 1) ++ convert_inline_parens (skipn (e + 1) line)
      | None => paren
      end
  else paren.
Proof.
  assert (Hgo : forall n out, 0 < n -> n <= S (length rest) ->
             convert_loop (length rest) (c :: rest) n ([] ++ out)
             = out ++ convert_inline_parens (skipn n (c :: rest))).
  { intros n out Hn Hle. apply convert_resume with (w := firstn n (c :: rest)).
    - now rewrite firstn_skipn.
    - rewrite length_firstn. cbn [length]. lia.
    - assumption.
    - assumption. }
  unfold convert_inline_parens at 1. cbn [length convert_loop nth_error].
  cbv zeta.
  assert (Hlit : convert_loop (length rest) (c :: rest) 1 ([] ++ [c])
                 = c :: convert_inline_parens rest).
  { rewrite Hgo by lia. reflexivity. }
  assert (Hparen :
    (if (c =? ch "(")%N
     then match extract_paren_content (c :: rest) 0 with
          | Some (content, e) =>
              if is_math content
              then convert_loop (length rest) (c :: rest) (S e)
                     ([] ++ ch "$" :: normalize_math content ++ [ch "$"])
              else convert_loop (length rest) (c :: rest) 1 ([] ++ [c])
          | None => convert_loop (length rest) (c :: rest) 1 ([] ++ [c])
          end
     else convert_loop (length rest) (c :: rest) 1 ([] ++ [c]))
    = (if (c =? ch "(")%N
       then match extract_paren_content (c :: rest) 0 with
            | Some (content, e) =>
                if is_math content
                then (ch "$" :: normalize_math content ++ [ch "$"])
                       ++ convert_inline_parens (skipn (S e) (c :: rest))
                else c :: convert_inline_parens rest
            | None => c :: convert_inline_parens rest
            end
       else c :: convert_inline_parens rest)).
  { rewrite Hlit. destruct (c =? ch "(")%N; [|reflexivity].
    destruct (extract_paren_content (c :: rest) 0) as [[content e]|] eqn:He; [|reflexivity].
    apply extract_bounds in He as [_ He]. cbn [length] in He.
    destruct (is_math content); [|reflexivity].
    apply Hgo; lia. }
  rewrite Hparen. cbn [Nat.add].
  destruct (c =? ch "$")%N; [|reflexivity].
  destruct (str_eqb (slice (c :: rest) 0 2) (txt "$$")).
  - destruct (find (txt "$$") (c :: rest) 2) as [e|] eqn:He; [|reflexivity].
    apply find_bounds in He. cbn [length txt] in He. simpl in He.
    apply Hgo; lia.
  - destruct (find (txt "$") (c :: rest) 1) as [e|] eqn:He; [|reflexivity].
    apply find_bounds in He. simpl in He.
    apply Hgo; lia.
Qed.

Lemma convert_nil : convert_inline_parens [] = [].
Proof. reflexivity. Qed.

Lemma no_math_parens_skipn (line : str) (n : nat) :
  no_math_parens line -> no_math_parens (skipn n line).
Proof.
  intros H i content e He.
  destruct (Nat.le_gt_cases n (length line)) as [Hn|Hn].
  - apply (H (length (firstn n line) + i) content (length (firstn n line) + e)).
    rewrite <- (firstn_skipn n line) at 1. rewrite extract_shift, He. reflexivity.
  - rewrite skipn_all2 in He by lia. unfold extract_paren_content in He.
    now destruct i.
Qed.

Lemma not_math_no_math_parens (line : str) :
  is_math line = false -> no_math_parens line.
Proof.
  intros H i content e He. apply extract_bounds in He as [-> _].
  destruct (slice_substring line (i + 1) e) as (a & c & Hs).
  rewrite Hs in H. now apply is_math_substring in H.
Qed.

Lemma slice_0 (s : str) (n : nat) : slice s 0 n = firstn n s.
Proof. unfold slice. now rewrite Nat.sub_0_r. Qed.

(** The scanner copies a line in which it finds no math in parentheses. *)
Lemma convert_no_math_parens (line : str) :
  no_math_parens line -> convert_inline_parens line = line.
Proof.
  remember (length line) as n eqn:Hn. revert line Hn.
  induction n as [n IH] using lt_wf_ind. intros line Hn Hline.
  destruct line as [|c rest]; [reflexivity|].
  assert (Hsuf : forall k, 0 < k ->
             convert_inline_parens (skipn k (c :: rest)) = skipn k (c :: rest)).
  { intros k Hk. apply (IH (length (skipn k (c :: rest)))).
    - rewrite length_skipn. subst n. cbn [length]. lia.
    - reflexivity.
    - now apply no_math_parens_skipn. }
  assert (Hrest : convert_inline_parens rest = rest) by apply (Hsuf 1), Nat.lt_0_1.
  rewrite convert_unfold. cbv zeta. rewrite Hrest.
  assert (Hparen :
    (if (c =? ch "(")%N
     then match extract_paren_content (c :: rest) 0 with
          | Some (content, e) =>
              if is_math content
              then (ch "$" :: normalize_math content ++ [ch "$"])
                     ++ convert_inline_parens (skipn (S e) (c :: rest))
              else c :: rest
          | None => c :: rest
          end
     else c :: rest) = c :: rest).
  { destruct (c =? ch "(")%N; [|reflexivity].
    destruct (extract_paren_content (c :: rest) 0) as [[content e]|] eqn:He; [|reflexivity].
    now rewrite (Hline _ _ _ He). }
  rewrite Hparen.
  destruct (c =? ch "$")%N; [|reflexivity].
  destruct (str_eqb (slice (c :: rest) 0 2) (txt "$$")).
  - destruct (find (txt "$$") (c :: rest) 2) as [e|]; [|reflexivity].
    rewrite Hsuf by lia. rewrite slice_0. apply firstn_skipn.
  - destruct (find (txt "$") (c :: rest) 1) as [e|]; [|reflexivity].
    rewrite Hsuf by lia. rewrite slice_0. apply firstn_skipn.
Qed.

Lemma is_math_in_parens (content : str) :
  is_math (ch "(" :: content ++ [ch ")"]) = is_math content.
Proof.
  destruct (is_math content) eqn:E.
  - apply is_math_spec in E as (pre & n & p & Hn & ->). apply is_math_spec.
    exists (ch "(" :: pre), n, (p ++ [ch ")"]). split; [assumption|].
    simpl. rewrite <- !app_assoc. simpl. now rewrite <- !app_assoc.
  - destruct (is_math (ch "(" :: content ++ [ch ")"])) eqn:E'; [|reflexivity].
    apply is_math_spec in E' as (pre & n & p & Hn & Heq).
    assert (Hlast : forall w, In w LATEX_NAMES ->
               forallb (fun c => negb (c =? ch ")")%N) w = true).
    { apply Forall_forall. vm_compute. repeat constructor. }
    destruct pre as [|c pre]; [discriminate|]. injection Heq as <- Heq.
    destruct (@exists_last _ p) as (p' & d & ->).
    { intros ->. rewrite app_nil_r in Heq.
      destruct (@exists_last _ n) as (n' & d & ->).
      { intros ->. simpl in Heq.
        apply app_inj_tail in Heq as [_ Heq]. discriminate. }
      replace (pre ++ ch "\" :: n' ++ [d]) with ((pre ++ ch "\" :: n') ++ [d]) in Heq
        by (rewrite <- app_assoc; reflexivity).
      apply app_inj_tail in Heq as [_ <-].
      specialize (Hlast _ Hn). rewrite forallb_app in Hlast.
      apply andb_true_iff in Hlast as [_ Hlast]. discriminate. }
    replace (pre ++ ch "\" :: n ++ p' ++ [d]) with ((pre ++ ch "\" :: n ++ p') ++ [d]) in Heq
      by (rewrite <- !app_assoc; simpl; now rewrite <- !app_assoc).
    apply app_inj_tail in Heq as [Heq _].
    assert (is_math content = true); [|congruence].
    apply is_math_spec. now exists pre, n, p'.
Qed.

(** C1.  A line that is one balanced parenthesized span: when the content
    holds a recognized command the scanner returns the normalized content
    between single dollars; when it holds none the line is returned as it
    is, parentheses included. *)
Theorem paren_line_conversion (content : str) :
  balanced content = true ->
  (is_math content = true ->
   convert_inline_parens (ch "(" :: content ++ [ch ")"])
   = ch "$" :: normalize_math content ++ [ch "$"])
  /\ (is_math content = false ->
      convert_inline_parens (ch "(" :: content ++ [ch ")"])
      = ch "(" :: content ++ [ch ")"]).
Proof.
  intros Hbal. split; intros Hm.
  - rewrite convert_unfold. cbv zeta.
    change (ch "(" =? ch "$")%N with false. change (ch "(" =? ch "(")%N with true.
    cbv iota. rewrite (@extract_balanced content [] Hbal), Hm.
    rewrite skipn_all2 by (cbn [length]; rewrite length_app; simpl; lia).
    rewrite convert_nil, app_nil_r. reflexivity.
  - apply convert_no_math_parens, not_math_no_math_parens.
    now rewrite is_math_in_parens.
Qed.

(** C8 as amended.  When the line ends before the parenthesis opened at an
    index is closed, the extractor reports no match, the loop turn at that
    index appends the parenthesis alone and moves one character on, and the
    scan of the rest goes on as usual. *)
Theorem unbalanced_paren_is_literal (pre rest : str) :
  never_closes rest = true ->
  extract_paren_content (pre ++ ch "(" :: rest) (length pre) = None
  /\ (forall fuel result,
        convert_loop (S fuel) (pre ++ ch "(" :: rest) (length pre) result
        = convert_loop fuel (pre ++ ch "(" :: rest) (S (length pre)) (result ++ [ch "("]))
  /\ convert_inline_parens (ch "(" :: rest) = ch "(" :: convert_inline_parens rest.
Proof.
  intros Hopen.
  assert (Hex : extract_paren_content (pre ++ ch "(" :: rest) (length pre) = None).
  { rewrite <- (Nat.add_0_r (length pre)), extract_shift, (@extract_open rest Hopen).
    reflexivity. }
  split; [exact Hex|]. split.
  - intros fuel result. cbn [convert_loop].
    rewrite <- (Nat.add_0_r (length pre)) at 1. rewrite nth_error_shift. cbn [nth_error].
    change (ch "(" =? ch "$")%N with false. change (ch "(" =? ch "(")%N with true.
    cbv iota. now rewrite Hex.
  - rewrite convert_unfold. cbv zeta.
    change (ch "(" =? ch "$")%N with false. change (ch "(" =? ch "(")%N with true.
    cbv iota. now rewrite (@extract_open rest Hopen).
Qed.

(** ** The block processor: the loop seen from an index on *)

Lemma block_loop_spec (terminator : str) (rest : list str) (i : nat) (acc : list str) :
  block_loop terminator rest i acc
  = (i + length (interior terminator rest), acc ++ interior terminator rest).
Proof.
  revert i acc; induction rest as [|l rest IH]; intros i acc; cbn [block_loop interior].
  - now rewrite Nat.add_0_r, app_nil_r.
  - destruct (str_eqb (strip l) terminator).
    + now rewrite Nat.add_0_r, app_nil_r.
    + rewrite IH, <- app_assoc. cbn [length app]. f_equal. lia.
Qed.

Lemma interior_closed (terminator : str) (body : list str) (closer : str) (post : list str) :
  Forall (fun l => strip l <> terminator) body ->
  strip closer = terminator ->
  interior terminator (body ++ closer :: post) = body.
Proof.
  intros Hbody Hc. induction Hbody as [|l body Hl _ IH]; cbn [interior app].
  - rewrite Hc, str_eqb_refl. reflexivity.
  - apply str_eqb_neq in Hl. rewrite Hl. now f_equal.
Qed.

Lemma interior_open (terminator : str) (rest : list str) :
  Forall (fun l => strip l <> terminator) rest ->
  interior terminator rest = rest.
Proof.
  intros H. induction H as [|l rest Hl _ IH]; cbn [interior]; [reflexivity|].
  apply str_eqb_neq in Hl. rewrite Hl. now f_equal.
Qed.

Lemma skipn_shift (A : Type) (pre s : list A) (i : nat) :
  skipn (length pre + i) (pre ++ s) = skipn i s.
Proof.
  rewrite skipn_app, skipn_all2 by lia.
  replace (length pre + i - length pre) with i by lia. reflexivity.
Qed.

Lemma fix_loop_shift (fuel : nat) (pre s : list str) (i : nat) (flag : bool)
      (result : list str) :
  fix_loop fuel (pre ++ s) (length pre + i) flag result = fix_loop fuel s i flag result.
Proof.
  revert i flag result; induction fuel as [|fuel IH]; intros i flag result;
    cbn [fix_loop]; [reflexivity|].
  rewrite nth_error_shift. destruct (nth_error s i) as [line|]; [|reflexivity].
  rewrite <- !Nat.add_succ_r, !skipn_shift, !block_loop_spec, !IH.
  rewrite <- !Nat.add_assoc, <- !Nat.add_succ_r, !IH.
  reflexivity.
Qed.

Lemma fix_loop_acc (lines : list str) (fuel i : nat) (flag : bool) (result : list str) :
  length lines - i <= fuel ->
  fix_loop fuel lines i flag result
  = result ++ fix_loop (length lines - i) lines i flag [].
Proof.
  revert i flag result; induction fuel as [fuel IH] using lt_wf_ind;
    intros i flag result Hfuel.
  destruct (nth_error lines i) as [line|] eqn:Hl.
  2:{ pose proof Hl as Hlen. apply nth_error_None in Hlen.
      replace (length lines - i) with 0 by lia.
      cbn [fix_loop]. rewrite app_nil_r.
      destruct fuel; cbn [fix_loop]; now rewrite ?Hl. }
  assert (Hi : i < length lines) by (apply nth_error_Some; congruence).
  destruct fuel as [|fuel]; [lia|].
  destruct (length lines - i) as [|m] eqn:Hm; [lia|].
  cbn [fix_loop]. rewrite Hl.
  assert (Hgo : forall j fl x, i < j ->
             fix_loop fuel lines j fl (result ++ x)
             = result ++ fix_loop m lines j fl ([] ++ x)).
  { intros j fl x Hj. rewrite (IH fuel) by lia. rewrite (IH m) by lia.
    simpl. now rewrite <- app_assoc. }
  assert (Hgo0 : forall j fl, i < j ->
             fix_loop fuel lines j fl result = result ++ fix_loop m lines j fl []).
  { intros j fl Hj. rewrite <- (app_nil_r result) at 1. now rewrite Hgo. }
  rewrite !block_loop_spec.
  destruct (startswith (strip line) (txt "```")); [apply Hgo; lia|].
  destruct flag; [apply Hgo; lia|].
  destruct (is_remote_image line); [apply Hgo0; lia|].
  destruct (str_eqb (strip line) (txt "[")); [apply Hgo; lia|].
  destruct (str_eqb (strip line) (txt "$$")); [apply Hgo; lia|].
  apply Hgo; lia.
Qed.

(** The main loop ends by itself: more turns than the document has lines
    change nothing. *)
Lemma fix_loop_enough (lines : list str) (fuel : nat) :
  length lines <= fuel -> fix_loop fuel lines 0 false [] = fix_lines lines.
Proof.
  intros H. rewrite fix_loop_acc by lia. now rewrite Nat.sub_0_r.
Qed.

Lemma fix_loop_from (pre s : list str) (flag : bool) :
  fix_loop (length s) (pre ++ s) (length pre) flag [] = fix_run s flag.
Proof.
  rewrite <- (Nat.add_0_r (length pre)). apply fix_loop_shift.
Qed.

Lemma fix_run_nil (flag : bool) : fix_run [] flag = [].
Proof. reflexivity. Qed.

(** One turn of the main loop at the head of the document, with the rest of
    the work stated on the lines that are left. *)
Lemma fix_run_unfold (line : str) (rest : list str) (flag : bool) :
  fix_run (line :: rest) flag =
  if startswith (strip line) (txt "```") then line :: fix_run rest (negb flag)
  else if flag then line :: fix_run rest flag
  else if is_remote_image line then fix_run rest flag
  else if str_eqb (strip line) (txt "[") then
    display_block (clean_display_lines (interior (txt "]") rest))
      ++ fix_run (skipn (S (length (interior (txt "]") rest))) rest) flag
  else if str_eqb (strip line) (txt "$$") then
    display_block (clean_display_lines (interior (txt "$$") rest))
      ++ fix_run (skipn (S (length (interior (txt "$$") rest))) rest) flag
  else convert_inline_parens (escape_hash_in_math line) :: fix_run rest flag.
Proof.
  assert (Hgo : forall n fl x, 0 < n ->
             fix_loop (length rest) (line :: rest) n fl ([] ++ x)
             = x ++ fix_run (skipn n (line :: rest)) fl).
  { intros n fl x Hn. rewrite fix_loop_acc by (cbn [length]; lia). cbn [app]. f_equal.
    destruct (Nat.le_gt_cases n (length (line :: rest))) as [Hle|Hgt].
    - remember (line :: rest) as L eqn:HL. clear HL.
      rewrite <- (firstn_skipn n L) at 1 2.
      assert (Hw : length (firstn n L) = n) by (rewrite length_firstn; lia).
      remember (firstn n L) as w eqn:Ew. remember (skipn n L) as s' eqn:Es'.
      clear Ew Es'. subst n. rewrite length_app.
      replace (length w + length s' - length w) with (length s') by lia.
      apply fix_loop_from.
    - rewrite skipn_all2 by lia. replace (length (line :: rest) - n) with 0 by lia.
      reflexivity. }
  unfold fix_run at 1. cbn [length fix_loop nth_error skipn].
  rewrite !block_loop_spec.
  destruct (startswith (strip line) (txt "```")); [apply (Hgo 1); lia|].
  destruct flag; [apply (Hgo 1); lia|].
  destruct (is_remote_image line); [apply (Hgo 1 false []); lia|].
  destruct (str_eqb (strip line) (txt "[")).
  { rewrite Hgo by lia. reflexivity. }
  destruct (str_eqb (strip line) (txt "$$")).
  { rewrite Hgo by lia. reflexivity. }
  apply (Hgo 1); lia.
Qed.

Lemma bracket_line_plain (line : str) :
  strip line = txt "[" ->
  startswith (strip line) (txt "```") = false /\ is_remote_image line = false
  /\ str_eqb (strip line) (txt "[") = true.
Proof. intros H. unfold is_remote_image. rewrite H. now vm_compute. Qed.

Lemma dollars_line_plain (line : str) :
  strip line = txt "$$" ->
  startswith (strip line) (txt "```") = false /\ is_remote_image line = false
  /\ str_eqb (strip line) (txt "[") = false
  /\ str_eqb (strip line) (txt "$$") = true.
Proof. intros H. unfold is_remote_image. rewrite H. now vm_compute. Qed.

Lemma clean_separators (body : list str) :
  Forall (fun l => is_pure_separator l = true) body -> clean_display_lines body = [].
Proof.
  intros H. induction H as [|l body Hl _ IH]; cbn [clean_display_lines]; [reflexivity|].
  now rewrite Hl.
Qed.

(** C4.  A display block opened by a line that trims to a bracket and closed
    by the first later line that trims to the closing bracket: the loop turn
    at the opener appends nothing when no cleaned line is left, else an empty
    line, the dollar fence, the cleaned interior, the dollar fence and an
    empty line, and goes on after the closer; an interior of separator lines
    only leaves nothing. *)
Theorem display_block_emission (pre : list str) (opener : str) (body : list str)
        (closer : str) (post : list str) :
  strip opener = txt "[" ->
  strip closer = txt "]" ->
  Forall (fun l => strip l <> txt "]") body ->
  let lines := pre ++ opener :: body ++ closer :: post in
  let cleaned := clean_display_lines body in
  let emitted :=
    match cleaned with
    | [] => []
    | _ => [] :: txt "$$" :: cleaned ++ [txt "$$"; []]
    end in
  (forall fuel result,
      fix_loop (S fuel) lines (length pre) false result
      = fix_loop fuel lines (length pre + length body + 2) false (result ++ emitted))
  /\ fix_run (opener :: body ++ closer :: post) false = emitted ++ fix_run post false
  /\ (Forall (fun l => is_pure_separator l = true) body -> emitted = []).
Proof.
  intros Hopen Hclose Hbody lines cleaned emitted.
  destruct (bracket_line_plain _ Hopen) as (Hf & Hi & Hb).
  assert (Hint : interior (txt "]") (body ++ closer :: post) = body)
    by now apply interior_closed.
  assert (Hem : emitted = display_block cleaned) by (subst emitted; now destruct cleaned).
  split; [|split].
  - intros fuel result. subst lines. cbn [fix_loop].
    rewrite <- (Nat.add_0_r (length pre)) at 1. rewrite nth_error_shift. cbn [nth_error].
    rewrite Hf, Hi, Hb.
    replace (S (length pre)) with (length pre + 1) by lia.
    rewrite skipn_shift. cbn [skipn]. rewrite block_loop_spec, Hint, Hem. cbn [app].
    f_equal. lia.
  - rewrite fix_run_unfold, Hf, Hi, Hb, Hint, Hem. f_equal.
    replace (S (length body)) with (length body + 1) by lia.
    rewrite skipn_shift. reflexivity.
  - intros Hsep. subst emitted cleaned. now rewrite clean_separators.
Qed.

(** C9.  A display block whose terminator never comes: the loop turn at the
    opener takes every remaining line as the interior, appends the block as
    usual and ends the loop there, whatever fuel is left; nothing is
    reported. *)
Theorem unterminated_block_to_end (lines : list str) (i : nat) (opener terminator : str) :
  nth_error lines i = Some opener ->
  (strip opener = txt "[" /\ terminator = txt "]")
  \/ (strip opener = txt "$$" /\ terminator = txt "$$") ->
  Forall (fun l => strip l <> terminator) (skipn (S i) lines) ->
  (forall fuel result,
      fix_loop (S fuel) lines i false result
      = result ++ display_block (clean_display_lines (skipn (S i) lines)))
  /\ fix_run (skipn i lines) false
     = display_block (clean_display_lines (skipn (S i) lines)).
Proof.
  intros Hnth Hkind Hrest.
  assert (Hi : i < length lines) by (apply nth_error_Some; congruence).
  pose proof (interior_open Hrest) as Hint.
  assert (Hend : forall fuel result, fix_loop fuel lines (S (S i + length (skipn (S i) lines))) false result = result).
  { intros fuel result. destruct fuel; cbn [fix_loop]; [reflexivity|].
    replace (nth_error lines _) with (@None (list N)); [reflexivity|].
    symmetry. apply nth_error_None. rewrite length_skipn. lia. }
  assert (Hsk : skipn i lines = opener :: skipn (S i) lines).
  { destruct (nth_error_split _ _ Hnth) as (l1 & l2 & -> & <-).
    rewrite <- (Nat.add_0_r (length l1)) at 1. rewrite skipn_shift.
    replace (S (length l1)) with (length l1 + 1) by lia. now rewrite skipn_shift. }
  split.
  - intros fuel result. cbn [fix_loop]. rewrite Hnth.
    destruct Hkind as [[Ho ->]|[Ho ->]].
    + destruct (bracket_line_plain _ Ho) as (Hf & Hr & Hb). rewrite Hf, Hr, Hb.
      rewrite block_loop_spec, Hint. cbn [app]. apply Hend.
    + destruct (dollars_line_plain _ Ho) as (Hf & Hr & Hb & Hd). rewrite Hf, Hr, Hb, Hd.
      rewrite block_loop_spec, Hint. cbn [app]. apply Hend.
  - rewrite Hsk, fix_run_unfold. clear Hsk Hend.
    remember (skipn (S i) lines) as tail eqn:Ht. clear Ht.
    destruct Hkind as [[Ho ->]|[Ho ->]].
    + destruct (bracket_line_plain _ Ho) as (Hf & Hr & Hb). rewrite Hf, Hr, Hb, Hint.
      rewrite skipn_all2 by lia. now rewrite fix_run_nil, app_nil_r.
    + destruct (dollars_line_plain _ Ho) as (Hf & Hr & Hb & Hd). rewrite Hf, Hr, Hb, Hd, Hint.
      rewrite skipn_all2 by lia. now rewrite fix_run_nil, app_nil_r.
Qed.

(** C5 as amended.  While the code-block flag is set, the lines up to the
    next fence line are appended to the result as they are, and the loop
    goes on after them with the flag still set. *)
Theorem code_block_lines_verbatim (pre body post : list str) :
  Forall (fun l => startswith (strip l) (txt "```") = false) body ->
  (forall fuel result,
      fix_loop (length body + fuel) (pre ++ body ++ post) (length pre) true result
      = fix_loop fuel (pre ++ body ++ post) (length pre + length body) true
                 (result ++ body))
  /\ fix_run (body ++ post) true = body ++ fix_run post true.
Proof.
  intros Hbody. split.
  - intros fuel result. revert pre result.
    induction Hbody as [|l body Hl _ IH]; intros pre result.
    + cbn [length app Nat.add]. now rewrite Nat.add_0_r, app_nil_r.
    + cbn [length Nat.add fix_loop].
      rewrite <- (Nat.add_0_r (length pre)) at 1. rewrite nth_error_shift.
      cbn [app nth_error]. rewrite Hl.
      specialize (IH (pre ++ [l]) (result ++ [l])).
      rewrite <- !app_assoc, length_app in IH. cbn [app length] in IH.
      replace (length pre + 1) with (S (length pre)) in IH by lia.
      rewrite IH. f_equal. lia.
  - induction Hbody as [|l body Hl _ IH]; [reflexivity|].
    cbn [app]. rewrite fix_run_unfold, Hl, IH. reflexivity.
Qed.

(** ** The scan of [re.sub] *)

Lemma rewrite_ext (h h' : list N -> list N -> option (list N * nat)) :
  (forall pre s, h pre s = h' pre s) ->
  forall skip pre s, Re.rewrite h skip pre s = Re.rewrite h' skip pre s.
Proof.
  intros Hh skip pre s. revert skip pre.
  induction s as [|c s IH]; intros skip pre; destruct skip; cbn [Re.rewrite];
    rewrite <- ?Hh, ?IH; try reflexivity.
  destruct (h pre (c :: s)) as [[out [|n]]|]; now rewrite ?IH.
Qed.

Lemma rewrite_skip (h : list N -> list N -> option (list N * nat)) (w pre s : str) :
  Re.rewrite h (length w) pre (w ++ s) = Re.rewrite h 0 (rev w ++ pre) s.
Proof.
  revert pre; induction w as [|c w IH]; intros pre; [reflexivity|].
  cbn [length app Re.rewrite rev]. now rewrite IH, <- app_assoc.
Qed.

Lemma rewrite_hit (h : list N -> list N -> option (list N * nat))
      (c : N) (w pre s out : str) :
  h pre (c :: w ++ s) = Some (out, S (length w)) ->
  Re.rewrite h 0 pre (c :: w ++ s) = out ++ Re.rewrite h 0 (rev w ++ c :: pre) s.
Proof. intros H. cbn [Re.rewrite]. now rewrite H, rewrite_skip. Qed.

Lemma rewrite_miss (h : list N -> list N -> option (list N * nat))
      (c : N) (pre s : str) :
  h pre (c :: s) = None ->
  Re.rewrite h 0 pre (c :: s) = c :: Re.rewrite h 0 (c :: pre) s.
Proof. intros H. cbn [Re.rewrite]. now rewrite H. Qed.

Section Scan.
Variable g : list N -> option (list N * nat).

Lemma rewrite_pre (n : nat) (pre pre' s : str) :
  Re.rewrite (fun _ => g) n pre s = Re.rewrite (fun _ => g) n pre' s.
Proof.
  revert n pre pre'; induction s as [|c s IH]; intros n pre pre'; destruct n;
    cbn [Re.rewrite]; try reflexivity.
  - destruct (g (c :: s)) as [[out [|m]]|].
    + f_equal. f_equal. apply IH.
    + f_equal. apply IH.
    + f_equal. apply IH.
  - apply IH.
Qed.

Lemma scan_miss (c : N) (s : str) :
  g (c :: s) = None -> scan g (c :: s) = c :: scan g s.
Proof.
  intros H. unfold scan. rewrite rewrite_miss by exact H. f_equal.
  apply rewrite_pre.
Qed.

Hypothesis g_bounds : forall s out n, g s = Some (out, n) -> 0 < n <= length s.

Lemma scan_hit (s out : str) (n : nat) :
  g s = Some (out, n) -> scan g s = out ++ scan g (skipn n s).
Proof.
  intros H. pose proof (@g_bounds _ _ _ H) as Hn.
  destruct s as [|c s]; [cbn [length] in Hn; lia|]. destruct n as [|n]; [lia|].
  cbn [length] in Hn. unfold scan.
  rewrite <- (firstn_skipn n s) at 1.
  assert (Hlen : length (firstn n s) = n) by (rewrite length_firstn; lia).
  rewrite (@rewrite_hit _ c (firstn n s) [] (skipn n s) out).
  - cbn [skipn]. f_equal. apply rewrite_pre.
  - rewrite firstn_skipn, Hlen. exact H.
Qed.

Lemma scan_nil : scan g [] = [].
Proof.
  unfold scan. cbn [Re.rewrite]. destruct (g []) as [[out n]|] eqn:E; [|reflexivity].
  apply g_bounds in E. cbn [length] in E. lia.
Qed.

(** A character that no match runs over splits the scan. *)
Variable b : N.
Hypothesis g_barrier : forall c s x, g ((c :: s) ++ b :: x) = g (c :: s).

Lemma scan_barrier (s x : str) : scan g (s ++ b :: x) = scan g s ++ scan g (b :: x).
Proof.
  remember (length s) as n eqn:Hn. revert s Hn.
  induction n as [n IH] using lt_wf_ind. intros s Hn.
  destruct s as [|c s]; [now rewrite scan_nil|].
  pose proof (g_barrier c s x) as Hb.
  destruct (g (c :: s)) as [[out m]|] eqn:Eh.
  - pose proof (@g_bounds _ _ _ Eh) as Hm.
    rewrite (@scan_hit _ _ _ Hb), (@scan_hit _ _ _ Eh).
    rewrite skipn_app. replace (m - length (c :: s)) with 0 by lia. cbn [skipn].
    rewrite (IH (length (skipn m (c :: s)))); [now rewrite app_assoc| |reflexivity].
    rewrite length_skipn. subst n. lia.
  - cbn [app] in Hb |- *. rewrite (@scan_miss _ _ Hb), (@scan_miss _ _ Eh).
    cbn [app]. f_equal. apply (IH (length s)); [subst n; cbn [length]; lia | reflexivity].
Qed.

End Scan.

(** ** Greedy repetition *)

Lemma orelse_none_r (A : Type) (x : option A) : Re.orelse x None = x.
Proof. now destruct x. Qed.

Lemma orelse_some_l (A : Type) (x y : option A) : x <> None -> Re.orelse x y = x.
Proof. now destruct x. Qed.

Lemma take_drop_while (p : N -> bool) (s : str) :
  take_while p s ++ drop_while p s = s.
Proof.
  induction s as [|c s IH]; cbn [take_while drop_while]; [reflexivity|].
  destruct (p c); cbn [app]; now rewrite ?IH.
Qed.

Lemma take_while_all (p : N -> bool) (s : str) : forallb p (take_while p s) = true.
Proof.
  induction s as [|c s IH]; cbn [take_while]; [reflexivity|].
  destruct (p c) eqn:E; cbn [forallb]; now rewrite ?E, ?IH.
Qed.

Lemma take_while_app (p : N -> bool) (w s : str) :
  forallb p w = true -> take_while p (w ++ s) = w ++ take_while p s.
Proof.
  induction w as [|c w IH]; cbn [forallb app take_while]; [reflexivity|].
  intros H. apply andb_true_iff in H as [-> H]. now rewrite IH.
Qed.

Lemma drop_while_app (p : N -> bool) (w s : str) :
  forallb p w = true -> drop_while p (w ++ s) = drop_while p s.
Proof.
  induction w as [|c w IH]; cbn [forallb app drop_while]; [reflexivity|].
  intros H. apply andb_true_iff in H as [-> H]. now rewrite IH.
Qed.

(** When the rest of the pattern cannot follow a shorter run, greedy
    repetition is the longest run. *)
Lemma greedy_star_longest (A : Type) (p : N -> bool) (k : list N * list N -> option A)
      (pre s : str) :
  (forall w1 c w2, take_while p s = w1 ++ c :: w2 ->
                   k (rev w1 ++ pre, c :: w2 ++ drop_while p s) = None) ->
  Re.greedy_star p k pre s = k (rev (take_while p s) ++ pre, drop_while p s).
Proof.
  revert pre; induction s as [|c s IH]; intros pre H; cbn [Re.greedy_star take_while drop_while].
  - reflexivity.
  - destruct (p c) eqn:E; [|reflexivity].
    cbn [take_while drop_while] in H. rewrite E in H.
    rewrite IH.
    + pose proof (H [] c (take_while p s) eq_refl) as H0. cbn [rev app] in H0.
      rewrite take_drop_while in H0. rewrite H0.
      cbn [rev]. rewrite <- app_assoc. cbn [app].
      apply orelse_none_r.
    + intros w1 d w2 Hw. specialize (H (c :: w1) d w2).
      cbn [rev app] in H. rewrite <- app_assoc in H. apply H. now rewrite Hw.
Qed.

(** When the rest of the pattern always succeeds, too. *)
Lemma greedy_star_total (A : Type) (p : N -> bool) (k : list N * list N -> option A)
      (pre s : str) :
  (forall cur, k cur <> None) ->
  Re.greedy_star p k pre s = k (rev (take_while p s) ++ pre, drop_while p s).
Proof.
  intros Hk. revert pre; induction s as [|c s IH]; intros pre;
    cbn [Re.greedy_star take_while drop_while]; [reflexivity|].
  destruct (p c); [|reflexivity].
  rewrite IH. cbn [rev]. rewrite <- app_assoc. cbn [app].
  apply orelse_some_l, Hk.
Qed.

(** ** Hash escaping *)

Lemma hit_hash (pre s : str) : Re.hit hash_re hash_tpl pre s = hash_hit pre s.
Proof.
  unfold Re.hit, Re.match_at, hash_re, hash_hit. cbn [Re.mt fst snd].
  destruct pre as [|d pre].
  - destruct s as [|c s]; [reflexivity|]. rewrite (N.eqb_sym c).
    destruct (ch "#" =? c)%N; [|reflexivity]. cbn [andb negb Re.expand hash_tpl length].
    rewrite app_nil_r. do 2 f_equal. lia.
  - rewrite (N.eqb_sym d). destruct (ch "\" =? d)%N.
    + destruct s as [|c s]; [reflexivity|]. now rewrite andb_false_r.
    + destruct s as [|c s]; [reflexivity|]. rewrite (N.eqb_sym c).
      destruct (ch "#" =? c)%N; [|reflexivity]. cbn [andb negb Re.expand hash_tpl length].
      rewrite app_nil_r. do 2 f_equal. lia.
Qed.

Lemma rewrite_hash (pre s : str) :
  Re.rewrite hash_hit 0 pre s = escape_scan (hd_error pre) s.
Proof.
  revert pre; induction s as [|c s IH]; intros pre; [reflexivity|].
  cbn [Re.rewrite escape_scan hash_hit].
  replace (match hd_error pre with Some d => (d =? ch "\")%N | None => false end)
    with (match pre with d :: _ => (d =? ch "\")%N | [] => false end)
    by now destruct pre.
  destruct ((c =? ch "#")%N && negb _); rewrite IH; reflexivity.
Qed.

Lemma escape_hash_scan (s : str) : escape_hash_in_math s = escape_scan None s.
Proof.
  unfold escape_hash_in_math, Re.sub.
  rewrite (rewrite_ext _ _ hit_hash). apply rewrite_hash.
Qed.

Lemma norm_hash_scan (s : str) : norm_hash s = escape_scan None s.
Proof. apply escape_hash_scan. Qed.

Lemma escape_scan_idempotent (prev : option N) (s : str) :
  escape_scan prev (escape_scan prev s) = escape_scan prev s.
Proof.
  revert prev; induction s as [|c s IH]; intros prev; [reflexivity|].
  cbn [escape_scan].
  destruct (N.eqb_spec c (ch "#")) as [->|Hc]; cbn [andb].
  - destruct prev as [d|].
    + destruct (d =? ch "\")%N eqn:E; cbn [negb escape_scan].
      * change (ch "#" =? ch "#")%N with true. rewrite E. cbn [andb negb]. now rewrite IH.
      * change (ch "\" =? ch "#")%N with false. change (ch "#" =? ch "#")%N with true.
        change (ch "\" =? ch "\")%N with true. cbn [andb negb]. now rewrite IH.
    + cbn [negb escape_scan].
      change (ch "\" =? ch "#")%N with false. change (ch "#" =? ch "#")%N with true.
      change (ch "\" =? ch "\")%N with true. cbn [andb negb]. now rewrite IH.
  - cbn [escape_scan]. apply N.eqb_neq in Hc. rewrite Hc. cbn [andb]. now rewrite IH.
Qed.

(** ** Thin space before a differential *)

Lemma captured (w pre : str) :
  rev (firstn (length (rev w ++ pre) - length pre) (rev w ++ pre)) = w.
Proof.
  rewrite length_app. replace (length (rev w) + length pre - length pre) with (length (rev w)) by lia.
  rewrite firstn_app, firstn_all, Nat.sub_diag. cbn [firstn]. rewrite app_nil_r.
  apply rev_involutive.
Qed.

Lemma forallb_split (p : N -> bool) (w w1 w2 : str) (c : N) :
  forallb p w = true -> w = w1 ++ c :: w2 -> p c = true.
Proof.
  intros H ->. rewrite forallb_app in H. apply andb_true_iff in H as [_ H].
  cbn [forallb] in H. now apply andb_true_iff in H as [H _].
Qed.

Lemma hit_thin (pre s : str) : Re.hit thin_re thin_tpl pre s = thin_hit s.
Proof.
  unfold Re.hit, Re.match_at, thin_re, thin_hit, Re.plus. cbn [Re.mt fst snd].
  destruct s as [|c t]; [reflexivity|]. rewrite (N.eqb_sym c).
  destruct (N.eqb_spec (ch ",") c) as [<-|Hc]; [|reflexivity].
  rewrite greedy_star_longest.
  2:{ intros w1 c w2 Hw. cbn [Re.mt fst snd].
      pose proof (@forallb_split _ _ _ _ _ (take_while_all is_space t) Hw) as Hsp.
      destruct (N.eqb_spec (ch "d") c) as [<-|]; [discriminate Hsp|reflexivity]. }
  cbn [Re.mt fst snd].
  destruct (drop_while is_space t) as [|d t'] eqn:Ed; [reflexivity|].
  rewrite (N.eqb_sym d). destruct (N.eqb_spec (ch "d") d) as [<-|Hd]; [|reflexivity].
  cbn [Re.mt fst snd].
  destruct t' as [|e t'']; [reflexivity|]. cbn [take_while].
  destruct (is_word e) eqn:Ee; [|reflexivity].
  rewrite greedy_star_total by congruence.
  cbn [Re.expand thin_tpl Re.group Nat.eqb].
  set (ws := take_while is_space t). set (w := take_while is_word t'').
  f_equal. f_equal.
  - rewrite app_nil_r. f_equal. f_equal.
    + change (ch "," :: pre) with ([] ++ ch "," :: pre).
      rewrite app_assoc. rewrite <- (app_nil_r (rev ws)) at 1 2.
      rewrite <- !app_assoc. cbn [app].
      apply (captured ws (ch "," :: pre)).
    + replace (rev w ++ e :: ch "d" :: rev ws ++ ch "," :: pre)
        with (rev (ch "d" :: e :: w) ++ (rev ws ++ ch "," :: pre)).
      2:{ cbn [rev]. rewrite <- !app_assoc. reflexivity. }
      apply captured.
  - pose proof (take_drop_while is_space t) as Ht. fold ws in Ht. rewrite Ed in Ht.
    pose proof (take_drop_while is_word t'') as Ht''. fold w in Ht''.
    apply (f_equal (@length N)) in Ht, Ht''. rewrite length_app in Ht, Ht''.
    cbn [length] in *. lia.
Qed.

Lemma thin_hit_bounds (s out : str) (n : nat) :
  thin_hit s = Some (out, n) -> 0 < n <= length s.
Proof.
  unfold thin_hit. destruct s as [|c t]; [discriminate|].
  destruct (c =? ch ",")%N; [|discriminate].
  destruct (drop_while is_space t) as [|d t'] eqn:Ed; [discriminate|].
  destruct (d =? ch "d")%N; [|discriminate].
  destruct (take_while is_word t') as [|e w] eqn:Ew; [discriminate|].
  intros [= <- <-].
  pose proof (take_drop_while is_space t) as Ht. rewrite Ed in Ht.
  pose proof (take_drop_while is_word t') as Ht'. rewrite Ew in Ht'.
  apply (f_equal (@length N)) in Ht, Ht'. rewrite length_app in Ht, Ht'.
  cbn [length] in *. lia.
Qed.

Lemma take_while_barrier (p : N -> bool) (s x : str) (c : N) :
  p c = false -> take_while p (s ++ c :: x) = take_while p s.
Proof.
  intros Hc. induction s as [|d s IH]; cbn [app take_while].
  - now rewrite Hc.
  - destruct (p d); now rewrite ?IH.
Qed.

Lemma drop_while_barrier (p : N -> bool) (s x : str) (c : N) :
  p c = false -> drop_while p (s ++ c :: x) = drop_while p s ++ c :: x.
Proof.
  intros Hc. induction s as [|d s IH]; cbn [app drop_while].
  - now rewrite Hc.
  - destruct (p d); now rewrite ?IH.
Qed.

Lemma comma_not_space : is_space (ch ",") = false.
Proof. reflexivity. Qed.

Lemma comma_not_word : is_word (ch ",") = false.
Proof. reflexivity. Qed.

Lemma d_not_space : is_space (ch "d") = false.
Proof. reflexivity. Qed.

(** A comma further on does not change what matches before it. *)
Lemma thin_hit_barrier (c : N) (s x : str) :
  thin_hit ((c :: s) ++ ch "," :: x) = thin_hit (c :: s).
Proof.
  unfold thin_hit. cbn [app].
  destruct (c =? ch ",")%N; [|reflexivity].
  rewrite take_while_barrier, drop_while_barrier by apply comma_not_space.
  destruct (drop_while is_space s) as [|d t']; cbn [app].
  - reflexivity.
  - destruct (d =? ch "d")%N; [|reflexivity].
    now rewrite take_while_barrier by apply comma_not_word.
Qed.

Lemma norm_thin_space_scan (s : str) : norm_thin_space s = thin_scan s.
Proof. unfold norm_thin_space, Re.sub, thin_scan. apply rewrite_ext, hit_thin. Qed.

Lemma thin_scan_hit (s out : str) (n : nat) :
  thin_hit s = Some (out, n) -> thin_scan s = out ++ thin_scan (skipn n s).
Proof. apply scan_hit, thin_hit_bounds. Qed.

Lemma thin_scan_miss (c : N) (s : str) :
  thin_hit (c :: s) = None -> thin_scan (c :: s) = c :: thin_scan s.
Proof. apply scan_miss. Qed.

Lemma thin_scan_barrier (s x : str) :
  thin_scan (s ++ ch "," :: x) = thin_scan s ++ thin_scan (ch "," :: x).
Proof. apply scan_barrier; [apply thin_hit_bounds | apply thin_hit_barrier]. Qed.

Lemma thin_scan_word (w s : str) :
  forallb is_word w = true -> thin_scan (w ++ s) = w ++ thin_scan s.
Proof.
  induction w as [|c w IH]; cbn [forallb app]; [reflexivity|].
  intros H. apply andb_true_iff in H as [Hc Hw].
  rewrite thin_scan_miss.
  - now rewrite IH.
  - unfold thin_hit. destruct (N.eqb_spec c (ch ",")) as [->|]; [|reflexivity].
    rewrite comma_not_word in Hc. discriminate.
Qed.

(** C3.  A comma, white space or none, and a token that is [d] followed by
    word characters: step 2 of the normalizer puts a backslash before the
    comma, which gives the thin-space control sequence before the token; the
    comma, the white space and the token stay, and the text on both sides is
    normalized on its own. *)
Theorem thin_space_before_differential (pre ws w post : str) :
  forallb is_space ws = true ->
  w <> [] ->
  forallb is_word w = true ->
  norm_thin_space (pre ++ ch "," :: ws ++ ch "d" :: w ++ post)
  = norm_thin_space pre ++ ch "\" :: ch "," :: ws ++ ch "d" :: w ++ norm_thin_space post.
Proof.
  intros Hws Hne Hw. rewrite !norm_thin_space_scan, thin_scan_barrier. f_equal.
  pose proof (take_drop_while is_word post) as Hpost.
  set (w' := take_while is_word post) in *. set (post' := drop_while is_word post) in *.
  assert (Hhit : thin_hit (ch "," :: ws ++ ch "d" :: w ++ post)
                 = Some (txt "\," ++ ws ++ ch "d" :: w ++ w',
                         S (length ws + S (length (w ++ w'))))).
  { unfold thin_hit. change (ch "," =? ch ",")%N with true. cbv iota.
    rewrite drop_while_app by assumption. rewrite take_while_app by assumption.
    cbn [drop_while take_while]. rewrite d_not_space.
    change (ch "d" =? ch "d")%N with true. cbv iota.
    rewrite take_while_app by assumption. fold w'.
    rewrite app_nil_r.
    destruct w as [|e w]; [congruence|]. reflexivity. }
  rewrite (thin_scan_hit _ Hhit).
  assert (Hskip : skipn (S (length ws + S (length (w ++ w'))))
                        (ch "," :: ws ++ ch "d" :: w ++ post) = post').
  { cbn [skipn]. rewrite skipn_app, skipn_all2 by lia.
    replace (length ws + S (length (w ++ w')) - length ws) with (S (length (w ++ w'))) by lia.
    cbn [app skipn]. rewrite <- Hpost, app_assoc.
    rewrite skipn_app, skipn_all, Nat.sub_diag. reflexivity. }
  rewrite Hskip.
  replace (thin_scan post) with (thin_scan (w' ++ post')) by now rewrite Hpost.
  rewrite (thin_scan_word w' post') by apply take_while_all.
  cbn [txt list_ascii_of_string map app]. do 2 f_equal.
  rewrite <- app_assoc. cbn [app]. now rewrite <- app_assoc.
Qed.

(** ** Grouping after a style command *)

Lemma startswith_both (s a b : str) :
  startswith s a = true -> startswith s b = true ->
  startswith a b = true \/ startswith b a = true.
Proof.
  revert s b; induction a as [|x a IH]; intros s b Ha Hb.
  - right. reflexivity.
  - destruct b as [|y b]; [left; reflexivity|].
    destruct s as [|z s]; [discriminate|].
    cbn [startswith] in *. apply andb_true_iff in Ha as [Hx Ha], Hb as [Hy Hb].
    apply N.eqb_eq in Hx, Hy. subst x y. rewrite N.eqb_refl. cbn [andb].
    eapply IH; eassumption.
Qed.

Lemma mt_alts_lit_find (A : Type) (ws : list str) (pre s : str) (caps : list (nat * list N))
      (k : list N * list N -> list (nat * list N) -> option A) :
  exclusive ws = true ->
  Re.mt (Re.alts (map Re.lit ws)) (pre, s) caps k
  = match List.find (startswith s) ws with
    | Some w => k (rev w ++ pre, skipn (length w) s) caps
    | None => None
    end.
Proof.
  induction ws as [|w ws IH]; intros Hex.
  - cbn. now destruct s.
  - cbn [exclusive] in Hex. apply andb_true_iff in Hex as [Hw Hex].
    specialize (IH Hex).
    assert (Hone : Re.mt (Re.alts (map Re.lit (w :: ws))) (pre, s) caps k
                   = Re.orelse (Re.mt (Re.lit w) (pre, s) caps k)
                               (Re.mt (Re.alts (map Re.lit ws)) (pre, s) caps k)).
    { destruct ws as [|w' ws]; [|reflexivity].
      cbn [map Re.alts]. symmetry.
      replace (Re.mt (Re.Cls (fun _ => false)) (pre, s) caps k) with (@None A)
        by (now destruct s).
      apply orelse_none_r. }
    rewrite Hone, mt_lit, IH. cbn [List.find].
    destruct (startswith s w) eqn:Es.
    + destruct (List.find (startswith s) ws) as [w'|] eqn:Ef; [|apply orelse_none_r].
      apply find_some in Ef as [Hin Es'].
      rewrite forallb_forall in Hw. specialize (Hw w' Hin).
      apply andb_true_iff in Hw as [H1 H2].
      apply negb_true_iff in H1, H2.
      destruct (startswith_both _ _ _ Es Es'); congruence.
    + reflexivity.
Qed.

Lemma letter_not_space (c : N) : is_ascii_letter c = true -> is_space c = false.
Proof.
  unfold is_ascii_letter, in_range. intros H.
  assert (Hc : (65 <= c <= 122)%N).
  { apply orb_true_iff in H as [H|H]; apply andb_true_iff in H as [H1 H2];
      apply N.leb_le in H1, H2; lia. }
  unfold is_space, in_range.
  replace (c <=? 13)%N with false by (symmetry; apply N.leb_gt; lia).
  replace (c <=? 32)%N with false by (symmetry; apply N.leb_gt; lia).
  replace (8192 <=? c)%N with false by (symmetry; apply N.leb_gt; lia).
  repeat match goal with
         | |- context [(c =? ?k)%N] =>
             replace (c =? k)%N with false by (symmetry; apply N.eqb_neq; lia)
         end.
  now rewrite !andb_false_r.
Qed.

Lemma hit_style (pre s : str) : Re.hit style_re style_tpl pre s = style_hit s.
Proof.
  unfold Re.hit, Re.match_at, style_re, style_hit, Re.plus. cbn [Re.mt fst snd].
  destruct s as [|c t]; [reflexivity|]. rewrite (N.eqb_sym c).
  destruct (N.eqb_spec (ch "\") c) as [<-|Hc]; [|reflexivity].
  rewrite mt_alts_lit_find by reflexivity.
  destruct (List.find (startswith t) STYLE_NAMES) as [name|] eqn:Ef; [|reflexivity].
  apply find_some in Ef as [_ Hname]. apply startswith_skipn in Hname.
  set (r := skipn (length name) t) in *.
  cbn [Re.mt fst snd]. cbv zeta.
  destruct r as [|x r'] eqn:Er; [reflexivity|]. cbn [take_while drop_while].
  destruct (is_space x) eqn:Ex; [|reflexivity].
  rewrite greedy_star_longest.
  2:{ intros w1 c w2 Hw. cbn [Re.mt fst snd].
      pose proof (@forallb_split _ _ _ _ _ (take_while_all is_space r') Hw) as Hsp.
      destruct (is_ascii_letter c) eqn:El; [|reflexivity].
      apply letter_not_space in El. congruence. }
  cbn [Re.mt fst snd].
  destruct (drop_while is_space r') as [|l r''] eqn:Ed; [reflexivity|].
  destruct (is_ascii_letter l) eqn:El; [|reflexivity].
  cbn [Re.expand style_tpl Re.group Nat.eqb].
  set (ws := take_while is_space r'). f_equal. f_equal.
  - rewrite app_nil_r. cbn [txt list_ascii_of_string map app]. f_equal. f_equal.
    + apply (captured name (ch "\" :: pre)).
    + f_equal. f_equal.
      replace (l :: rev ws ++ x :: rev name ++ ch "\" :: pre)
        with (rev [l] ++ (rev ws ++ x :: rev name ++ ch "\" :: pre)) by reflexivity.
      rewrite (captured [l]). reflexivity.
  - pose proof (take_drop_while is_space r') as Hr. fold ws in Hr. rewrite Ed in Hr.
    apply (f_equal (@length N)) in Hname, Hr. rewrite length_app in Hname, Hr.
    cbn [length] in *. lia.
Qed.

Lemma style_hit_bounds (s out : str) (n : nat) :
  style_hit s = Some (out, n) -> 0 < n <= length s.
Proof.
  unfold style_hit. destruct s as [|c t]; [discriminate|].
  destruct (c =? ch "\")%N; [|discriminate].
  destruct (List.find (startswith t) STYLE_NAMES) as [name|] eqn:Ef; [|discriminate].
  apply find_some in Ef as [_ Hname]. apply startswith_skipn in Hname.
  cbv zeta. set (r := skipn (length name) t) in *.
  pose proof (take_drop_while is_space r) as Hr.
  destruct (take_while is_space r) as [|x ws]; [discriminate|].
  destruct (drop_while is_space r) as [|l r']; [discriminate|].
  destruct (is_ascii_letter l); [|discriminate].
  intros [= <- <-].
  apply (f_equal (@length N)) in Hname, Hr. rewrite length_app in Hname, Hr.
  cbn [length] in *. lia.
Qed.

Lemma style_hit_shape (s out : str) (n : nat) :
  style_hit s = Some (out, n) ->
  exists name l, In name STYLE_NAMES /\ is_ascii_letter l = true
                 /\ out = ch "\" :: name ++ ch "{" :: l :: [ch "}"].
Proof.
  unfold style_hit. destruct s as [|c t]; [discriminate|].
  destruct (c =? ch "\")%N; [|discriminate].
  destruct (List.find (startswith t) STYLE_NAMES) as [name|] eqn:Ef; [|discriminate].
  apply find_some in Ef as [Hin _]. cbv zeta.
  destruct (take_while is_space _) as [|x ws]; [discriminate|].
  destruct (drop_while is_space _) as [|l r']; [discriminate|].
  destruct (is_ascii_letter l) eqn:El; [|discriminate].
  intros [= <- <-]. now exists name, l.
Qed.

Lemma style_hit_head (c : N) (t : str) : c <> ch "\" -> style_hit (c :: t) = None.
Proof. intros H. unfold style_hit. apply N.eqb_neq in H. now rewrite H. Qed.

Lemma startswith_barrier (b : N) (name s x : str) :
  forallb (fun c => negb (c =? b)%N) name = true ->
  startswith (s ++ b :: x) name = startswith s name.
Proof.
  revert s; induction name as [|a name IH]; intros s H; [reflexivity|].
  cbn [forallb] in H. apply andb_true_iff in H as [Ha H].
  destruct s as [|c s]; cbn [app startswith].
  - apply negb_true_iff in Ha. now rewrite Ha.
  - now rewrite IH.
Qed.

Lemma find_ext_in (A : Type) (f g : A -> bool) (l : list A) :
  (forall x, In x l -> f x = g x) -> List.find f l = List.find g l.
Proof.
  induction l as [|x l IH]; intros H; [reflexivity|]. cbn [List.find].
  rewrite (H x) by now left. destruct (g x); [reflexivity|].
  apply IH. intros y Hy. apply H. now right.
Qed.

Lemma style_names_plain :
  forall name, In name STYLE_NAMES ->
               forallb (fun c => negb (c =? ch "\")%N) name = true.
Proof. apply Forall_forall. repeat constructor. Qed.

(** A backslash further on does not change what matches before it. *)
Lemma style_hit_barrier (c : N) (s x : str) :
  style_hit ((c :: s) ++ ch "\" :: x) = style_hit (c :: s).
Proof.
  unfold style_hit. cbn [app].
  destruct (c =? ch "\")%N; [|reflexivity].
  rewrite (@find_ext_in _ (startswith (s ++ ch "\" :: x)) (startswith s)).
  2:{ intros name Hin. apply startswith_barrier, style_names_plain, Hin. }
  destruct (List.find (startswith s) STYLE_NAMES) as [name|] eqn:Ef; [|reflexivity].
  apply find_some in Ef as [_ Hname]. apply startswith_skipn in Hname.
  cbv zeta.
  assert (Hsk : skipn (length name) (s ++ ch "\" :: x)
                = skipn (length name) s ++ ch "\" :: x).
  { rewrite skipn_app.
    replace (length name - length s) with 0; [reflexivity|].
    apply (f_equal (@length N)) in Hname. rewrite length_app in Hname. lia. }
  rewrite Hsk, take_while_barrier, drop_while_barrier by reflexivity.
  destruct (drop_while is_space (skipn (length name) s)) as [|l r']; cbn [app].
  - now destruct (take_while is_space _).
  - reflexivity.
Qed.

Lemma norm_style_scan (s : str) : norm_style s = style_scan s.
Proof. unfold norm_style, Re.sub, style_scan. apply rewrite_ext, hit_style. Qed.

Lemma style_scan_copy (w x : str) :
  forallb (fun c => negb (c =? ch "\")%N) w = true ->
  style_scan (w ++ x) = w ++ style_scan x.
Proof.
  induction w as [|c w IH]; cbn [forallb app]; [reflexivity|].
  intros H. apply andb_true_iff in H as [Hc Hw].
  unfold style_scan in *. rewrite scan_miss.
  - now rewrite IH.
  - apply style_hit_head. apply negb_true_iff, N.eqb_neq in Hc. exact Hc.
Qed.

Lemma style_scan_head (t : str) : exists z, style_scan (ch "\" :: t) = ch "\" :: z.
Proof.
  unfold style_scan. destruct (style_hit (ch "\" :: t)) as [[out n]|] eqn:E.
  - rewrite (@scan_hit style_hit style_hit_bounds _ _ _ E).
    apply style_hit_shape in E as (name & l & _ & _ & ->). cbn [app]. eauto.
  - rewrite scan_miss by exact E. eauto.
Qed.

(** What the scan wrote is not matched again. *)
Lemma style_scan_written (name : str) (l : N) (x : str) :
  In name STYLE_NAMES -> is_ascii_letter l = true ->
  style_scan ((ch "\" :: name ++ ch "{" :: l :: [ch "}"]) ++ x)
  = (ch "\" :: name ++ ch "{" :: l :: [ch "}"]) ++ style_scan x.
Proof.
  intros Hin Hl. cbn [app]. unfold style_scan. rewrite scan_miss.
  - f_equal. fold (style_scan ((name ++ ch "{" :: l :: [ch "}"]) ++ x)).
    rewrite style_scan_copy; [reflexivity|].
    rewrite forallb_app, (style_names_plain Hin). cbn [forallb andb].
    replace (l =? ch "\")%N with false; [reflexivity|].
    symmetry. apply N.eqb_neq. intros ->. discriminate.
  - rewrite <- app_assoc. cbn [app]. 
    cbn in Hin. decompose [or] Hin; subst; try contradiction; reflexivity.
Qed.

Lemma style_hit_stable (t : str) :
  style_hit (ch "\" :: t) = None -> style_hit (ch "\" :: style_scan t) = None.
Proof.
  intros H. pose proof (take_drop_while (fun c => negb (c =? ch "\")%N) t) as Ht.
  pose proof (take_while_all (fun c => negb (c =? ch "\")%N) t) as Hu.
  remember (take_while (fun c => negb (c =? ch "\")%N) t) as u eqn:Eu. clear Eu.
  destruct (drop_while (fun c => negb (c =? ch "\")%N) t) as [|b v] eqn:Ev.
  - rewrite app_nil_r in Ht. subst t.
    rewrite <- (app_nil_r u) at 1. rewrite style_scan_copy by exact Hu.
    unfold style_scan. rewrite (@scan_nil style_hit style_hit_bounds), app_nil_r.
    exact H.
  - assert (Hb : b = ch "\").
    { clear -Ev. induction t as [|c t IH]; [discriminate|].
      cbn [drop_while] in Ev. destruct (N.eqb_spec c (ch "\")) as [->|];
        cbn [negb] in Ev; [congruence | auto]. }
    subst b. rewrite <- Ht. rewrite style_scan_copy by exact Hu.
    destruct (style_scan_head v) as [z ->].
    change (ch "\" :: u ++ ch "\" :: z) with ((ch "\" :: u) ++ ch "\" :: z).
    rewrite style_hit_barrier. rewrite <- (style_hit_barrier (ch "\") u v).
    cbn [app]. now rewrite Ht.
Qed.

Lemma style_scan_idempotent (t : str) : style_scan (style_scan t) = style_scan t.
Proof.
  remember (length t) as n eqn:Hn. revert t Hn.
  induction n as [n IH] using lt_wf_ind. intros t Hn.
  destruct t as [|c t].
  { unfold style_scan. now rewrite !(@scan_nil style_hit style_hit_bounds). }
  destruct (style_hit (c :: t)) as [[out m]|] eqn:E.
  - pose proof (style_hit_bounds _ E) as Hm.
    unfold style_scan at 2 3. rewrite (@scan_hit style_hit style_hit_bounds _ _ _ E).
    fold (style_scan (skipn m (c :: t))).
    destruct (style_hit_shape _ E) as (name & l & Hin & Hl & ->).
    rewrite style_scan_written by assumption. f_equal.
    apply (IH (length (skipn m (c :: t)))); [|reflexivity].
    rewrite length_skipn. subst n. lia.
  - unfold style_scan at 2 3. rewrite scan_miss by exact E. fold (style_scan t).
    assert (Hrec : style_scan (style_scan t) = style_scan t).
    { apply (IH (length t)); [subst n; cbn [length]; lia | reflexivity]. }
    unfold style_scan at 1. rewrite scan_miss.
    + fold (style_scan (style_scan t)). now rewrite Hrec.
    + destruct (N.eqb_spec c (ch "\")) as [->|Hc].
      * now apply style_hit_stable.
      * now apply style_hit_head.
Qed.

(** C2 as amended.  Of the four rewrites, grouping after a style command
    (step 1) and hash escaping (step 4) give the same text when they are
    run again on their own result; the thin space (step 2) and the
    semicolon collapse (step 3) do not. *)
Theorem style_and_hash_steps_idempotent :
  (forall text, norm_style (norm_style text) = norm_style text)
  /\ (forall text, norm_hash (norm_hash text) = norm_hash text)
  /\ norm_thin_space (norm_thin_space (txt ",dt")) <> norm_thin_space (txt ",dt")
  /\ norm_relations (norm_relations (txt ";;\sim;;")) <> norm_relations (txt ";;\sim;;").
Proof.
  split; [|split; [|split]].
  - intros text. rewrite !norm_style_scan. apply style_scan_idempotent.
  - intros text. rewrite !norm_hash_scan. apply escape_scan_idempotent.
  - vm_compute. discriminate.
  - vm_compute. discriminate.
Qed.

(** ** Lines and the last pass *)

Lemma split_lines_not_nil (s : str) : split_lines s <> [].
Proof.
  destruct s as [|c s]; cbn [split_lines]; [discriminate|].
  destruct (c =? nl)%N; [discriminate|]. now destruct (split_lines s).
Qed.

Lemma join_split (s : str) : join_lines (split_lines s) = s.
Proof.
  induction s as [|c s IH]; [reflexivity|]. cbn [split_lines].
  pose proof (split_lines_not_nil s) as Hne.
  destruct (split_lines s) as [|l ls]; [congruence|].
  destruct (N.eqb_spec c nl) as [->|Hc].
  - change (join_lines ([] :: l :: ls)) with ([] ++ nl :: join_lines (l :: ls)).
    now rewrite IH.
  - rewrite <- IH. now destruct ls.
Qed.

Lemma drop_while_nil (p : N -> bool) (s : str) :
  drop_while p s = [] -> forallb p s = true.
Proof.
  induction s as [|c s IH]; [reflexivity|]. cbn [drop_while forallb].
  destruct (p c); [exact IH | discriminate].
Qed.

Lemma drop_while_all (p : N -> bool) (s : str) :
  forallb p s = true -> drop_while p s = [].
Proof.
  induction s as [|c s IH]; [reflexivity|]. cbn [drop_while forallb].
  destruct (p c); [exact IH | discriminate].
Qed.

Lemma forallb_rev (p : N -> bool) (s : str) : forallb p (rev s) = forallb p s.
Proof.
  induction s as [|c s IH]; [reflexivity|]. cbn [rev forallb].
  rewrite forallb_app, IH. cbn [forallb]. rewrite andb_true_r. apply andb_comm.
Qed.

Lemma rstrip_nil_strip (s : str) : rstrip s = [] -> strip s = [].
Proof.
  unfold rstrip, strip, lstrip. intros H.
  assert (Hall : forallb is_space s = true).
  { rewrite <- forallb_rev. apply drop_while_nil.
    rewrite <- (rev_involutive (drop_while is_space (rev s))), H. reflexivity. }
  now rewrite (drop_while_all _ _ Hall).
Qed.

Lemma clean_lines_not_empty (lines : list str) :
  forallb (fun l => negb (is_empty l)) (clean_display_lines lines) = true.
Proof.
  induction lines as [|line lines IH]; [reflexivity|]. cbn [clean_display_lines].
  destruct (is_pure_separator line); [exact IH|]. cbv zeta.
  match goal with |- context [strip ?x] => set (cleaned := x) end.
  destruct (strip cleaned) as [|c s] eqn:E; [exact IH|].
  cbn [forallb]. rewrite IH, andb_true_r.
  destruct (rstrip cleaned) eqn:Er; [|reflexivity].
  apply rstrip_nil_strip in Er. congruence.
Qed.

Lemma collapse_not_empty (body rest : list str) (prev : bool) :
  body <> [] ->
  forallb (fun l => negb (is_empty l)) body = true ->
  collapse_blank (body ++ rest) prev = body ++ collapse_blank rest false.
Proof.
  intros Hne Hall. revert prev; induction body as [|l body IH]; intros prev; [congruence|].
  cbn [forallb] in Hall. apply andb_true_iff in Hall as [Hl Hall].
  cbn [app collapse_blank]. destruct l as [|c l]; [discriminate|].
  f_equal. destruct body as [|l' body]; [reflexivity|].
  apply IH; [discriminate | exact Hall].
Qed.

Lemma collapse_cons (line : str) (rest : list str) (prev : bool) :
  prev && is_empty line = false ->
  collapse_blank (line :: rest) prev = line :: collapse_blank rest (is_empty line).
Proof.
  cbn [collapse_blank]. destruct line as [|c l]; [|reflexivity].
  destruct prev; [discriminate | reflexivity].
Qed.

Lemma collapse_skip (rest : list str) :
  collapse_blank ([] :: rest) true = collapse_blank rest true.
Proof. reflexivity. Qed.

(** ** Lines that the inline path leaves as they are *)

Lemma escape_scan_fixed (prev : option N) (s : str) :
  has_unescaped_hash prev s = false -> escape_scan prev s = s.
Proof.
  revert prev; induction s as [|c s IH]; intros prev; [reflexivity|].
  cbn [has_unescaped_hash escape_scan]. intros H.
  apply orb_false_iff in H as [H1 H2]. rewrite H1. now rewrite IH.
Qed.

Lemma skipn_nth (line : str) (i : nat) (c : N) :
  nth_error line i = Some c -> skipn i line = c :: skipn (S i) line.
Proof.
  intros H. destruct (nth_error_split _ _ H) as (l1 & l2 & -> & <-).
  rewrite <- (Nat.add_0_r (length l1)) at 1. rewrite skipn_shift.
  replace (S (length l1)) with (length l1 + 1) by lia. now rewrite skipn_shift.
Qed.

Lemma slice_skipn (line : str) (i j : nat) :
  i <= j -> slice line i j ++ skipn j line = skipn i line.
Proof.
  intros H. unfold slice. replace j with ((j - i) + i) at 2 by lia.
  rewrite <- skipn_skipn. apply firstn_skipn.
Qed.

Lemma converts_loop_fixed (line : str) (fuel i : nat) (result : str) :
  converts_loop fuel line i = false ->
  length line - i <= fuel ->
  convert_loop fuel line i result = result ++ skipn i line.
Proof.
  revert i result; induction fuel as [|fuel IH]; intros i result Hc Hfuel.
  - cbn [convert_loop]. rewrite skipn_all2 by lia. now rewrite app_nil_r.
  - cbn [convert_loop converts_loop] in *.
    destruct (nth_error line i) as [c|] eqn:Hn.
    2:{ apply nth_error_None in Hn. rewrite skipn_all2 by lia. now rewrite app_nil_r. }
    assert (Hi : i < length line) by (apply nth_error_Some; congruence).
    assert (Hlit : converts_loop fuel line (S i) = false ->
                   convert_loop fuel line (S i) (result ++ [c]) = result ++ skipn i line).
    { intros H. rewrite IH by (assumption || lia).
      rewrite (skipn_nth _ _ Hn), <- app_assoc. reflexivity. }
    assert (Hparen :
      (if (c =? ch "(")%N
       then match extract_paren_content line i with
            | Some (content, _) =>
                if is_math content then true else converts_loop fuel line (S i)
            | None => converts_loop fuel line (S i)
            end
       else converts_loop fuel line (S i)) = false ->
      (if (c =? ch "(")%N
       then match extract_paren_content line i with
            | Some (content, e) =>
                if is_math content
                then convert_loop fuel line (S e)
                       (result ++ ch "$" :: normalize_math content ++ [ch "$"])
                else convert_loop fuel line (S i) (result ++ [c])
            | None => convert_loop fuel line (S i) (result ++ [c])
            end
       else convert_loop fuel line (S i) (result ++ [c])) = result ++ skipn i line).
    { destruct (c =? ch "(")%N; [|exact Hlit].
      destruct (extract_paren_content line i) as [[content e]|]; [|exact Hlit].
      destruct (is_math content); [discriminate | exact Hlit]. }
    destruct (c =? ch "$")%N; [|exact (Hparen Hc)].
    destruct (str_eqb (slice line i (i + 2)) (txt "$$")).
    + destruct (find (txt "$$") line (i + 2)) as [e|] eqn:He; [|exact (Hparen Hc)].
      apply find_bounds in He. rewrite IH by (assumption || lia).
      rewrite <- app_assoc, slice_skipn by lia. reflexivity.
    + destruct (find (txt "$") line (i + 1)) as [e|] eqn:He; [|exact (Hparen Hc)].
      apply find_bounds in He. rewrite IH by (assumption || lia).
      rewrite <- app_assoc, slice_skipn by lia. reflexivity.
Qed.

(** The scanner returns a line with no convertible span as it is. *)
Lemma not_convertible_fixed (line : str) :
  convertible line = false -> convert_inline_parens line = line.
Proof.
  intros H. unfold convert_inline_parens.
  rewrite converts_loop_fixed by (exact H || lia). reflexivity.
Qed.

Lemma ordinary_line (line : str) (rest : list str) :
  ordinary line = true -> fix_run (line :: rest) false = line :: fix_run rest false.
Proof.
  unfold ordinary. rewrite !andb_true_iff, !negb_true_iff.
  intros [[[[[Hf Hi] Hb] Hd] Hh] Hp].
  rewrite fix_run_unfold, Hf, Hi, Hb, Hd. f_equal.
  rewrite escape_hash_scan, (escape_scan_fixed _ _ Hh).
  apply not_convertible_fixed, Hp.
Qed.

Lemma fence_not_empty (line : str) :
  startswith (strip line) (txt "```") = true -> is_empty line = false.
Proof. now destruct line. Qed.

(** ** Converted documents are fixed points *)

Lemma display_block_not_nil (body : list str) :
  body <> [] -> display_block body = [] :: txt "$$" :: body ++ [txt "$$"; []].
Proof. now destruct body. Qed.

Lemma converted_collapse (prev flag : bool) (lines : list str) :
  converted prev flag lines -> collapse_blank (fix_run lines flag) prev = lines.
Proof.
  intros H. induction H as
      [prev flag
      | prev flag line rest Hf _ IH
      | prev line rest Hf Hp _ IH
      | prev line rest Ho Hp _ IH
      | body rest Hne Hclean Hterm _ IH].
  - reflexivity.
  - rewrite fix_run_unfold, Hf.
    rewrite collapse_cons by (rewrite (fence_not_empty _ Hf); apply andb_false_r).
    now rewrite (fence_not_empty _ Hf), IH.
  - rewrite fix_run_unfold, Hf. now rewrite collapse_cons, IH.
  - rewrite ordinary_line by exact Ho. now rewrite collapse_cons, IH.
  - assert (Hbody : Forall (fun l => strip l <> txt "$$") body).
    { apply Forall_forall. intros l Hl. rewrite forallb_forall in Hterm.
      specialize (Hterm l Hl). now apply negb_true_iff, str_eqb_neq in Hterm. }
    assert (Hd : strip (txt "$$") = txt "$$") by reflexivity.
    destruct (dollars_line_plain _ Hd) as (H1 & H2 & H3 & H4).
    rewrite fix_run_unfold, H1, H2, H3, H4.
    rewrite (interior_closed _ _ Hbody Hd), Hclean.
    replace (S (length body)) with (length body + 1) by lia.
    rewrite skipn_shift. cbn [skipn].
    rewrite (@ordinary_line [] rest) by reflexivity.
    rewrite display_block_not_nil by exact Hne.
    cbn [app]. rewrite collapse_skip.
    rewrite (collapse_cons (txt "$$")) by reflexivity. f_equal.
    change (is_empty (txt "$$")) with false.
    rewrite <- app_assoc, collapse_not_empty;
      [|exact Hne | rewrite <- Hclean; apply clean_lines_not_empty].
    f_equal. cbn [app].
    rewrite (collapse_cons (txt "$$")) by reflexivity. f_equal.
    change (is_empty (txt "$$")) with false.
    rewrite (collapse_cons []) by reflexivity. f_equal.
    change (is_empty []) with true. now rewrite collapse_skip, IH.
Qed.

(** C7 as amended.  A document in converted form is returned unchanged:
    outside code fences every line is ordinary (no remote image, no lone
    opening bracket, hashes escaped, no convertible math in parentheses) or
    belongs to a display block whose fences are the two dollars alone, with
    an empty line before and after and an interior the display cleaner
    leaves as it is, and no empty line follows an empty line. *)
Theorem converted_document_fixed_point (content : str) :
  converted false false (split_lines content) ->
  fix_content content = content.
Proof.
  intros H. unfold fix_content. cbv zeta.
  change (fix_lines (split_lines content)) with (fix_run (split_lines content) false).
  rewrite (converted_collapse H). apply join_split.
Qed.

(** ** The vocabulary of the classifier *)

Lemma incl_by_test (l names : list str) :
  forallb (fun n => existsb (str_eqb n) names) l = true -> incl l names.
Proof.
  intros H n Hn. rewrite forallb_forall in H. specialize (H n Hn).
  apply existsb_exists in H as (m & Hm & He). apply str_eqb_eq in He. now subst.
Qed.

Lemma in_by_test (name : str) (names : list str) :
  existsb (str_eqb name) names = true <-> In name names.
Proof.
  rewrite existsb_exists. split.
  - intros (m & Hm & He). apply str_eqb_eq in He. now subst.
  - intros H. exists name. split; [exact H | apply str_eqb_refl].
Qed.

Lemma not_in_by_test (name : str) (names : list str) :
  negb (existsb (str_eqb name) names) = true <-> ~ In name names.
Proof.
  rewrite negb_true_iff, <- in_by_test. now destruct (existsb (str_eqb name) names).
Qed.

(** C6 as amended.  The classifier answers yes exactly on the texts that
    hold a backslash with a name of the vocabulary right after it, whatever
    comes next, and the match is case sensitive.  Every name of the
    vocabulary is a Greek letter name in lower or in upper case, an
    operator, a function or a structural command, and all the operators,
    functions and structural commands listed are in it; of the forty-eight
    Greek letter names it holds all but four: omicron in either case and
    the capitals Iota and Kappa are not in it, and a backslash followed by
    one of these four is not math. *)
Theorem is_math_iff_known_command :
  (forall text,
      is_math text = true <->
      exists pre name post,
        In name LATEX_NAMES /\ text = pre ++ ch "\" :: name ++ post)
  /\ incl LATEX_NAMES
          (GREEK_LOWER ++ GREEK_UPPER ++ OPERATORS ++ FUNCTIONS ++ STRUCTURAL)
  /\ incl (OPERATORS ++ FUNCTIONS ++ STRUCTURAL) LATEX_NAMES
  /\ (forall name,
        In name (GREEK_LOWER ++ GREEK_UPPER) ->
        (In name LATEX_NAMES <-> ~ In name GREEK_UNLISTED)
        /\ (is_math (ch "\" :: name) = true <-> ~ In name GREEK_UNLISTED))
  /\ incl GREEK_UNLISTED (GREEK_LOWER ++ GREEK_UPPER)
  /\ is_math (txt "\alphabet") = true
  /\ is_math (txt "\ALPHA") = false
  /\ is_math (txt "alpha") = false.
Proof.
  split; [exact is_math_spec|].
  split; [apply incl_by_test; vm_compute; reflexivity|].
  split; [apply incl_by_test; vm_compute; reflexivity|].
  split.
  - assert (H : forallb
                  (fun name =>
                     Bool.eqb (existsb (str_eqb name) LATEX_NAMES)
                              (negb (existsb (str_eqb name) GREEK_UNLISTED))
                     && Bool.eqb (is_math (ch "\" :: name))
                                 (negb (existsb (str_eqb name) GREEK_UNLISTED)))
                  (GREEK_LOWER ++ GREEK_UPPER) = true)
      by (vm_compute; reflexivity).
    rewrite forallb_forall in H. intros name Hin. specialize (H name Hin).
    apply andb_true_iff in H as [H1 H2]. apply eqb_prop in H1, H2.
    split.
    + rewrite <- not_in_by_test, <- H1. symmetry. apply in_by_test.
    + rewrite <- not_in_by_test, <- H2. reflexivity.
  - split; [apply incl_by_test; vm_compute; reflexivity|].
    repeat split; vm_compute; reflexivity.
Qed.

(** ** Remote images *)

Lemma image_needs_bang (line : str) :
  startswith (strip line) (txt "![") = false -> is_remote_image line = false.
Proof.
  intros H. unfold is_remote_image, Re.re_match, Re.match_at, image_re.
  cbn [Re.mt]. now rewrite mt_lit, H.
Qed.

Lemma orelse_first (A : Type) (x y : option A) : x <> None -> Re.orelse x y <> None.
Proof. now destruct x. Qed.

Lemma is_some_orelse (A : Type) (x y : option A) :
  is_some (Re.orelse x y) = is_some x || is_some y.
Proof. now destruct x. Qed.

Lemma is_some_true (A : Type) (x : option A) : is_some x = true <-> x <> None.
Proof. destruct x; cbn; split; congruence. Qed.

Lemma startswith_app_split (s a b : str) :
  startswith s (a ++ b) = startswith s a && startswith (skipn (length a) s) b.
Proof.
  revert s; induction a as [|x a IH]; intros s; [reflexivity|].
  destruct s as [|y s]; cbn [app startswith length skipn]; [reflexivity|].
  now rewrite IH, andb_assoc.
Qed.

Lemma lazy_star_some (A : Type) (p : N -> bool) (k : list N * list N -> option A)
      (pre s : str) :
  Re.lazy_star p k pre s <> None <->
  exists w r, s = w ++ r /\ forallb p w = true /\ k (rev w ++ pre, r) <> None.
Proof.
  revert pre; induction s as [|c s IH]; intros pre; cbn [Re.lazy_star].
  - rewrite orelse_none_r. split.
    + intros H. now exists [], [].
    + intros (w & r & Hs & _ & Hk). symmetry in Hs. apply app_eq_nil in Hs as [-> ->].
      exact Hk.
  - split.
    + intros H. destruct (k (pre, c :: s)) eqn:Ek.
      * exists [], (c :: s). repeat split. cbn [rev app]. congruence.
      * cbn [Re.orelse] in H. destruct (p c) eqn:Ep; [|congruence].
        apply IH in H as (w & r & -> & Hw & Hk). exists (c :: w), r.
        cbn [forallb rev]. rewrite Ep, Hw, <- app_assoc. now repeat split.
    + intros (w & r & Hs & Hw & Hk). destruct w as [|d w].
      * cbn [app rev] in *. subst r. now apply orelse_first.
      * cbn [app] in Hs. injection Hs as <- ->. cbn [forallb] in Hw.
        apply andb_true_iff in Hw as [Hc Hw]. rewrite Hc.
        destruct (k (pre, c :: w ++ r)); [discriminate|]. cbn [Re.orelse].
        apply IH. exists w, r. repeat split; [exact Hw|].
        cbn [rev] in Hk. now rewrite <- app_assoc in Hk.
Qed.

Lemma mt_cat (A : Type) (r1 r2 : Re.regex) (cur : list N * list N)
      (caps : list (nat * list N)) (k : list N * list N -> list (nat * list N) -> option A) :
  Re.mt (Re.Cat r1 r2) cur caps k
  = Re.mt r1 cur caps (fun cur' caps' => Re.mt r2 cur' caps' k).
Proof. reflexivity. Qed.

Lemma mt_lazy (A : Type) (p : N -> bool) (pre s : str)
      (caps : list (nat * list N)) (k : list N * list N -> list (nat * list N) -> option A) :
  Re.mt (Re.Lazy p) (pre, s) caps k = Re.lazy_star p (fun cur' => k cur' caps) pre s.
Proof. reflexivity. Qed.

Lemma http_target (pre r : str) :
  is_some (Re.mt (Re.Cat (Re.lit (txt "](http"))
                         (Re.Cat (Re.opt (Re.Chr (ch "s"))) (Re.lit (txt "://"))))
                 (pre, r) [] (fun cur caps => Some (caps, cur)))
  = startswith r (txt "](http://") || startswith r (txt "](https://").
Proof.
  change (txt "](http://") with (txt "](http" ++ txt "://").
  change (txt "](https://") with (txt "](http" ++ ch "s" :: txt "://").
  rewrite !startswith_app_split. cbn [Re.mt]. rewrite mt_lit.
  destruct (startswith r (txt "](http")); [|reflexivity]. cbn [andb].
  set (r2 := skipn (length (txt "](http")) r). clearbody r2.
  unfold Re.opt. cbn [Re.mt fst snd]. rewrite is_some_orelse, orb_comm. f_equal.
  - rewrite mt_lit. now destruct (startswith r2 (txt "://")).
  - destruct r2 as [|c r2]; [reflexivity|]. rewrite mt_lit.
    change (startswith (c :: r2) (ch "s" :: txt "://"))
      with ((ch "s" =? c)%N && startswith r2 (txt "://")).
    destruct (ch "s" =? c)%N; [|reflexivity].
    now destruct (startswith r2 (txt "://")).
Qed.

(** A line is taken for a remote image exactly when its trimmed content is
    [![], any text without a newline, and [](http://] or [](https://]; the
    text in between may itself hold brackets and parentheses. *)
Lemma is_remote_image_spec (line : str) :
  is_remote_image line = true <->
  exists alt rest,
    forallb is_dot alt = true
    /\ (strip line = txt "![" ++ alt ++ txt "](http://" ++ rest
        \/ strip line = txt "![" ++ alt ++ txt "](https://" ++ rest).
Proof.
  unfold is_remote_image, Re.re_match, Re.match_at, image_re.
  set (s := strip line). clearbody s. rewrite mt_cat, mt_lit.
  match goal with
  | |- (match ?x with Some _ => true | None => false end) = true <-> ?R =>
      change (is_some x = true <-> R)
  end.
  destruct (startswith s (txt "![")) eqn:E0.
  2:{ split; [discriminate|].
      intros (alt & rest & _ & [H|H]); rewrite H in E0; discriminate. }
  pose proof (startswith_skipn _ _ E0) as Hs.
  set (t := skipn (length (txt "![")) s) in *. clearbody t.
  rewrite mt_cat, mt_lazy, is_some_true, lazy_star_some. split.
  - intros (w & r & -> & Hw & Hm). apply is_some_true in Hm.
    rewrite http_target in Hm. exists w.
    apply orb_true_iff in Hm as [Hm|Hm]; apply startswith_spec in Hm as [rest ->];
      exists rest; (split; [exact Hw|]); rewrite Hs; [left | right]; reflexivity.
  - intros (alt & rest & Hw & H). exists alt.
    destruct H as [H|H]; rewrite Hs in H; apply app_inv_head in H; subst t;
      eexists; (split; [reflexivity|]); (split; [exact Hw|]);
      apply is_some_true; rewrite http_target; apply orb_true_iff;
      [left | right]; apply startswith_app.
Qed.

(** C10, the failing input.  A line that starts with an image on a local
    path and holds a link to a web address further on is taken for a remote
    image, and the whole line is dropped. *)
Theorem local_image_line_dropped :
  is_remote_image (txt "![a](local.png) [link](http://x)") = true
  /\ fix_content (txt "![a](local.png) [link](http://x)") = [].
Proof. split; vm_compute; reflexivity. Qed.

(** ** Examples, for every table of [\w] *)

Lemma steps_twice_on_comma_dt :
  norm_steps (txt ",dt") = txt "\,dt"
  /\ norm_steps (norm_steps (txt ",dt")) = txt "\\,dt"
  /\ normalize_math (txt ",dt") = txt "\,dt"
  /\ normalize_math (normalize_math (txt ",dt")) = txt "\\,dt".
Proof. repeat split; vm_compute; reflexivity. Qed.

Lemma blank_lines_in_code_fence :
  fix_content (txt "```" ++ nl :: nl :: nl :: txt "```")
  = txt "```" ++ nl :: nl :: txt "```".
Proof. vm_compute. reflexivity. Qed.

Lemma display_block_between_text :
  fix_content
    (txt "a" ++ nl :: txt "$$" ++ nl :: txt "x" ++ nl :: txt "$$" ++ nl :: txt "b")
  = txt "a" ++ nl :: nl :: txt "$$" ++ nl :: txt "x" ++ nl :: txt "$$" ++ nl :: nl :: txt "b".
Proof. vm_compute. reflexivity. Qed.

Lemma own_output_dropped :
  fix_content (txt "![ (\alpha ]$$(http://x))") = txt "![ $\alpha ](http://x)$"
  /\ fix_content (txt "![ $\alpha ](http://x)$") = [].
Proof. split; vm_compute; reflexivity. Qed.

Lemma rest_after_open_paren :
  convert_inline_parens (txt "( (\alpha)") = txt "( $\alpha$".
Proof. vm_compute. reflexivity. Qed.

Lemma bracket_block_document :
  fix_content (txt "[" ++ nl :: txt "x = y" ++ nl :: txt "]")
  = nl :: txt "$$" ++ nl :: txt "x = y" ++ nl :: txt "$$" ++ [nl]
  /\ fix_content (txt "[" ++ nl :: txt "----------" ++ nl :: txt "]") = [].
Proof. split; vm_compute; reflexivity. Qed.

(** * Further properties *)

(** ** The parenthesis extractor, exactly *)

Lemma paren_loop_closed (s : str) (start : nat) (rest : str) (i : nat) (depth : Z)
      (content : str) (e : nat) :
  (1 <= depth)%Z ->
  paren_loop s start rest i depth = Some (content, e) ->
  exists w tail,
    rest = w ++ ch ")" :: tail /\ e = i + length w
    /\ (forall k, k <= length w -> (1 <= depth + nesting (firstn k w))%Z)
    /\ (depth + nesting w = 1)%Z.
Proof.
  revert i depth; induction rest as [|c rest IH]; intros i depth Hd; cbn [paren_loop];
    [discriminate|].
  assert (Hcons : forall d w tail,
             d = (depth + nesting [c])%Z ->
             rest = w ++ ch ")" :: tail /\ e = S i + length w
             /\ (forall k, k <= length w -> (1 <= d + nesting (firstn k w))%Z)
             /\ (d + nesting w = 1)%Z ->
             c :: rest = (c :: w) ++ ch ")" :: tail /\ e = i + length (c :: w)
             /\ (forall k, k <= length (c :: w) ->
                           (1 <= depth + nesting (firstn k (c :: w)))%Z)
             /\ (depth + nesting (c :: w) = 1)%Z).
  { intros d w tail -> (-> & -> & Hpre & Htot). cbn [app length]. repeat split.
    - lia.
    - intros [|k] Hk; cbn [firstn nesting]; [lia|].
      specialize (Hpre k ltac:(lia)). cbn [nesting] in Hpre. lia.
    - cbn [nesting] in Htot |- *. lia. }
  assert (Hc : nesting [c]
               = ((if (c =? ch "(")%N then 1 else if (c =? ch ")")%N then -1 else 0) + 0)%Z)
    by reflexivity.
  destruct (c =? ch "(")%N eqn:Eo.
  - intros H. apply IH in H as (w & tail & H); [|lia].
    exists (c :: w), tail. apply (Hcons (depth + 1)%Z); [lia | exact H].
  - destruct (c =? ch ")")%N eqn:Ec.
    + destruct (depth - 1 =? 0)%Z eqn:E0.
      * intros [= <- <-]. apply N.eqb_eq in Ec. subst c. exists [], rest.
        cbn [app length nesting]. repeat split; try lia.
        intros k Hk. replace k with 0 by lia. cbn [firstn nesting]. lia.
      * intros H. apply Z.eqb_neq in E0. apply IH in H as (w & tail & H); [|lia].
        exists (c :: w), tail. apply (Hcons (depth - 1)%Z); [lia | exact H].
    + intros H. apply IH in H as (w & tail & H); [|lia].
      exists (c :: w), tail. apply (Hcons depth); [lia | exact H].
Qed.

Lemma extract_closed (s : str) (start : nat) (content : str) (e : nat) :
  extract_paren_content s start = Some (content, e) ->
  exists pre tail,
    s = pre ++ ch "(" :: content ++ ch ")" :: tail
    /\ length pre = start
    /\ e = start + S (length content)
    /\ balanced content = true.
Proof.
  intros H. pose proof (extract_bounds _ _ H) as [Hc _]. revert H.
  unfold extract_paren_content.
  destruct (nth_error s start) as [c|] eqn:En; [|discriminate].
  destruct (N.eqb_spec c (ch "(")) as [->|]; [|discriminate]. cbn [negb].
  apply nth_error_split in En as (pre & r & Hs & Hlen).
  rewrite Hs at 2. rewrite <- Hlen, skipn_app, skipn_all, Nat.sub_diag.
  cbn [app skipn paren_loop]. change (ch "(" =? ch "(")%N with true.
  intros H. apply paren_loop_closed in H as (w & tail & -> & -> & Hpre & Htot); [|lia].
  assert (Hw : content = w).
  { rewrite Hc, Hs. unfold slice. rewrite <- Hlen.
    replace (length pre + 1) with (length pre + 1 + 0) by lia.
    replace (pre ++ ch "(" :: w ++ ch ")" :: tail)
      with ((pre ++ [ch "("]) ++ w ++ ch ")" :: tail)
      by (rewrite <- app_assoc; reflexivity).
    replace (length pre + 1 + 0) with (length (pre ++ [ch "("]) + 0)
      by (rewrite length_app; cbn [length]; lia).
    rewrite skipn_shift. cbn [skipn].
    replace (S (length pre) + length w - (length (pre ++ [ch "("]) + 0))
      with (length w) by (rewrite length_app; cbn [length]; lia).
    rewrite firstn_app, firstn_all, Nat.sub_diag. cbn [firstn]. apply app_nil_r. }
  subst w. exists pre, tail. repeat split; [exact Hs | lia |].
  unfold balanced. apply andb_true_iff. split.
  - apply forallb_seq. intros k Hk. apply Z.leb_le.
    specialize (Hpre k ltac:(lia)). lia.
  - apply Z.eqb_eq. lia.
Qed.

(** X1.  [extract_paren_content s start] succeeds exactly when [s] has an
    opening parenthesis at index [start] followed by a text whose parentheses
    match and a closing parenthesis: the content returned is that text and
    the index returned is that of the closing parenthesis.  In every other
    case (index out of range, another character at it, a parenthesis that is
    never closed) the result is the failure pair. *)
Theorem extract_paren_content_spec (s : str) (start : nat) (content : str) (e : nat) :
  extract_paren_content s start = Some (content, e) <->
  exists pre tail,
    s = pre ++ ch "(" :: content ++ ch ")" :: tail
    /\ length pre = start
    /\ e = start + S (length content)
    /\ balanced content = true.
Proof.
  split; [apply extract_closed|].
  intros (pre & tail & -> & <- & -> & Hb).
  replace (length pre) with (length pre + 0) at 1 by lia.
  rewrite extract_shift, (extract_balanced _ _ Hb). cbn [shift_span]. reflexivity.
Qed.

(** ** Spans inside a line *)

Lemma convert_literal (c : N) (rest : str) :
  (c =? ch "$")%N = false -> (c =? ch "(")%N = false ->
  convert_inline_parens (c :: rest) = c :: convert_inline_parens rest.
Proof. intros H1 H2. rewrite convert_unfold. cbv zeta. now rewrite H1, H2. Qed.

Lemma convert_prose (pre rest : str) :
  forallb (fun c => negb (c =? ch "$")%N && negb (c =? ch "(")%N) pre = true ->
  convert_inline_parens (pre ++ rest) = pre ++ convert_inline_parens rest.
Proof.
  induction pre as [|c pre IH]; cbn [forallb app]; [reflexivity|].
  intros H. apply andb_true_iff in H as [Hc H]. apply andb_true_iff in Hc as [H1 H2].
  apply negb_true_iff in H1, H2. rewrite convert_literal by assumption.
  now rewrite IH.
Qed.

Lemma convert_span (content rest : str) :
  balanced content = true ->
  is_math content = true ->
  convert_inline_parens (ch "(" :: content ++ ch ")" :: rest)
  = ch "$" :: normalize_math content ++ ch "$" :: convert_inline_parens rest.
Proof.
  intros Hb Hm. rewrite convert_unfold. cbv zeta.
  change (ch "(" =? ch "$")%N with false. change (ch "(" =? ch "(")%N with true. cbv iota.
  rewrite (extract_balanced _ _ Hb), Hm.
  replace (skipn (S (S (length content))) (ch "(" :: content ++ ch ")" :: rest)) with rest.
  - cbn [app]. now rewrite <- app_assoc.
  - rewrite skipn_cons. replace (S (length content)) with (length content + 1) by lia.
    now rewrite skipn_shift.
Qed.

Lemma nesting_app (a b : str) : nesting (a ++ b) = (nesting a + nesting b)%Z.
Proof. induction a as [|c a IH]; cbn [app nesting]; [reflexivity | rewrite IH; lia]. Qed.

Lemma balanced_prefix (a b : str) : balanced (a ++ b) = true -> (0 <= nesting a)%Z.
Proof.
  unfold balanced. rewrite andb_true_iff, forallb_seq. intros [H _].
  specialize (H (length a)). rewrite length_app in H. specialize (H ltac:(lia)).
  apply Z.leb_le in H. now rewrite firstn_app, firstn_all, Nat.sub_diag, app_nil_r in H.
Qed.

Lemma balanced_total (w : str) : balanced w = true -> nesting w = 0%Z.
Proof. unfold balanced. rewrite andb_true_iff, Z.eqb_eq. tauto. Qed.

(** Inside a span whose parentheses match, every span the scanner comes to
    lies within it. *)
Lemma convert_inside (v u rest : str) :
  balanced (v ++ u) = true ->
  is_math (v ++ u) = false ->
  forallb not_dollar u = true ->
  convert_inline_parens (u ++ ch ")" :: rest) = u ++ convert_inline_parens (ch ")" :: rest).
Proof.
  revert v; induction u as [|c u IH]; intros v Hb Hm Hd; [reflexivity|].
  cbn [forallb] in Hd. apply andb_true_iff in Hd as [Hc Hd]. apply negb_true_iff in Hc.
  assert (Hrest : convert_inline_parens (u ++ ch ")" :: rest)
                  = u ++ convert_inline_parens (ch ")" :: rest)).
  { apply (IH (v ++ [c])); [| |exact Hd]; now rewrite <- app_assoc. }
  cbn [app]. rewrite convert_unfold. cbv zeta. rewrite Hc, Hrest.
  destruct (N.eqb_spec c (ch "(")) as [->|]; [|reflexivity].
  destruct (extract_paren_content (ch "(" :: u ++ ch ")" :: rest) 0)
    as [[content e]|] eqn:He; [|reflexivity].
  replace (is_math content) with false; [reflexivity|]. symmetry.
  apply extract_closed in He as (pre & tail & Hs & Hlen & _ & Hbc).
  destruct pre; [|discriminate]. cbn [app] in Hs. injection Hs as Hs.
  apply app_eq_app in Hs as (l & [[Hu _]|[Hcont Hl]]).
  - rewrite Hu in Hm.
    replace (v ++ ch "(" :: content ++ l) with ((v ++ [ch "("]) ++ content ++ l) in Hm
      by (rewrite <- app_assoc; reflexivity).
    exact (is_math_substring _ _ _ Hm).
  - destruct l as [|d l].
    + rewrite app_nil_r in Hcont. subst content.
      replace (v ++ ch "(" :: u) with ((v ++ [ch "("]) ++ u ++ []) in Hm
        by (rewrite <- app_assoc, app_nil_r; reflexivity).
      exact (is_math_substring _ _ _ Hm).
    + cbn [app] in Hl. injection Hl as <- _. exfalso.
      subst content.
      replace (u ++ ch ")" :: l) with ((u ++ [ch ")"]) ++ l) in Hbc
        by (rewrite <- app_assoc; reflexivity).
      apply balanced_prefix in Hbc. rewrite nesting_app in Hbc.
      pose proof (balanced_prefix _ _ Hb) as Hv. apply balanced_total in Hb.
      rewrite nesting_app in Hb. cbn [nesting] in Hb, Hbc.
      change (ch "(" =? ch "(")%N with true in Hb.
      change (ch ")" =? ch "(")%N with false in Hbc.
      change (ch ")" =? ch ")")%N with true in Hbc. lia.
Qed.

Lemma convert_plain_span (content rest : str) :
  balanced content = true ->
  is_math content = false ->
  forallb not_dollar content = true ->
  convert_inline_parens (ch "(" :: content ++ ch ")" :: rest)
  = ch "(" :: content ++ ch ")" :: convert_inline_parens rest.
Proof.
  intros Hb Hm Hd. rewrite convert_unfold. cbv zeta.
  change (ch "(" =? ch "$")%N with false. change (ch "(" =? ch "(")%N with true. cbv iota.
  rewrite (extract_balanced _ _ Hb), Hm.
  rewrite (convert_inside [] content rest Hb Hm Hd).
  now rewrite convert_literal.
Qed.

(** X2.  A parenthesized span in running text: when the text before it has
    no dollar sign and no opening parenthesis, the span's content has matching
    parentheses and holds a recognized command, [convert_inline_parens] copies
    the text before, writes the normalized content between two dollar signs
    in place of the span, and goes on with the text after the closing
    parenthesis.  When the content holds no recognized command and no dollar
    sign, the span is copied with its parentheses and the scan goes on after
    it in the same way. *)
Theorem inline_span_in_prose (pre content rest : str) :
  forallb (fun c => negb (c =? ch "$")%N && negb (c =? ch "(")%N) pre = true ->
  balanced content = true ->
  (is_math content = true ->
   convert_inline_parens (pre ++ ch "(" :: content ++ ch ")" :: rest)
   = pre ++ ch "$" :: normalize_math content ++ ch "$" :: convert_inline_parens rest)
  /\ (is_math content = false ->
      forallb not_dollar content = true ->
      convert_inline_parens (pre ++ ch "(" :: content ++ ch ")" :: rest)
      = pre ++ ch "(" :: content ++ ch ")" :: convert_inline_parens rest).
Proof.
  intros Hpre Hb. split.
  - intros Hm. rewrite (convert_prose _ _ Hpre). f_equal. now apply convert_span.
  - intros Hm Hd. rewrite (convert_prose _ _ Hpre). f_equal.
    now apply convert_plain_span.
Qed.

Lemma find_at_skip (d : N) (sub body x : str) (i : nat) :
  forallb (fun c => negb (c =? d)%N) body = true ->
  find_at (d :: sub) (body ++ x) i = find_at (d :: sub) x (i + length body).
Proof.
  revert i; induction body as [|c body IH]; intros i; cbn [forallb app length].
  - intros _. now rewrite Nat.add_0_r.
  - intros H. apply andb_true_iff in H as [Hc H]. apply negb_true_iff in Hc.
    cbn [find_at startswith]. rewrite N.eqb_sym, Hc. cbn [andb].
    rewrite IH by exact H. f_equal. lia.
Qed.

Lemma find_at_here (sub x : str) (i : nat) : find_at sub (sub ++ x) i = Some i.
Proof. destruct sub; cbn [find_at app]; [destruct x; reflexivity|].
  change (startswith (n :: sub ++ x) (n :: sub)) with (startswith ((n :: sub) ++ x) (n :: sub)).
  now rewrite startswith_app. Qed.

(** X3.  Math that is already between dollar signs is left as it is.  A
    span between single dollar signs (not empty, no dollar sign inside) and a
    span between double dollar signs (no dollar sign inside) are copied
    character for character, parentheses and commands included, and the scan
    goes on after the closing delimiter; a dollar sign with no other dollar
    sign after it is copied as an ordinary character. *)
Theorem dollar_span_verbatim (body rest : str) :
  forallb not_dollar body = true ->
  (body <> [] ->
   convert_inline_parens (ch "$" :: body ++ ch "$" :: rest)
   = ch "$" :: body ++ ch "$" :: convert_inline_parens rest)
  /\ convert_inline_parens (txt "$$" ++ body ++ txt "$$" ++ rest)
     = txt "$$" ++ body ++ txt "$$" ++ convert_inline_parens rest
  /\ convert_inline_parens (ch "$" :: body) = ch "$" :: convert_inline_parens body.
Proof.
  intros Hd. split; [|split].
  - intros Hne. destruct body as [|b body]; [congruence|].
    cbn [forallb] in Hd. apply andb_true_iff in Hd as [Hb Hd]. apply negb_true_iff in Hb.
    rewrite convert_unfold. cbv zeta. change (ch "$" =? ch "$")%N with true. cbv iota.
    replace (str_eqb (slice (ch "$" :: (b :: body) ++ ch "$" :: rest) 0 2) (txt "$$"))
      with false.
    2:{ symmetry. apply str_eqb_neq. cbn. intros [= E]. subst b. discriminate Hb. }
    assert (Hf : find (txt "$") (ch "$" :: (b :: body) ++ ch "$" :: rest) 1
                 = Some (S (S (length body)))).
    { unfold find. cbn [length skipn Nat.ltb Nat.leb].
      change (txt "$") with [ch "$"].
      rewrite find_at_skip by (cbn [forallb]; rewrite Hb; exact Hd).
      change (ch "$" :: rest) with ([ch "$"] ++ rest). rewrite find_at_here.
      cbn [length]. f_equal. }
    rewrite Hf. rewrite slice_0.
    replace (S (S (length body)) + 1) with (length (ch "$" :: (b :: body) ++ [ch "$"]) + 0)
      by (cbn [length]; rewrite length_app; cbn [length]; lia).
    replace (ch "$" :: (b :: body) ++ ch "$" :: rest)
      with ((ch "$" :: (b :: body) ++ [ch "$"]) ++ rest)
      by (cbn [app]; rewrite <- app_assoc; reflexivity).
    rewrite skipn_shift, Nat.add_0_r, firstn_app, firstn_all, Nat.sub_diag.
    cbn [skipn firstn app]. rewrite app_nil_r. rewrite <- app_assoc. reflexivity.
  - change (txt "$$" ++ body ++ txt "$$" ++ rest)
      with (ch "$" :: ch "$" :: body ++ txt "$$" ++ rest).
    rewrite convert_unfold. cbv zeta. change (ch "$" =? ch "$")%N with true. cbv iota.
    change (slice (ch "$" :: ch "$" :: body ++ txt "$$" ++ rest) 0 2) with (txt "$$").
    rewrite str_eqb_refl.
    assert (Hf : find (txt "$$") (ch "$" :: ch "$" :: body ++ txt "$$" ++ rest) 2
                 = Some (2 + length body)).
    { unfold find. cbn [length skipn Nat.ltb Nat.leb].
      change (txt "$$") with (ch "$" :: [ch "$"]).
      rewrite find_at_skip by exact Hd. now rewrite find_at_here. }
    rewrite Hf, slice_0.
    replace (2 + length body + 2) with (length (txt "$$" ++ body ++ txt "$$") + 0)
      by (rewrite !length_app; cbn [length txt list_ascii_of_string map]; lia).
    replace (ch "$" :: ch "$" :: body ++ txt "$$" ++ rest)
      with ((txt "$$" ++ body ++ txt "$$") ++ rest)
      by (rewrite <- !app_assoc; reflexivity).
    rewrite skipn_shift, Nat.add_0_r, firstn_app, firstn_all, Nat.sub_diag.
    cbn [skipn firstn]. rewrite app_nil_r. now rewrite <- !app_assoc.
  - rewrite convert_unfold. cbv zeta. change (ch "$" =? ch "$")%N with true.
    change (ch "$" =? ch "(")%N with false. cbv iota.
    assert (Hf : forall sub, find (ch "$" :: sub) (ch "$" :: body) 1 = None).
    { intros sub. unfold find. cbn [length skipn Nat.ltb Nat.leb].
      rewrite <- (app_nil_r body). rewrite find_at_skip by exact Hd. reflexivity. }
    assert (Hf2 : find (txt "$$") (ch "$" :: body) 2 = None).
    { unfold find. destruct (length (ch "$" :: body) <? 2) eqn:E; [reflexivity|].
      destruct body as [|b body]; [discriminate|]. cbn [skipn].
      cbn [forallb] in Hd. apply andb_true_iff in Hd as [_ Hd].
      rewrite <- (app_nil_r body). change (txt "$$") with (ch "$" :: [ch "$"]).
      rewrite find_at_skip by exact Hd. reflexivity. }
    rewrite Hf2. change (txt "$") with [ch "$"]. rewrite Hf.
    now destruct (str_eqb _ _).
Qed.

(** ** Hash signs *)

Lemma unescaped_worst (p : option N) (s : str) :
  has_unescaped_hash None s = false -> has_unescaped_hash p s = false.
Proof.
  destruct s as [|c s]; [reflexivity|]. cbn [has_unescaped_hash negb].
  rewrite andb_true_r. intros H. apply orb_false_elim in H as [-> ->]. reflexivity.
Qed.

Lemma unescaped_after_other (d : N) (s : str) :
  (d =? ch "\")%N = false -> has_unescaped_hash (Some d) s = has_unescaped_hash None s.
Proof. intros H. destruct s as [|c s]; [reflexivity|]. cbn [has_unescaped_hash]. now rewrite H. Qed.

Lemma unescaped_prefix (p : option N) (a b : str) :
  has_unescaped_hash p (a ++ b) = false -> has_unescaped_hash p a = false.
Proof.
  revert p; induction a as [|c a IH]; intros p; [reflexivity|].
  cbn [app has_unescaped_hash]. intros H. apply orb_false_elim in H as [-> H].
  exact (IH _ H).
Qed.

Lemma unescaped_suffix (p : option N) (a : str) (d : N) (x : str) :
  has_unescaped_hash p (a ++ d :: x) = false -> has_unescaped_hash (Some d) x = false.
Proof.
  revert p; induction a as [|c a IH]; intros p; cbn [app has_unescaped_hash]; intros H;
    apply orb_false_elim in H as [_ H]; [exact H | exact (IH _ H)].
Qed.

Lemma unescaped_app (p : option N) (a b : str) :
  has_unescaped_hash p a = false -> has_unescaped_hash None b = false ->
  has_unescaped_hash p (a ++ b) = false.
Proof.
  revert p; induction a as [|c a IH]; intros p Ha Hb; cbn [app].
  - now apply unescaped_worst.
  - cbn [has_unescaped_hash] in Ha |- *. apply orb_false_elim in Ha as [-> Ha].
    now apply IH.
Qed.

Lemma unescaped_after_spaces (w y : str) :
  forallb is_space w = true ->
  has_unescaped_hash None (w ++ y) = false -> has_unescaped_hash None y = false.
Proof.
  induction w as [|c w IH]; cbn [forallb app]; [tauto|].
  intros H. apply andb_true_iff in H as [Hc Hw]. cbn [has_unescaped_hash].
  intros H. apply orb_false_elim in H as [_ H]. apply IH; [exact Hw|].
  rewrite <- H. symmetry. apply unescaped_after_other.
  destruct (N.eqb_spec c (ch "\")) as [->|]; [discriminate Hc | reflexivity].
Qed.

Lemma escape_scan_escaped (p : option N) (s : str) :
  has_unescaped_hash p (escape_scan p s) = false.
Proof.
  revert p; induction s as [|c s IH]; intros p; [reflexivity|].
  cbn [escape_scan].
  destruct ((c =? ch "#")%N
            && negb (match p with Some d => (d =? ch "\")%N | None => false end)) eqn:E.
  - apply andb_true_iff in E as [Ec _]. apply N.eqb_eq in Ec. subst c.
    cbn [has_unescaped_hash]. change (ch "\" =? ch "#")%N with false.
    change (ch "\" =? ch "\")%N with true. cbn [andb negb orb].
    rewrite andb_false_r. cbn [orb]. apply IH.
  - cbn [has_unescaped_hash]. rewrite E. cbn [orb]. apply IH.
Qed.

Lemma escape_scan_adds_backslashes (p : option N) (s : str) :
  filter (fun c => negb (c =? ch "\")%N) (escape_scan p s)
  = filter (fun c => negb (c =? ch "\")%N) s.
Proof.
  revert p; induction s as [|c s IH]; intros p; [reflexivity|].
  cbn [escape_scan].
  destruct ((c =? ch "#")%N && negb _) eqn:E.
  - apply andb_true_iff in E as [Ec _]. apply N.eqb_eq in Ec. subst c.
    cbn [filter]. change (ch "\" =? ch "\")%N with true.
    change (ch "#" =? ch "\")%N with false. cbn [negb]. now rewrite IH.
  - cbn [filter]. now rewrite IH.
Qed.

(** X4.  [escape_hash_in_math] leaves no hash sign without a backslash right
    before it, adds nothing but backslashes, and returns the line as it is
    exactly when every hash sign of the line already has its backslash. *)
Theorem escape_hash_complete (line : str) :
  has_unescaped_hash None (escape_hash_in_math line) = false
  /\ filter (fun c => negb (c =? ch "\")%N) (escape_hash_in_math line)
     = filter (fun c => negb (c =? ch "\")%N) line
  /\ (escape_hash_in_math line = line <-> has_unescaped_hash None line = false).
Proof.
  rewrite escape_hash_scan. split; [apply escape_scan_escaped|].
  split; [apply escape_scan_adds_backslashes|]. split.
  - intros H. rewrite <- H. apply escape_scan_escaped.
  - apply escape_scan_fixed.
Qed.

(** ** Dollar signs inside a span *)

Lemma hit_dollar (pre s : str) : Re.hit dollar_re dollar_tpl pre s = dollar_hit s.
Proof.
  unfold Re.hit, Re.match_at, dollar_re, dollar_hit. cbn [Re.mt fst snd].
  destruct s as [|c t]; [reflexivity|]. rewrite (N.eqb_sym c).
  destruct (N.eqb_spec (ch "$") c) as [<-|Hc]; [|reflexivity].
  change (fun c : N => negb (c =? ch "$")%N) with not_dollar.
  rewrite greedy_star_longest.
  2:{ intros w1 c w2 Hw. cbn [Re.mt fst snd].
      pose proof (@forallb_split _ _ _ _ _ (take_while_all not_dollar t) Hw) as Hsp.
      destruct (N.eqb_spec (ch "$") c) as [<-|]; [discriminate Hsp|reflexivity]. }
  cbn [Re.mt fst snd].
  destruct (drop_while not_dollar t) as [|d t'] eqn:Ed; [reflexivity|].
  rewrite (N.eqb_sym d). destruct (N.eqb_spec (ch "$") d) as [<-|Hd]; [|reflexivity].
  cbn [Re.expand dollar_tpl Re.group Nat.eqb].
  set (w := take_while not_dollar t).
  f_equal. f_equal.
  - rewrite app_nil_r. apply (captured w (ch "$" :: pre)).
  - pose proof (take_drop_while not_dollar t) as Ht. fold w in Ht. rewrite Ed in Ht.
    apply (f_equal (@length N)) in Ht. rewrite length_app in Ht. cbn [length] in *. lia.
Qed.

Lemma dollar_hit_bounds (s out : str) (n : nat) :
  dollar_hit s = Some (out, n) -> 0 < n <= length s.
Proof.
  unfold dollar_hit. destruct s as [|c t]; [discriminate|].
  destruct (c =? ch "$")%N; [|discriminate].
  destruct (drop_while not_dollar t) as [|d t'] eqn:Ed; [discriminate|].
  destruct (d =? ch "$")%N; [|discriminate]. intros [= <- <-].
  pose proof (take_drop_while not_dollar t) as Ht. rewrite Ed in Ht.
  apply (f_equal (@length N)) in Ht. rewrite length_app in Ht. cbn [length] in *. lia.
Qed.

Lemma norm_dollars_scan (s : str) : norm_dollars s = scan dollar_hit s.
Proof. unfold norm_dollars, Re.sub, scan. apply rewrite_ext, hit_dollar. Qed.

Lemma dollar_scan_copy (w x : str) :
  forallb not_dollar w = true -> scan dollar_hit (w ++ x) = w ++ scan dollar_hit x.
Proof.
  induction w as [|c w IH]; cbn [forallb app]; [reflexivity|].
  intros H. apply andb_true_iff in H as [Hc Hw]. apply negb_true_iff in Hc.
  rewrite scan_miss by (unfold dollar_hit; now rewrite Hc). now rewrite IH.
Qed.

Lemma dollar_scan_pair (body x : str) :
  forallb not_dollar body = true ->
  scan dollar_hit (ch "$" :: body ++ ch "$" :: x) = body ++ scan dollar_hit x.
Proof.
  intros Hb.
  assert (Hhit : dollar_hit (ch "$" :: body ++ ch "$" :: x)
                 = Some (body, S (S (length body)))).
  { unfold dollar_hit. change (ch "$" =? ch "$")%N with true. cbv iota.
    rewrite drop_while_app, take_while_app by exact Hb.
    cbn [drop_while take_while]. change (not_dollar (ch "$")) with false. cbv iota.
    change (ch "$" =? ch "$")%N with true. cbv iota. now rewrite app_nil_r. }
  rewrite (@scan_hit dollar_hit dollar_hit_bounds _ _ _ Hhit). f_equal.
  rewrite skipn_cons. replace (S (length body)) with (length body + 1) by lia.
  now rewrite skipn_shift.
Qed.

Lemma dollar_scan_lone (b : str) :
  forallb not_dollar b = true -> scan dollar_hit (ch "$" :: b) = ch "$" :: b.
Proof.
  intros Hb. rewrite scan_miss.
  - rewrite <- (app_nil_r b) at 1. rewrite (dollar_scan_copy _ _ Hb).
    now rewrite (@scan_nil dollar_hit dollar_hit_bounds), app_nil_r.
  - unfold dollar_hit. change (ch "$" =? ch "$")%N with true. cbv iota.
    now rewrite (drop_while_all _ _ Hb).
Qed.

Lemma dollar_scan_free (w : str) :
  forallb not_dollar w = true -> scan dollar_hit w = w.
Proof.
  intros Hw. rewrite <- (app_nil_r w) at 1. rewrite (dollar_scan_copy _ _ Hw).
  now rewrite (@scan_nil dollar_hit dollar_hit_bounds), app_nil_r.
Qed.

(** X5.  The last rewrite of the normalizer takes dollar signs out in pairs,
    from left to right: in a text read as a stretch without a dollar sign, a
    dollar sign, a second stretch and a dollar sign, both dollar signs go and
    the rest of the text is treated in the same way; a last dollar sign that
    has no partner stays; a text without a dollar sign is unchanged. *)
Theorem norm_dollars_pairs (w body x : str) :
  forallb not_dollar w = true ->
  forallb not_dollar body = true ->
  norm_dollars (w ++ ch "$" :: body ++ ch "$" :: x) = w ++ body ++ norm_dollars x
  /\ norm_dollars (w ++ ch "$" :: body) = w ++ ch "$" :: body
  /\ norm_dollars w = w.
Proof.
  intros Hw Hb. rewrite !norm_dollars_scan. split; [|split].
  - now rewrite (dollar_scan_copy _ _ Hw), (dollar_scan_pair _ _ Hb).
  - now rewrite (dollar_scan_copy _ _ Hw), (dollar_scan_lone _ Hb).
  - now apply dollar_scan_free.
Qed.

Lemma drop_while_head (p : N -> bool) (s : str) (c : N) (t : str) :
  drop_while p s = c :: t -> p c = false.
Proof.
  induction s as [|d s IH]; cbn [drop_while]; [discriminate|].
  destruct (p d) eqn:E; [exact IH|]. now intros [= <- _].
Qed.

Lemma dollar_split (s : str) :
  exists w,
    forallb not_dollar w = true
    /\ (s = w
        \/ exists body,
             forallb not_dollar body = true
             /\ (s = w ++ ch "$" :: body
                 \/ exists x, s = w ++ ch "$" :: body ++ ch "$" :: x)).
Proof.
  assert (Hhead : forall t d t', drop_while not_dollar t = d :: t' -> d = ch "$").
  { intros t d t' H. apply drop_while_head in H. apply negb_false_iff, N.eqb_eq in H.
    exact H. }
  exists (take_while not_dollar s). split; [apply take_while_all|].
  pose proof (take_drop_while not_dollar s) as Hs.
  destruct (drop_while not_dollar s) as [|d t] eqn:Ed.
  - left. now rewrite app_nil_r in Hs.
  - right. apply Hhead in Ed. subst d.
    exists (take_while not_dollar t). split; [apply take_while_all|].
    pose proof (take_drop_while not_dollar t) as Ht.
    destruct (drop_while not_dollar t) as [|d x] eqn:Ed'.
    + left. rewrite app_nil_r in Ht. now rewrite Ht.
    + right. apply Hhead in Ed'. subst d. exists x. now rewrite Ht.
Qed.

Lemma dollar_pairs_ind (P : list N -> Prop) :
  (forall w, forallb not_dollar w = true -> P w) ->
  (forall w body,
      forallb not_dollar w = true -> forallb not_dollar body = true ->
      P (w ++ ch "$" :: body)) ->
  (forall w body x,
      forallb not_dollar w = true -> forallb not_dollar body = true ->
      P x -> P (w ++ ch "$" :: body ++ ch "$" :: x)) ->
  forall s, P s.
Proof.
  intros H0 H1 H2 s. remember (length s) as n eqn:Hn. revert s Hn.
  induction n as [n IH] using lt_wf_ind. intros s Hn.
  destruct (dollar_split s) as (w & Hw & [->|(body & Hb & [->|(x & ->)])]).
  - now apply H0.
  - now apply H1.
  - apply H2; [exact Hw | exact Hb |]. apply (IH (length x)); [|reflexivity].
    subst n. rewrite !length_app. cbn [length]. rewrite length_app. cbn [length]. lia.
Qed.

Lemma dollars_app (a b : str) : dollars (a ++ b) = dollars a + dollars b.
Proof. apply count_occ_app. Qed.

Lemma dollars_cons (b : str) : dollars (ch "$" :: b) = S (dollars b).
Proof. unfold dollars. now rewrite count_occ_cons_eq. Qed.

Lemma dollars_none (w : str) : forallb not_dollar w = true -> dollars w = 0.
Proof.
  induction w as [|c w IH]; cbn [forallb]; [reflexivity|].
  intros H. apply andb_true_iff in H as [Hc Hw]. apply negb_true_iff, N.eqb_neq in Hc.
  unfold dollars. rewrite count_occ_cons_neq by exact Hc. now apply IH.
Qed.

Lemma dollar_scan_count (s : str) :
  dollars (scan dollar_hit s) <= 1
  /\ Nat.even (dollars (scan dollar_hit s)) = Nat.even (dollars s).
Proof.
  induction s as [w Hw | w body Hw Hb | w body x Hw Hb IH] using dollar_pairs_ind.
  - rewrite (dollar_scan_free _ Hw), (dollars_none _ Hw). split; [lia | reflexivity].
  - rewrite (dollar_scan_copy _ _ Hw), (dollar_scan_lone _ Hb).
    rewrite dollars_app, dollars_cons, (dollars_none _ Hw), (dollars_none _ Hb).
    split; [lia | reflexivity].
  - rewrite (dollar_scan_copy _ _ Hw), (dollar_scan_pair _ _ Hb).
    rewrite !dollars_app, dollars_cons, dollars_app, dollars_cons.
    rewrite (dollars_none _ Hw), (dollars_none _ Hb). cbn [Nat.add].
    destruct IH as [IH1 IH2]. split; [exact IH1|]. rewrite IH2.
    now rewrite Nat.even_succ_succ.
Qed.

Lemma dollar_scan_hash (s : str) :
  has_unescaped_hash None s = false ->
  has_unescaped_hash None (scan dollar_hit s) = false.
Proof.
  induction s as [w Hw | w body Hw Hb | w body x Hw Hb IH] using dollar_pairs_ind.
  - now rewrite (dollar_scan_free _ Hw).
  - now rewrite (dollar_scan_copy _ _ Hw), (dollar_scan_lone _ Hb).
  - rewrite (dollar_scan_copy _ _ Hw), (dollar_scan_pair _ _ Hb). intros H.
    pose proof (unescaped_prefix _ _ _ H) as H1.
    apply unescaped_suffix in H.
    pose proof (unescaped_prefix _ _ _ H) as H2.
    apply unescaped_suffix in H.
    rewrite unescaped_after_other in H2, H by reflexivity.
    apply unescaped_app; [exact H1|]. apply unescaped_app; [exact H2|].
    now apply IH.
Qed.

Lemma dollar_scan_filter (s : str) :
  filter not_dollar (scan dollar_hit s) = filter not_dollar s.
Proof.
  induction s as [w Hw | w body Hw Hb | w body x Hw Hb IH] using dollar_pairs_ind.
  - now rewrite (dollar_scan_free _ Hw).
  - now rewrite (dollar_scan_copy _ _ Hw), (dollar_scan_lone _ Hb).
  - rewrite (dollar_scan_copy _ _ Hw), (dollar_scan_pair _ _ Hb).
    rewrite !filter_app. cbn [filter]. change (not_dollar (ch "$")) with false.
    cbv iota. rewrite filter_app. cbn [filter]. change (not_dollar (ch "$")) with false.
    cbv iota. now rewrite IH.
Qed.

Lemma dollar_scan_settled (s : str) : dollars s <= 1 -> scan dollar_hit s = s.
Proof.
  destruct (dollar_split s) as (w & Hw & [->|(body & Hb & [->|(x & ->)])]); intros H.
  - now apply dollar_scan_free.
  - now rewrite (dollar_scan_copy _ _ Hw), (dollar_scan_lone _ Hb).
  - rewrite dollars_app, dollars_cons, dollars_app, dollars_cons in H. lia.
Qed.

(** X6.  The result of the last rewrite of the normalizer, for every text:
    it is the text with some dollar signs taken out and nothing else changed;
    at most one dollar sign is left, and none when the text had an even
    number of them; a second run changes nothing. *)
Theorem norm_dollars_result (text : str) :
  filter not_dollar (norm_dollars text) = filter not_dollar text
  /\ dollars (norm_dollars text) <= 1
  /\ Nat.even (dollars (norm_dollars text)) = Nat.even (dollars text)
  /\ norm_dollars (norm_dollars text) = norm_dollars text.
Proof.
  rewrite !norm_dollars_scan. destruct (dollar_scan_count text) as [H1 H2].
  split; [apply dollar_scan_filter|]. split; [exact H1|]. split; [exact H2|].
  now apply dollar_scan_settled.
Qed.

(** ** The trim at the end of the normalizer *)

Lemma rstrip_prefix (s : str) :
  exists z, s = rstrip s ++ z /\ forallb is_space z = true.
Proof.
  unfold rstrip. exists (rev (take_while is_space (rev s))). split.
  - rewrite <- rev_app_distr, take_drop_while. symmetry. apply rev_involutive.
  - rewrite forallb_rev. apply take_while_all.
Qed.

Lemma strip_within (s : str) :
  exists a b,
    s = a ++ strip s ++ b /\ forallb is_space a = true /\ forallb is_space b = true.
Proof.
  unfold strip. destruct (rstrip_prefix (lstrip s)) as (z & Hz & Hsp).
  exists (take_while is_space s), z. split; [|split].
  - rewrite <- Hz. symmetry. apply take_drop_while.
  - apply take_while_all.
  - exact Hsp.
Qed.

Lemma trimmed_strip (s : str) : trimmed (strip s) = true.
Proof.
  unfold strip. set (y := lstrip s).
  assert (Hy : match y with [] => True | c :: _ => is_space c = false end).
  { unfold y, lstrip. destruct (drop_while is_space s) as [|c t] eqn:E; [exact I|].
    exact (drop_while_head _ _ E). }
  clearbody y. destruct (rstrip_prefix y) as (z & Hz & _). unfold rstrip in *.
  destruct (drop_while is_space (rev y)) as [|d u] eqn:E; [reflexivity|].
  pose proof (drop_while_head _ _ E) as Hd. cbn [rev] in *.
  destruct (rev u ++ [d]) as [|c t] eqn:Er.
  - destruct (rev u); discriminate.
  - unfold trimmed. rewrite <- Er, last_last, Hd. rewrite andb_true_r.
    rewrite Hz in Hy. cbn [app] in Hy. now rewrite Hy.
Qed.

(** X7.  Whatever the text, the result of [normalize_math] neither starts
    nor ends with white space, has a backslash right before every hash sign,
    and holds at most one dollar sign. *)
Theorem normalize_math_shape (text : str) :
  trimmed (normalize_math text) = true
  /\ has_unescaped_hash None (normalize_math text) = false
  /\ dollars (normalize_math text) <= 1.
Proof.
  unfold normalize_math.
  set (t4 := norm_hash (norm_relations (norm_thin_space (norm_style text)))).
  assert (H4 : has_unescaped_hash None t4 = false)
    by (unfold t4; rewrite norm_hash_scan; apply escape_scan_escaped).
  clearbody t4. rewrite norm_dollars_scan.
  apply dollar_scan_hash in H4. pose proof (proj1 (dollar_scan_count t4)) as H5.
  set (t5 := scan dollar_hit t4) in *. clearbody t5.
  destruct (strip_within t5) as (a & b & Ht & Ha & _).
  split; [apply trimmed_strip|]. split.
  - rewrite Ht in H4. apply (unescaped_after_spaces _ _ Ha) in H4.
    exact (unescaped_prefix _ _ _ H4).
  - rewrite Ht, !dollars_app in H5. lia.
Qed.

(** ** Style commands: what step 1 writes *)

Lemma find_exclusive (ws : list str) (w r : str) :
  exclusive ws = true -> In w ws -> List.find (startswith (w ++ r)) ws = Some w.
Proof.
  induction ws as [|w0 ws IH]; [contradiction|].
  cbn [exclusive List.find In]. intros He Hin.
  apply andb_true_iff in He as [H0 He].
  destruct (startswith (w ++ r) w0) eqn:E.
  - destruct Hin as [->|Hin]; [reflexivity|]. exfalso.
    rewrite forallb_forall in H0. specialize (H0 _ Hin).
    apply andb_true_iff in H0 as [Ha Hb]. apply negb_true_iff in Ha, Hb.
    destruct (startswith_both _ _ _ E (startswith_app w r)) as [H|H]; congruence.
  - destruct Hin as [->|Hin]; [now rewrite startswith_app in E|].
    now apply IH.
Qed.

(** X8.  Step 1 of the normalizer on a style command: for each of the five
    commands ([\mathcal], [\mathbb], [\mathrm], [\mathbf], [\text]) followed by a
    non-empty run of white space and a letter, the white space goes and the
    letter is put in braces; the text on both sides is rewritten on its
    own. *)
Theorem style_argument_braced (pre name ws : str) (l : N) (post : str) :
  In name STYLE_NAMES ->
  ws <> [] ->
  forallb is_space ws = true ->
  is_ascii_letter l = true ->
  norm_style (pre ++ ch "\" :: name ++ ws ++ l :: post)
  = norm_style pre ++ ch "\" :: name ++ ch "{" :: l :: ch "}" :: norm_style post.
Proof.
  intros Hin Hne Hws Hl. rewrite !norm_style_scan. unfold style_scan.
  rewrite (@scan_barrier style_hit style_hit_bounds (ch "\") style_hit_barrier).
  f_equal.
  assert (Hhit : style_hit (ch "\" :: name ++ ws ++ l :: post)
                 = Some (ch "\" :: name ++ ch "{" :: l :: [ch "}"],
                         S (length name + length ws + 1))).
  { unfold style_hit. change (ch "\" =? ch "\")%N with true. cbv iota.
    rewrite (@find_exclusive STYLE_NAMES name _ eq_refl Hin). cbv zeta.
    replace (skipn (length name) (name ++ ws ++ l :: post)) with (ws ++ l :: post)
      by (replace (length name) with (length name + 0) by lia;
          now rewrite skipn_shift).
    rewrite take_while_app, drop_while_app by exact Hws.
    cbn [take_while drop_while]. rewrite (letter_not_space _ Hl), app_nil_r, Hl.
    destruct ws; [congruence | reflexivity]. }
  rewrite (@scan_hit style_hit style_hit_bounds _ _ _ Hhit).
  replace (skipn (S (length name + length ws + 1)) (ch "\" :: name ++ ws ++ l :: post))
    with post.
  - cbn [app]. f_equal. rewrite <- app_assoc. reflexivity.
  - rewrite skipn_cons.
    replace (name ++ ws ++ l :: post) with ((name ++ ws ++ [l]) ++ post)
      by (rewrite <- !app_assoc; reflexivity).
    replace (length name + length ws + 1) with (length (name ++ ws ++ [l]) + 0)
      by (rewrite !length_app; cbn [length]; lia).
    now rewrite skipn_shift.
Qed.

(** ** Relations between semicolons: what step 3 writes *)

Lemma relations_backslash :
  forall rel, In rel RELATIONS -> exists t, rel = ch "\" :: t.
Proof. apply Forall_forall. repeat constructor; eexists; reflexivity. Qed.

Lemma find_relation_none (c : N) (t : str) :
  c <> ch "\" -> List.find (startswith (c :: t)) RELATIONS = None.
Proof.
  intros Hc. destruct (List.find (startswith (c :: t)) RELATIONS) as [rel|] eqn:E;
    [|reflexivity].
  apply find_some in E as [Hin Hs]. apply relations_backslash in Hin as [u ->].
  cbn [startswith] in Hs. apply andb_true_iff in Hs as [Hs _].
  apply N.eqb_eq in Hs. congruence.
Qed.

Lemma hit_rel (pre s : str) : Re.hit rel_re rel_tpl pre s = rel_hit s.
Proof.
  unfold Re.hit, Re.match_at, rel_re, rel_hit. cbn [Re.mt fst snd].
  destruct s as [|c t]; [reflexivity|]. rewrite (N.eqb_sym c).
  destruct (N.eqb_spec (ch ";") c) as [<-|Hc]; [|reflexivity].
  fold RELATIONS.
  rewrite greedy_star_longest.
  2:{ intros w1 c w2 Hw. cbn [Re.mt fst snd].
      pose proof (@forallb_split _ _ _ _ _ (take_while_all is_space t) Hw) as Hsp.
      rewrite mt_alts_lit_find by reflexivity.
      rewrite find_relation_none; [reflexivity|]. intros ->. discriminate Hsp. }
  cbn [Re.mt fst snd]. rewrite mt_alts_lit_find by reflexivity. cbv zeta.
  set (ws1 := take_while is_space t). set (r := drop_while is_space t).
  destruct (List.find (startswith r) RELATIONS) as [rel|] eqn:Ef; [|reflexivity].
  apply find_some in Ef as [_ Hrel]. apply startswith_skipn in Hrel.
  set (r2 := skipn (length rel) r) in *.
  rewrite greedy_star_longest.
  2:{ intros w1 c w2 Hw. cbn [Re.mt fst snd].
      pose proof (@forallb_split _ _ _ _ _ (take_while_all is_space r2) Hw) as Hsp.
      destruct (N.eqb_spec (ch ";") c) as [<-|]; [discriminate Hsp|reflexivity]. }
  cbn [Re.mt fst snd].
  destruct (drop_while is_space r2) as [|d t'] eqn:Ed; [reflexivity|].
  rewrite (N.eqb_sym d). destruct (N.eqb_spec (ch ";") d) as [<-|Hd]; [|reflexivity].
  cbn [Re.expand rel_tpl Re.group Nat.eqb].
  f_equal. f_equal.
  - rewrite app_nil_r. cbn [txt list_ascii_of_string map app]. f_equal. f_equal.
    apply (captured rel (rev ws1 ++ ch ";" :: pre)).
  - pose proof (take_drop_while is_space t) as Ht. fold ws1 r in Ht.
    pose proof (take_drop_while is_space r2) as Hr2. rewrite Ed in Hr2.
    apply (f_equal (@length N)) in Ht, Hrel, Hr2. rewrite length_app in Ht, Hrel, Hr2.
    cbn [length] in *. lia.
Qed.

Lemma rel_hit_bounds (s out : str) (n : nat) :
  rel_hit s = Some (out, n) -> 0 < n <= length s.
Proof.
  unfold rel_hit. destruct s as [|c t]; [discriminate|].
  destruct (c =? ch ";")%N; [|discriminate]. cbv zeta.
  destruct (List.find (startswith (drop_while is_space t)) RELATIONS) as [rel|] eqn:Ef;
    [|discriminate].
  apply find_some in Ef as [_ Hrel]. apply startswith_skipn in Hrel.
  set (r2 := skipn (length rel) (drop_while is_space t)) in *.
  destruct (drop_while is_space r2) as [|d t'] eqn:Ed; [discriminate|].
  destruct (d =? ch ";")%N; [|discriminate]. intros [= <- <-].
  pose proof (take_drop_while is_space t) as Ht.
  pose proof (take_drop_while is_space r2) as Hr2. rewrite Ed in Hr2.
  apply (f_equal (@length N)) in Ht, Hrel, Hr2. rewrite length_app in Ht, Hrel, Hr2.
  cbn [length] in *. lia.
Qed.

Lemma norm_relations_scan (s : str) : norm_relations s = scan rel_hit s.
Proof. unfold norm_relations, Re.sub, scan. apply rewrite_ext, hit_rel. Qed.

(** X9.  Step 3 of the normalizer on a relation between semicolons: in a text
    with no semicolon before it, a semicolon, white space or none, one of the
    six relation commands, white space or none and a semicolon become the
    command with one space on each side; the text before is copied and the
    text after is rewritten in the same way. *)
Theorem relation_between_semicolons (pre ws1 rel ws2 post : str) :
  forallb (fun c => negb (c =? ch ";")%N) pre = true ->
  In rel RELATIONS ->
  forallb is_space ws1 = true ->
  forallb is_space ws2 = true ->
  norm_relations (pre ++ ch ";" :: ws1 ++ rel ++ ws2 ++ ch ";" :: post)
  = pre ++ ch " " :: rel ++ ch " " :: norm_relations post.
Proof.
  intros Hpre Hin H1 H2. rewrite !norm_relations_scan.
  assert (Hcopy : forall x, scan rel_hit (pre ++ x) = pre ++ scan rel_hit x).
  { intros x. induction pre as [|c pre IH]; [reflexivity|].
    cbn [forallb] in Hpre. apply andb_true_iff in Hpre as [Hc Hpre].
    apply negb_true_iff in Hc. cbn [app].
    rewrite scan_miss by (unfold rel_hit; now rewrite Hc). now rewrite IH. }
  rewrite Hcopy. f_equal.
  destruct (@relations_backslash rel Hin) as [u Hu].
  assert (Hhit : rel_hit (ch ";" :: ws1 ++ rel ++ ws2 ++ ch ";" :: post)
                 = Some (ch " " :: rel ++ [ch " "],
                         S (length ws1 + length rel + length ws2 + 1))).
  { unfold rel_hit. change (ch ";" =? ch ";")%N with true. cbv iota zeta.
    rewrite drop_while_app, take_while_app by exact H1.
    replace (drop_while is_space (rel ++ ws2 ++ ch ";" :: post))
      with (rel ++ ws2 ++ ch ";" :: post) by (rewrite Hu; reflexivity).
    replace (take_while is_space (rel ++ ws2 ++ ch ";" :: post)) with (@nil N)
      by (rewrite Hu; reflexivity).
    rewrite (@find_exclusive RELATIONS rel _ eq_refl Hin).
    replace (skipn (length rel) (rel ++ ws2 ++ ch ";" :: post)) with (ws2 ++ ch ";" :: post)
      by (replace (length rel) with (length rel + 0) by lia; now rewrite skipn_shift).
    rewrite drop_while_app, take_while_app by exact H2.
    cbn [drop_while take_while]. change (is_space (ch ";")) with false. cbv iota.
    change (ch ";" =? ch ";")%N with true. cbv iota. now rewrite !app_nil_r. }
  rewrite (@scan_hit rel_hit rel_hit_bounds _ _ _ Hhit).
  replace (skipn (S (length ws1 + length rel + length ws2 + 1))
                 (ch ";" :: ws1 ++ rel ++ ws2 ++ ch ";" :: post)) with post.
  - cbn [app]. f_equal. rewrite <- app_assoc. reflexivity.
  - rewrite skipn_cons.
    replace (ws1 ++ rel ++ ws2 ++ ch ";" :: post)
      with ((ws1 ++ rel ++ ws2 ++ [ch ";"]) ++ post)
      by (rewrite <- !app_assoc; reflexivity).
    replace (length ws1 + length rel + length ws2 + 1)
      with (length (ws1 ++ rel ++ ws2 ++ [ch ";"]) + 0)
      by (rewrite !length_app; cbn [length]; lia).
    now rewrite skipn_shift.
Qed.

(** ** The lines of a display block after cleaning *)

Lemma hit_space (pre s : str) : Re.hit (Re.plus is_space) blank pre s = space_hit s.
Proof.
  unfold Re.hit, Re.match_at, Re.plus, space_hit. cbn [Re.mt fst snd].
  destruct s as [|c t]; [reflexivity|].
  destruct (is_space c); [|reflexivity].
  rewrite greedy_star_total by congruence.
  cbn [Re.expand blank]. rewrite app_nil_r. f_equal. f_equal.
  pose proof (take_drop_while is_space t) as Ht.
  apply (f_equal (@length N)) in Ht. rewrite length_app in Ht. cbn [length]. lia.
Qed.

Lemma space_hit_bounds (s out : str) (n : nat) :
  space_hit s = Some (out, n) -> 0 < n <= length s.
Proof.
  unfold space_hit. destruct s as [|c t]; [discriminate|].
  destruct (is_space c); [|discriminate]. intros [= <- <-].
  pose proof (take_drop_while is_space t) as Ht.
  apply (f_equal (@length N)) in Ht. rewrite length_app in Ht. cbn [length]. lia.
Qed.

Lemma space_scan_hit (c : N) (t : str) :
  is_space c = true ->
  scan space_hit (c :: t) = ch " " :: scan space_hit (drop_while is_space t).
Proof.
  intros Hc.
  assert (Hhit : space_hit (c :: t) = Some (txt " ", S (length (take_while is_space t))))
    by (unfold space_hit; now rewrite Hc).
  rewrite (@scan_hit space_hit space_hit_bounds _ _ _ Hhit). cbn [txt list_ascii_of_string map app].
  f_equal. f_equal. rewrite skipn_cons.
  rewrite <- (take_drop_while is_space t) at 2.
  replace (length (take_while is_space t)) with (length (take_while is_space t) + 0) by lia.
  now rewrite skipn_shift.
Qed.

Lemma space_scan_miss (c : N) (t : str) :
  is_space c = false -> scan space_hit (c :: t) = c :: scan space_hit t.
Proof. intros Hc. apply scan_miss. unfold space_hit. now rewrite Hc. Qed.

Lemma space_scan_single (s : str) : single_spaced (scan space_hit s) = true.
Proof.
  remember (length s) as n eqn:Hn. revert s Hn.
  induction n as [n IH] using lt_wf_ind. intros s Hn.
  destruct s as [|c t]; [now rewrite (@scan_nil space_hit space_hit_bounds)|].
  destruct (is_space c) eqn:Ec.
  - rewrite (@space_scan_hit c t Ec). cbn [single_spaced].
    change (is_space (ch " ")) with true. change (ch " " =? ch " ")%N with true.
    cbn [negb orb andb].
    assert (Hlen : length (drop_while is_space t) < n).
    { pose proof (take_drop_while is_space t) as Ht.
      apply (f_equal (@length N)) in Ht. rewrite length_app in Ht.
      subst n. cbn [length]. lia. }
    rewrite (IH _ Hlen _ eq_refl), andb_true_r.
    destruct (drop_while is_space t) as [|d u] eqn:Ed.
    + now rewrite (@scan_nil space_hit space_hit_bounds).
    + pose proof (drop_while_head _ _ Ed) as Hd. rewrite (@space_scan_miss d u Hd).
      now rewrite Hd.
  - rewrite (@space_scan_miss c t Ec). cbn [single_spaced]. rewrite Ec. cbn [negb orb andb].
    apply (IH (length t)); [subst n; cbn [length]; lia | reflexivity].
Qed.

Lemma space_not_hash (c : N) : is_space c = true -> (c =? ch "#")%N = false.
Proof. intros H. destruct (N.eqb_spec c (ch "#")) as [->|]; [discriminate H | reflexivity]. Qed.

Lemma space_not_backslash (c : N) : is_space c = true -> (c =? ch "\")%N = false.
Proof. intros H. destruct (N.eqb_spec c (ch "\")) as [->|]; [discriminate H | reflexivity]. Qed.

Lemma unescaped_spaces (c : N) (ws r : str) :
  is_space c = true -> forallb is_space ws = true ->
  has_unescaped_hash (Some c) (ws ++ r) = has_unescaped_hash None r.
Proof.
  revert c; induction ws as [|d ws IH]; intros c Hc Hws; cbn [app].
  - apply unescaped_after_other, space_not_backslash, Hc.
  - cbn [forallb] in Hws. apply andb_true_iff in Hws as [Hd Hws].
    cbn [has_unescaped_hash]. rewrite (space_not_hash _ Hd). cbn [andb orb].
    now apply IH.
Qed.

Lemma space_scan_hash (p : option N) (s : str) :
  has_unescaped_hash p (scan space_hit s) = has_unescaped_hash p s.
Proof.
  remember (length s) as n eqn:Hn. revert p s Hn.
  induction n as [n IH] using lt_wf_ind. intros p s Hn.
  destruct s as [|c t]; [now rewrite (@scan_nil space_hit space_hit_bounds)|].
  destruct (is_space c) eqn:Ec.
  - rewrite (@space_scan_hit c t Ec). cbn [has_unescaped_hash].
    change (ch " " =? ch "#")%N with false. rewrite (space_not_hash _ Ec). cbn [andb orb].
    pose proof (take_drop_while is_space t) as Ht.
    assert (Hlen : length (drop_while is_space t) < n).
    { apply (f_equal (@length N)) in Ht. rewrite length_app in Ht.
      subst n. cbn [length]. lia. }
    rewrite (IH _ Hlen _ _ eq_refl).
    rewrite <- Ht at 2. rewrite (@unescaped_spaces c _ _ Ec (take_while_all is_space t)).
    now apply unescaped_after_other.
  - rewrite (@space_scan_miss c t Ec). cbn [has_unescaped_hash]. f_equal.
    apply (IH (length t)); [subst n; cbn [length]; lia | reflexivity].
Qed.

Lemma single_spaced_prefix (a z : str) :
  single_spaced (a ++ z) = true -> single_spaced a = true.
Proof.
  induction a as [|c a IH]; [reflexivity|]. cbn [app single_spaced].
  intros H. apply andb_true_iff in H as [Hc H]. rewrite (IH H), andb_true_r.
  destruct (negb (is_space c)); [reflexivity|]. cbn [orb] in Hc |- *.
  apply andb_true_iff in Hc as [-> Hc]. cbn [andb].
  destruct a as [|d a]; [reflexivity | exact Hc].
Qed.

Lemma rstrip_idempotent (s : str) : rstrip (rstrip s) = rstrip s.
Proof.
  unfold rstrip. rewrite rev_involutive. f_equal.
  destruct (drop_while is_space (rev s)) as [|d u] eqn:E; [reflexivity|].
  cbn [drop_while]. now rewrite (drop_while_head _ _ E).
Qed.

Lemma space_sub_scan (s : str) : Re.sub (Re.plus is_space) blank s = scan space_hit s.
Proof. unfold Re.sub, scan. apply rewrite_ext, hit_space. Qed.

Lemma tidy_after_cleaning (x : str) :
  let l := rstrip (Re.sub (Re.plus is_space) blank (escape_hash_in_math x)) in
  rstrip l = l /\ single_spaced l = true /\ has_unescaped_hash None l = false.
Proof.
  cbv zeta. rewrite space_sub_scan.
  set (w := scan space_hit (escape_hash_in_math x)).
  destruct (rstrip_prefix w) as (z & Hz & _).
  split; [apply rstrip_idempotent|]. split.
  - apply (single_spaced_prefix _ z). rewrite <- Hz. apply space_scan_single.
  - apply (unescaped_prefix _ _ z). rewrite <- Hz. unfold w.
    rewrite space_scan_hash, escape_hash_scan. apply escape_scan_escaped.
Qed.

(** X10.  The lines [clean_display_lines] returns: there are no more of them
    than lines given; none is empty or ends with white space; in each, all
    white space is single blanks, and every hash sign has a backslash right
    before it. *)
Theorem cleaned_lines_tidy (lines : list str) :
  length (clean_display_lines lines) <= length lines
  /\ Forall (fun l => l <> [] /\ rstrip l = l /\ single_spaced l = true
                      /\ has_unescaped_hash None l = false)
            (clean_display_lines lines).
Proof.
  induction lines as [|line rest [IHlen IH]]; [split; [reflexivity | constructor]|].
  cbn [clean_display_lines length].
  destruct (is_pure_separator line); [split; [lia | exact IH]|]. cbv zeta.
  set (x := Re.sub (Re.three_or_more (ch "_")) blank
              (Re.sub (Re.three_or_more (ch "-")) blank
                 (Re.sub (Re.three_or_more (ch "=")) blank line))).
  pose proof (tidy_after_cleaning x) as Ht. cbv zeta in Ht.
  set (y := Re.sub (Re.plus is_space) blank (escape_hash_in_math x)) in *.
  destruct (strip y) eqn:Es; [split; [lia | exact IH]|].
  split; [cbn [length]; lia|]. constructor; [|exact IH].
  split; [|exact Ht]. intros Hr. apply rstrip_nil_strip in Hr. congruence.
Qed.

(** ** Long runs of a separator character *)

Lemma starts_long_run (c : N) (s : str) :
  startswith s [c; c; c] = (3 <=? run_length c s).
Proof.
  unfold run_length.
  destruct s as [|a [|b [|d t]]]; cbn [startswith take_while];
    try reflexivity;
    destruct (c =? a)%N; try reflexivity;
    destruct (c =? b)%N; try reflexivity;
    destruct (c =? d)%N; reflexivity.
Qed.

Lemma long_run_cons (c a : N) (x x' : str) :
  run_length c x' <= run_length c x ->
  (long_run c x = false -> long_run c x' = false) ->
  run_length c (a :: x') <= run_length c (a :: x)
  /\ (long_run c (a :: x) = false -> long_run c (a :: x') = false).
Proof.
  intros Hlen Hrun.
  assert (H : run_length c (a :: x') <= run_length c (a :: x)).
  { unfold run_length in *. cbn [take_while]. destruct (c =? a)%N; cbn [length]; lia. }
  split; [exact H|]. cbn [long_run]. rewrite !starts_long_run.
  intros H0. apply orb_false_elim in H0 as [H1 H2]. rewrite (Hrun H2), orb_false_r.
  apply Nat.leb_gt in H1. apply Nat.leb_gt. lia.
Qed.

Lemma long_run_written (c : N) (out x : str) :
  forallb (fun a => negb (c =? a)%N) out = true ->
  long_run c (out ++ x) = long_run c x.
Proof.
  induction out as [|o out IH]; cbn [forallb app]; [reflexivity|].
  intros H. apply andb_true_iff in H as [Ho H]. apply negb_true_iff in Ho.
  cbn [long_run startswith]. rewrite Ho. cbn [andb orb]. now apply IH.
Qed.

Lemma long_run_skipn (c : N) (n : nat) (s : str) :
  long_run c s = false -> long_run c (skipn n s) = false.
Proof.
  revert s; induction n as [|n IH]; intros s; [tauto|].
  destruct s as [|a s]; [tauto|]. cbn [long_run skipn]. intros H.
  apply orb_false_elim in H as [_ H]. now apply IH.
Qed.

Lemma long_run_prefix (c : N) (a z : str) :
  long_run c (a ++ z) = false -> long_run c a = false.
Proof.
  induction a as [|x a IH]; [reflexivity|]. cbn [app long_run]. intros H.
  apply orb_false_elim in H as [H1 H2]. rewrite (IH H2), orb_false_r.
  destruct (startswith (x :: a) [c; c; c]) eqn:E; [|reflexivity].
  apply startswith_spec in E as [r E]. rewrite <- H1. symmetry.
  apply startswith_spec. exists (r ++ z).
  change (x :: a ++ z) with ((x :: a) ++ z). rewrite E. now rewrite <- app_assoc.
Qed.

Section Runs.
Variable g : list N -> option (list N * nat).
Variable c : N.
Hypothesis g_bounds : forall s out n, g s = Some (out, n) -> 0 < n <= length s.
Hypothesis g_written :
  forall s out n, g s = Some (out, n) ->
                  out <> [] /\ forallb (fun a => negb (c =? a)%N) out = true.

(** A scan that writes no [c] makes no run of [c] longer. *)
Lemma scan_runs (s : str) :
  run_length c (scan g s) <= run_length c s
  /\ (long_run c s = false -> long_run c (scan g s) = false).
Proof.
  remember (length s) as n eqn:Hn. revert s Hn.
  induction n as [n IH] using lt_wf_ind. intros s Hn.
  destruct (g s) as [[out m]|] eqn:Eg.
  - pose proof (@g_bounds _ _ _ Eg) as Hm. pose proof (@g_written _ _ _ Eg) as [Hne Hout].
    rewrite (@scan_hit g g_bounds _ _ _ Eg). split.
    + destruct out as [|o out]; [congruence|]. cbn [forallb] in Hout.
      apply andb_true_iff in Hout as [Ho _]. apply negb_true_iff in Ho.
      unfold run_length. cbn [app take_while]. rewrite Ho. cbn [length]. lia.
    + intros H. rewrite (@long_run_written _ _ _ Hout).
      apply (IH (length (skipn m s))); [rewrite length_skipn; lia | reflexivity |].
      now apply long_run_skipn.
  - destruct s as [|a t]; [now rewrite (@scan_nil g g_bounds)|].
    rewrite (@scan_miss _ _ _ Eg).
    destruct (IH (length t) ltac:(subst n; cbn [length]; lia) t eq_refl) as [H1 H2].
    now apply long_run_cons.
Qed.

End Runs.

Lemma hit_run (c : N) (pre s : str) :
  Re.hit (Re.three_or_more c) blank pre s = run_hit c s.
Proof.
  unfold Re.hit, Re.match_at, Re.three_or_more, run_hit.
  destruct s as [|a [|b [|d t]]]; cbn [Re.mt fst snd];
    try reflexivity;
    destruct (c =? a)%N; try reflexivity; cbn [Re.mt fst snd andb];
    destruct (c =? b)%N; try reflexivity; cbn [Re.mt fst snd andb];
    destruct (c =? d)%N; try reflexivity.
  cbn [Re.mt fst snd]. rewrite greedy_star_total by congruence.
  cbn [Re.expand blank]. rewrite app_nil_r. f_equal. f_equal.
  pose proof (take_drop_while (N.eqb c) t) as Hs.
  apply (f_equal (@length N)) in Hs. rewrite length_app in Hs. cbn [length]. lia.
Qed.

Lemma run_hit_bounds (c : N) (s out : str) (n : nat) :
  run_hit c s = Some (out, n) -> 0 < n <= length s.
Proof.
  unfold run_hit. destruct s as [|a [|b [|d t]]]; try discriminate.
  destruct ((c =? a)%N && (c =? b)%N && (c =? d)%N); [|discriminate].
  intros [= <- <-]. pose proof (take_drop_while (N.eqb c) t) as Ht.
  apply (f_equal (@length N)) in Ht. rewrite length_app in Ht. cbn [length]. lia.
Qed.

Lemma run_hit_written (c c' : N) (s out : str) (n : nat) :
  c <> ch " " ->
  run_hit c' s = Some (out, n) ->
  out <> [] /\ forallb (fun a => negb (c =? a)%N) out = true.
Proof.
  intros Hc. unfold run_hit. destruct s as [|a [|b [|d t]]]; try discriminate.
  destruct ((c' =? a)%N && (c' =? b)%N && (c' =? d)%N); [|discriminate].
  intros [= <- _]. split; [discriminate|]. cbn [txt list_ascii_of_string map forallb].
  apply N.eqb_neq in Hc. now rewrite Hc.
Qed.

Lemma space_hit_written (c : N) (s out : str) (n : nat) :
  c <> ch " " ->
  space_hit s = Some (out, n) ->
  out <> [] /\ forallb (fun a => negb (c =? a)%N) out = true.
Proof.
  intros Hc. unfold space_hit. destruct s as [|a t]; [discriminate|].
  destruct (is_space a); [|discriminate].
  intros [= <- _]. split; [discriminate|]. cbn [txt list_ascii_of_string map forallb].
  apply N.eqb_neq in Hc. now rewrite Hc.
Qed.

Lemma run_sub_scan (c : N) (s : str) :
  Re.sub (Re.three_or_more c) blank s = scan (run_hit c) s.
Proof. unfold Re.sub, scan. apply rewrite_ext, hit_run. Qed.

Lemma run_hit_none (c : N) (s : str) :
  run_hit c s = None -> startswith s [c; c; c] = false.
Proof.
  unfold run_hit. destruct s as [|a [|b [|d t]]]; cbn [startswith]; intros H;
    try reflexivity; try (now destruct (c =? a)%N);
    try (now destruct (c =? a)%N, (c =? b)%N).
  rewrite andb_true_r, andb_assoc. now destruct ((c =? a)%N && (c =? b)%N && (c =? d)%N).
Qed.

(** The scan for runs of [c] leaves none. *)
Lemma run_scan_clean (c : N) (s : str) :
  c <> ch " " -> long_run c (scan (run_hit c) s) = false.
Proof.
  intros Hc. remember (length s) as n eqn:Hn. revert s Hn.
  induction n as [n IH] using lt_wf_ind. intros s Hn.
  destruct (run_hit c s) as [[out m]|] eqn:Eg.
  - pose proof (@run_hit_bounds _ _ _ _ Eg) as Hm.
    pose proof (@run_hit_written c c _ _ _ Hc Eg) as [_ Hout].
    rewrite (@scan_hit (run_hit c) (@run_hit_bounds c) _ _ _ Eg).
    rewrite (@long_run_written _ _ _ Hout).
    apply (IH (length (skipn m s))); [rewrite length_skipn; lia | reflexivity].
  - destruct s as [|a t]; [now rewrite (@scan_nil (run_hit c) (@run_hit_bounds c))|].
    pose proof (@scan_runs (run_hit c) c (@run_hit_bounds c)
                  (fun s out n => @run_hit_written c c s out n Hc) (a :: t)) as [Hlen _].
    rewrite (@scan_miss _ _ _ Eg) in Hlen |- *. cbn [long_run].
    rewrite (IH (length t) ltac:(subst n; cbn [length]; lia) t eq_refl), orb_false_r.
    apply run_hit_none in Eg. rewrite starts_long_run in Eg |- *.
    apply Nat.leb_gt in Eg. apply Nat.leb_gt. lia.
Qed.

Lemma escape_scan_runs (c : N) (p : option N) (s : str) :
  c <> ch "\" ->
  run_length c (escape_scan p s) <= run_length c s
  /\ (long_run c s = false -> long_run c (escape_scan p s) = false).
Proof.
  intros Hc. revert p; induction s as [|a t IH]; intros p; [split; [reflexivity | tauto]|].
  cbn [escape_scan]. destruct (IH (Some a)) as [H1 H2].
  destruct ((a =? ch "#")%N && negb _) eqn:E.
  - apply N.eqb_neq in Hc. apply andb_true_iff in E as [Ea _]. apply N.eqb_eq in Ea.
    subst a. split.
    + unfold run_length. cbn [take_while]. rewrite Hc. cbn [length]. lia.
    + intros H. destruct (@long_run_cons c (ch "#") _ _ H1 H2) as [_ H3].
      specialize (H3 H).
      change (long_run c (ch "\" :: ch "#" :: escape_scan (Some (ch "#")) t))
        with (startswith (ch "\" :: ch "#" :: escape_scan (Some (ch "#")) t) [c; c; c]
              || long_run c (ch "#" :: escape_scan (Some (ch "#")) t)).
      rewrite H3, orb_false_r, starts_long_run. unfold run_length. cbn [take_while].
      now rewrite Hc.
  - now apply long_run_cons.
Qed.

(** X11.  No line [clean_display_lines] returns has three or more equals
    signs, hyphens or underscores in a row. *)
Theorem cleaned_lines_no_long_run (lines : list str) :
  Forall (fun l => long_run (ch "=") l = false
                   /\ long_run (ch "-") l = false
                   /\ long_run (ch "_") l = false)
         (clean_display_lines lines).
Proof.
  assert (Hrun : forall c c' s, c <> ch " " ->
             long_run c s = false ->
             long_run c (Re.sub (Re.three_or_more c') blank s) = false).
  { intros c c' s Hc. rewrite run_sub_scan.
    apply (@scan_runs (run_hit c') c (@run_hit_bounds c')
             (fun s out n => @run_hit_written c c' s out n Hc)). }
  assert (Htail : forall c s, c <> ch " " -> c <> ch "\" ->
             long_run c s = false ->
             long_run c (rstrip (Re.sub (Re.plus is_space) blank (escape_hash_in_math s)))
             = false).
  { intros c s Hc Hb H.
    destruct (rstrip_prefix (Re.sub (Re.plus is_space) blank (escape_hash_in_math s)))
      as (z & Hz & _).
    apply (@long_run_prefix _ _ z). rewrite <- Hz, space_sub_scan.
    apply (@scan_runs space_hit c space_hit_bounds
             (fun s out n => @space_hit_written c s out n Hc)).
    rewrite escape_hash_scan. now apply escape_scan_runs. }
  induction lines as [|line rest IH]; [constructor|].
  cbn [clean_display_lines].
  destruct (is_pure_separator line); [exact IH|]. cbv zeta.
  destruct (strip _); [exact IH|]. constructor; [|exact IH].
  split; [|split]; apply Htail; try discriminate.
  - apply Hrun; [discriminate|]. apply Hrun; [discriminate|].
    rewrite run_sub_scan. apply run_scan_clean. discriminate.
  - apply Hrun; [discriminate|]. rewrite run_sub_scan. apply run_scan_clean. discriminate.
  - rewrite run_sub_scan. apply run_scan_clean. discriminate.
Qed.

(** ** The last pass *)

Lemma collapse_no_blank_run (result : list str) (prev : bool) :
  no_blank_run prev (collapse_blank result prev) = true.
Proof.
  revert prev; induction result as [|line rest IH]; intros prev; [reflexivity|].
  cbn [collapse_blank]. destruct line as [|c line].
  - destruct prev; [apply IH|]. cbn [no_blank_run is_empty andb negb]. apply IH.
  - cbn [no_blank_run is_empty]. rewrite andb_false_r. cbn [negb andb]. apply IH.
Qed.

Lemma collapse_keeps_text (result : list str) (prev : bool) :
  filter (fun l => negb (is_empty l)) (collapse_blank result prev)
  = filter (fun l => negb (is_empty l)) result.
Proof.
  revert prev; induction result as [|line rest IH]; intros prev; [reflexivity|].
  cbn [collapse_blank]. destruct line as [|c line].
  - destruct prev; cbn [filter is_empty negb]; apply IH.
  - cbn [filter is_empty negb]. now rewrite IH.
Qed.

Lemma collapse_fixed (result : list str) (prev : bool) :
  no_blank_run prev result = true -> collapse_blank result prev = result.
Proof.
  revert prev; induction result as [|line rest IH]; intros prev; [reflexivity|].
  cbn [no_blank_run]. intros H. apply andb_true_iff in H as [H1 H2].
  apply negb_true_iff in H1. rewrite (collapse_cons _ _ _ H1). now rewrite IH.
Qed.

(** X12.  The pass that ends [fix_content]: in its result no empty line
    follows an empty line; the lines that are not empty are all kept, in
    their order; a list without two empty lines in a row is returned as it
    is, and only such a list is; running the pass twice changes nothing
    more. *)
Theorem collapse_blank_spec (result : list str) :
  no_blank_run false (collapse_blank result false) = true
  /\ filter (fun l => negb (is_empty l)) (collapse_blank result false)
     = filter (fun l => negb (is_empty l)) result
  /\ (collapse_blank result false = result <-> no_blank_run false result = true)
  /\ collapse_blank (collapse_blank result false) false = collapse_blank result false.
Proof.
  split; [apply collapse_no_blank_run|]. split; [apply collapse_keeps_text|]. split.
  - split; [|apply collapse_fixed]. intros H. rewrite <- H. apply collapse_no_blank_run.
  - apply collapse_fixed, collapse_no_blank_run.
Qed.

(** ** Blocks of lines *)

(** X13.  A display block between two lines that trim to the double dollar
    sign: the main loop emits the block built from the cleaned interior (an
    empty line, the fence, the cleaned lines, the fence, an empty line, or
    nothing when no line is left) and goes on after the closing line; the
    interior is not converted as inline text. *)
Theorem dollar_block_emission (opener : str) (body : list str) (closer : str)
        (post : list str) :
  strip opener = txt "$$" ->
  strip closer = txt "$$" ->
  Forall (fun l => strip l <> txt "$$") body ->
  fix_run (opener :: body ++ closer :: post) false
  = display_block (clean_display_lines body) ++ fix_run post false.
Proof.
  intros Hopen Hclose Hbody.
  destruct (dollars_line_plain _ Hopen) as (Hf & Hi & Hb & Hd).
  rewrite fix_run_unfold, Hf, Hi, Hb, Hd.
  rewrite (interior_closed _ _ Hbody Hclose). f_equal.
  replace (S (length body)) with (length body + 1) by lia.
  now rewrite skipn_shift.
Qed.

Lemma code_lines_copied (body post : list str) :
  Forall (fun l => startswith (strip l) (txt "```") = false) body ->
  fix_run (body ++ post) true = body ++ fix_run post true.
Proof.
  intros Hbody. induction Hbody as [|l body Hl _ IH]; [reflexivity|].
  cbn [app]. now rewrite fix_run_unfold, Hl, IH.
Qed.

(** X14.  A fenced code block read from outside code: the opening fence, the
    lines up to the next fence and that fence are emitted as they are and the
    loop goes on after it outside code; when no closing fence comes, every
    line to the end of the document is emitted as it is. *)
Theorem fenced_block_verbatim (opener : str) (body : list str) :
  startswith (strip opener) (txt "```") = true ->
  Forall (fun l => startswith (strip l) (txt "```") = false) body ->
  (forall closer post,
      startswith (strip closer) (txt "```") = true ->
      fix_run (opener :: body ++ closer :: post) false
      = opener :: body ++ closer :: fix_run post false)
  /\ fix_run (opener :: body) false = opener :: body.
Proof.
  intros Hopen Hbody. split.
  - intros closer post Hclose. rewrite fix_run_unfold, Hopen. f_equal.
    cbn [negb]. rewrite (code_lines_copied _ Hbody). f_equal.
    now rewrite fix_run_unfold, Hclose.
  - rewrite fix_run_unfold, Hopen. f_equal. cbn [negb].
    rewrite <- (app_nil_r body) at 1. rewrite (code_lines_copied _ Hbody).
    now rewrite fix_run_nil, app_nil_r.
Qed.

(** X15.  A line whose trimmed text is an exclamation mark, a bracketed text
    without a newline and an opening parenthesis followed by [http://] or
    [https://] is a remote image, and outside code the main loop emits
    nothing for it. *)
Theorem remote_image_line_removed (line alt target : str) (secure : bool)
        (rest : list str) :
  forallb is_dot alt = true ->
  strip line = txt "![" ++ alt ++ txt "](http" ++ (if secure then txt "s" else [])
                 ++ txt "://" ++ target ->
  is_remote_image line = true
  /\ fix_run (line :: rest) false = fix_run rest false.
Proof.
  intros Halt Hline.
  assert (Hi : is_remote_image line = true).
  { apply is_remote_image_spec. exists alt, target. split; [exact Halt|].
    rewrite Hline. destruct secure; [right | left]; reflexivity. }
  split; [exact Hi|]. rewrite fix_run_unfold, Hi.
  replace (startswith (strip line) (txt "```")) with false; [reflexivity|].
  rewrite Hline. reflexivity.
Qed.

(** ** Running text *)

Lemma prose_line (line : str) (rest : list str) :
  prose line = true -> fix_run (line :: rest) false = line :: fix_run rest false.
Proof.
  unfold prose. rewrite !andb_true_iff, !negb_true_iff.
  intros (((((Hm & Hh) & Hf) & Hi) & Hb) & Hd).
  rewrite fix_run_unfold, Hf, (image_needs_bang _ Hi), Hb, Hd.
  rewrite escape_hash_scan, (escape_scan_fixed _ _ Hh).
  now rewrite (convert_no_math_parens (not_math_no_math_parens _ Hm)).
Qed.

Lemma prose_lines (lines : list str) :
  forallb prose lines = true -> fix_run lines false = lines.
Proof.
  induction lines as [|line rest IH]; cbn [forallb]; [intros _; apply fix_run_nil|].
  intros H. apply andb_true_iff in H as [Hl Hr]. now rewrite (@prose_line line rest Hl), IH.
Qed.

(** X16.  Running text is left alone.  When no line of a document holds a
    recognized command or a hash sign without its backslash, and none is a
    code fence, starts as an image or is a display delimiter, all that
    [fix_content] does is to drop the empty lines that follow an empty line;
    a document that has none of those either is returned as it is. *)
Theorem prose_unchanged (content : str) :
  forallb prose (split_lines content) = true ->
  fix_content content = join_lines (collapse_blank (split_lines content) false)
  /\ (no_blank_run false (split_lines content) = true -> fix_content content = content).
Proof.
  intros H. unfold fix_content.
  change (fix_lines (split_lines content)) with (fix_run (split_lines content) false).
  rewrite (@prose_lines _ H). split; [reflexivity|].
  intros Hb. rewrite (@collapse_fixed _ _ Hb). apply join_split.
Qed.

(** ** What the display cleaner keeps *)

Section Keeps.
Variable g : list N -> option (list N * nat).
Variable c : N.
Hypothesis g_bounds : forall s out n, g s = Some (out, n) -> 0 < n <= length s.
Hypothesis g_passes : forall s out n, g s = Some (out, n) -> ~ In c (firstn n s).

(** A scan whose matches do not run over [c] keeps every [c]. *)
Lemma scan_keeps (s : str) : In c s -> In c (scan g s).
Proof.
  remember (length s) as n eqn:Hn. revert s Hn.
  induction n as [n IH] using lt_wf_ind. intros s Hn Hin.
  destruct (g s) as [[out m]|] eqn:Eg.
  - pose proof (@g_bounds _ _ _ Eg) as Hm. pose proof (@g_passes _ _ _ Eg) as Hp.
    rewrite (@scan_hit g g_bounds _ _ _ Eg). apply in_or_app. right.
    apply (IH (length (skipn m s))); [rewrite length_skipn; lia | reflexivity |].
    rewrite <- (firstn_skipn m s) in Hin. apply in_app_or in Hin as [Hin|Hin];
      [contradiction | exact Hin].
  - destruct s as [|a t]; [contradiction|].
    rewrite (@scan_miss _ _ _ Eg). destruct Hin as [->|Hin]; [now left|]. right.
    apply (IH (length t)); [subst n; cbn [length]; lia | reflexivity | exact Hin].
Qed.

End Keeps.

Lemma firstn_take_while (p : N -> bool) (t : str) :
  firstn (length (take_while p t)) t = take_while p t.
Proof.
  rewrite <- (take_drop_while p t) at 2.
  now rewrite firstn_app, firstn_all, Nat.sub_diag, app_nil_r.
Qed.

Lemma in_take_while (p : N -> bool) (t : str) (c : N) :
  In c (take_while p t) -> p c = true.
Proof.
  intros H. pose proof (take_while_all p t) as Ha. rewrite forallb_forall in Ha.
  now apply Ha.
Qed.

Lemma run_hit_passes (c c' : N) (s out : str) (n : nat) :
  c <> c' -> run_hit c' s = Some (out, n) -> ~ In c (firstn n s).
Proof.
  intros Hc. unfold run_hit. destruct s as [|a [|b [|d t]]]; try discriminate.
  destruct (N.eqb_spec c' a) as [<-|]; [|discriminate].
  destruct (N.eqb_spec c' b) as [<-|]; [|discriminate].
  destruct (N.eqb_spec c' d) as [<-|]; [|discriminate].
  intros [= _ <-]. cbn [Nat.add firstn]. rewrite firstn_take_while.
  intros [H|[H|[H|H]]]; try congruence.
  apply in_take_while, N.eqb_eq in H. congruence.
Qed.

Lemma space_hit_passes (c : N) (s out : str) (n : nat) :
  is_space c = false -> space_hit s = Some (out, n) -> ~ In c (firstn n s).
Proof.
  intros Hc. unfold space_hit. destruct s as [|a t]; [discriminate|].
  destruct (is_space a) eqn:Ea; [|discriminate].
  intros [= _ <-]. cbn [firstn]. rewrite firstn_take_while.
  intros [H|H]; [congruence|]. apply in_take_while in H. congruence.
Qed.

Lemma escape_scan_keeps (c : N) (p : option N) (s : str) :
  In c s -> In c (escape_scan p s).
Proof.
  revert p; induction s as [|a t IH]; intros p; [contradiction|].
  cbn [escape_scan]. intros [->|H].
  - destruct (_ && _) eqn:E.
    + apply andb_true_iff in E as [E _]. apply N.eqb_eq in E. subst c. right. now left.
    + now left.
  - destruct (_ && _); [right|]; right; now apply IH.
Qed.

Lemma strip_keeps (c : N) (s : str) :
  is_space c = false -> In c s -> In c (strip s).
Proof.
  intros Hc Hin. destruct (strip_within s) as (a & b & Hs & Ha & Hb).
  rewrite Hs in Hin. rewrite forallb_forall in Ha, Hb.
  apply in_app_or in Hin as [Hin|Hin]; [apply Ha in Hin; congruence|].
  apply in_app_or in Hin as [Hin|Hin]; [exact Hin | apply Hb in Hin; congruence].
Qed.

Lemma rstrip_keeps (c : N) (s : str) :
  is_space c = false -> In c s -> In c (rstrip s).
Proof.
  intros Hc Hin. destruct (rstrip_prefix s) as (z & Hs & Hz).
  rewrite Hs in Hin. rewrite forallb_forall in Hz.
  apply in_app_or in Hin as [Hin|Hin]; [exact Hin | apply Hz in Hin; congruence].
Qed.

Lemma content_not_separator (line : str) :
  existsb is_content line = true -> is_pure_separator line = false.
Proof.
  intros H. apply existsb_exists in H as (c & Hin & Hc).
  unfold is_content in Hc. apply andb_true_iff in Hc as [Hs Hsep].
  apply negb_true_iff in Hs, Hsep. pose proof (@strip_keeps _ _ Hs Hin) as Hin'.
  unfold is_pure_separator. destruct (strip line) as [|d t] eqn:E; [reflexivity|].
  destruct (forallb _ (d :: t)) eqn:Ef; [|reflexivity].
  rewrite forallb_forall in Ef. specialize (Ef _ Hin'). congruence.
Qed.

(** X17.  The display cleaner loses no content: when every line given has a
    character that is neither white space nor a separator, there is one
    cleaned line for each line, in the same order, and every such character
    of a line is found in its cleaned line. *)
Theorem content_lines_kept (lines : list str) :
  forallb (existsb is_content) lines = true ->
  Forall2 (fun line out => forall c, is_content c = true -> In c line -> In c out)
          lines (clean_display_lines lines).
Proof.
  assert (Hkeep : forall line c, is_content c = true -> In c line ->
             In c (Re.sub (Re.plus is_space) blank
                     (escape_hash_in_math
                        (Re.sub (Re.three_or_more (ch "_")) blank
                           (Re.sub (Re.three_or_more (ch "-")) blank
                              (Re.sub (Re.three_or_more (ch "=")) blank line)))))).
  { intros line c Hc Hin. unfold is_content in Hc. apply andb_true_iff in Hc as [Hs Hsep].
    apply negb_true_iff in Hs, Hsep. cbn [existsb SEPARATORS] in Hsep.
    repeat (apply orb_false_elim in Hsep as [? Hsep]).
    assert (Hrun : forall c' s, (c =? c')%N = false -> In c s ->
               In c (Re.sub (Re.three_or_more c') blank s)).
    { intros c' s Hne Hs'. rewrite run_sub_scan. apply N.eqb_neq in Hne.
      apply (@scan_keeps (run_hit c') c (@run_hit_bounds c')
               (fun s out n => @run_hit_passes c c' s out n Hne)). exact Hs'. }
    rewrite space_sub_scan.
    apply (@scan_keeps space_hit c space_hit_bounds
             (fun s out n => @space_hit_passes c s out n Hs)).
    rewrite escape_hash_scan. apply escape_scan_keeps.
    repeat (apply Hrun; [assumption|]). exact Hin. }
  induction lines as [|line rest IH]; cbn [forallb]; [constructor|].
  intros H. apply andb_true_iff in H as [Hl Hr]. cbn [clean_display_lines].
  rewrite (@content_not_separator _ Hl). cbv zeta.
  pose proof Hl as Hl'. apply existsb_exists in Hl' as (c & Hin & Hc).
  pose proof (Hkeep _ _ Hc Hin) as Hk.
  assert (Hs : is_space c = false).
  { unfold is_content in Hc. apply andb_true_iff in Hc as [Hs _].
    now apply negb_true_iff in Hs. }
  pose proof (@strip_keeps _ _ Hs Hk) as Hk'.
  destruct (strip _) eqn:Es; [contradiction|].
  constructor; [|now apply IH].
  intros c' Hc' Hin'. apply rstrip_keeps.
  - unfold is_content in Hc'. apply andb_true_iff in Hc' as [Hs' _].
    now apply negb_true_iff in Hs'.
  - now apply Hkeep.
Qed.

(** ** Expressions the normalizer only trims *)

Lemma occurs_cons (sub : str) (c : N) (t : str) :
  occurs sub (c :: t) = false ->
  startswith (c :: t) sub = false /\ occurs sub t = false.
Proof.
  unfold occurs, find. cbn [length Nat.ltb Nat.leb skipn find_at].
  destruct (startswith (c :: t) sub); [discriminate|]. intros H. split; [reflexivity|].
  change 1 with (1 + 0) in H. rewrite find_at_shift in H.
  now destruct (find_at sub t 0).
Qed.

Lemma style_scan_no_command (s : str) :
  forallb (fun name => negb (occurs (ch "\" :: name) s)) STYLE_NAMES = true ->
  style_scan s = s.
Proof.
  induction s as [|c t IH]; intros H.
  - apply (@scan_nil style_hit style_hit_bounds).
  - rewrite forallb_forall in H.
    assert (Hhead : forall name, In name STYLE_NAMES ->
               startswith (c :: t) (ch "\" :: name) = false).
    { intros name Hin. specialize (H _ Hin). apply negb_true_iff in H.
      now apply occurs_cons in H. }
    assert (Htail : forallb (fun name => negb (occurs (ch "\" :: name) t)) STYLE_NAMES
                    = true).
    { apply forallb_forall. intros name Hin. specialize (H _ Hin).
      apply negb_true_iff in H. apply occurs_cons in H as [_ H]. now rewrite H. }
    unfold style_scan in *. rewrite scan_miss; [now rewrite (IH Htail)|].
    unfold style_hit. destruct (N.eqb_spec c (ch "\")) as [->|]; [|reflexivity].
    destruct (List.find (startswith t) STYLE_NAMES) as [name|] eqn:Ef; [|reflexivity].
    apply find_some in Ef as [Hin Hs]. specialize (Hhead _ Hin).
    cbn [startswith] in Hhead. rewrite Hs in Hhead. discriminate Hhead.
Qed.

Lemma forallb_weaken (p q : N -> bool) (s : str) :
  (forall c, p c = true -> q c = true) -> forallb p s = true -> forallb q s = true.
Proof.
  intros Hpq H. rewrite forallb_forall in H |- *. intros c Hc. apply Hpq, H, Hc.
Qed.

Lemma no_hash_escaped (p : option N) (s : str) :
  forallb (fun c => negb (c =? ch "#")%N) s = true -> has_unescaped_hash p s = false.
Proof.
  revert p; induction s as [|c t IH]; intros p; cbn [forallb]; [reflexivity|].
  intros H. apply andb_true_iff in H as [Hc H]. apply negb_true_iff in Hc.
  cbn [has_unescaped_hash]. rewrite Hc. cbn [andb orb]. now apply IH.
Qed.

(** X18.  An expression that holds none of the five style commands and no
    comma, semicolon, hash sign or dollar sign comes out of [normalize_math]
    with nothing changed but the white space at its ends. *)
Theorem normalize_math_plain (content : str) :
  forallb (fun name => negb (occurs (ch "\" :: name) content)) STYLE_NAMES = true ->
  forallb (fun c => negb (existsb (N.eqb c) (txt ",;#$"))) content = true ->
  normalize_math content = strip content.
Proof.
  intros Hstyle Hchars. unfold normalize_math.
  assert (Hsplit : forall c, negb (existsb (N.eqb c) (txt ",;#$")) = true ->
             (c =? ch ",")%N = false /\ (c =? ch ";")%N = false
             /\ (c =? ch "#")%N = false /\ (c =? ch "$")%N = false).
  { intros c H. apply negb_true_iff in H. cbn [existsb txt list_ascii_of_string map] in H.
    repeat (apply orb_false_elim in H as [? H]). auto. }
  rewrite norm_style_scan, (style_scan_no_command _ Hstyle).
  assert (H2 : norm_thin_space content = content).
  { rewrite norm_thin_space_scan. clear Hstyle.
    induction content as [|c t IH]; [apply (@scan_nil thin_hit thin_hit_bounds)|].
    cbn [forallb] in Hchars. apply andb_true_iff in Hchars as [Hc Ht].
    apply Hsplit in Hc as (Hc & _). unfold thin_scan in *.
    rewrite scan_miss by (unfold thin_hit; now rewrite Hc). now rewrite (IH Ht). }
  rewrite H2.
  assert (H3 : norm_relations content = content).
  { rewrite norm_relations_scan. clear Hstyle H2.
    induction content as [|c t IH]; [apply (@scan_nil rel_hit rel_hit_bounds)|].
    cbn [forallb] in Hchars. apply andb_true_iff in Hchars as [Hc Ht].
    apply Hsplit in Hc as (_ & Hc & _).
    rewrite scan_miss by (unfold rel_hit; now rewrite Hc). now rewrite (IH Ht). }
  rewrite H3, norm_hash_scan, escape_scan_fixed.
  2:{ apply no_hash_escaped. revert Hchars. apply forallb_weaken.
      intros c H. apply Hsplit in H as (_ & _ & H & _). now rewrite H. }
  rewrite norm_dollars_scan, dollar_scan_free; [reflexivity|].
  revert Hchars. apply forallb_weaken.
  intros c H. apply Hsplit in H as (_ & _ & _ & H). unfold not_dollar. now rewrite H.
Qed.

End Program.

(** * Closed instances *)

Lemma word_table_unused_on_ascii (table table' : N -> bool) (c : N) :
  (c < 128)%N -> is_word table c = is_word table' c.
Proof. intros H. unfold is_word. apply N.ltb_lt in H. now rewrite H. Qed.

Lemma paren_line_conversion_witness :
  balanced (txt "\alpha + \beta") = true
  /\ convert_inline_parens no_unicode_alnum (txt "(\alpha + \beta)")
     = txt "$\alpha + \beta$"
  /\ balanced (txt "plain text") = true
  /\ convert_inline_parens no_unicode_alnum (txt "(plain text)") = txt "(plain text)".
Proof.
  split; [reflexivity|]. split.
  - exact (proj1 (paren_line_conversion no_unicode_alnum (txt "\alpha + \beta") eq_refl)
                 eq_refl).
  - split; [reflexivity|].
    exact (proj2 (paren_line_conversion no_unicode_alnum (txt "plain text") eq_refl)
                 eq_refl).
Defined.

Lemma thin_space_before_differential_witness :
  forallb is_space [] = true
  /\ txt "t" <> []
  /\ forallb (is_word no_unicode_alnum) (txt "t") = true
  /\ norm_thin_space no_unicode_alnum (txt "f(t),dt")
     = norm_thin_space no_unicode_alnum (txt "f(t)") ++ txt "\,dt".
Proof.
  split; [reflexivity|]. split; [discriminate|]. split; [reflexivity|].
  exact (@thin_space_before_differential no_unicode_alnum (txt "f(t)") [] (txt "t") []
           eq_refl ltac:(discriminate) eq_refl).
Defined.

Lemma display_block_emission_witness :
  strip (txt "[") = txt "["
  /\ strip (txt "]") = txt "]"
  /\ Forall (fun l => strip l <> txt "]") [txt "x = y"]
  /\ fix_run no_unicode_alnum [txt "["; txt "x = y"; txt "]"] false
     = [[]; txt "$$"; txt "x = y"; txt "$$"; []]
  /\ fix_run no_unicode_alnum [txt "["; txt "----------"; txt "]"] false = [].
Proof.
  split; [reflexivity|]. split; [reflexivity|].
  split; [repeat constructor; discriminate|]. split.
  - exact (proj1 (proj2 (@display_block_emission no_unicode_alnum [] (txt "[")
                           [txt "x = y"] (txt "]") [] eq_refl eq_refl
                           ltac:(repeat constructor; discriminate)))).
  - exact (proj1 (proj2 (@display_block_emission no_unicode_alnum [] (txt "[")
                           [txt "----------"] (txt "]") [] eq_refl eq_refl
                           ltac:(repeat constructor; discriminate)))).
Defined.

Lemma code_block_lines_verbatim_witness :
  Forall (fun l => startswith (strip l) (txt "```") = false)
         [txt "x = (\alpha) # 1"; txt "![a](http://b)"; txt "["]
  /\ fix_run no_unicode_alnum
             ([txt "x = (\alpha) # 1"; txt "![a](http://b)"; txt "["] ++ [txt "```"]) true
     = [txt "x = (\alpha) # 1"; txt "![a](http://b)"; txt "["]
         ++ fix_run no_unicode_alnum [txt "```"] true.
Proof.
  split; [repeat constructor|].
  exact (proj2 (@code_block_lines_verbatim no_unicode_alnum []
                  [txt "x = (\alpha) # 1"; txt "![a](http://b)"; txt "["] [txt "```"]
                  ltac:(repeat constructor))).
Defined.

Lemma unbalanced_paren_is_literal_witness :
  never_closes (txt " (\alpha)") = true
  /\ extract_paren_content (txt "( (\alpha)") 0 = None
  /\ convert_inline_parens no_unicode_alnum (txt "( (\alpha)")
     = ch "(" :: convert_inline_parens no_unicode_alnum (txt " (\alpha)").
Proof.
  split; [reflexivity|].
  pose proof (@unbalanced_paren_is_literal no_unicode_alnum [] (txt " (\alpha)") eq_refl)
    as (H1 & _ & H3).
  split; [exact H1 | exact H3].
Defined.

Lemma unterminated_block_to_end_witness :
  nth_error [txt "$$"; txt "x = y"; txt "more"] 0 = Some (txt "$$")
  /\ strip (txt "$$") = txt "$$"
  /\ Forall (fun l => strip l <> txt "$$") [txt "x = y"; txt "more"]
  /\ fix_run no_unicode_alnum [txt "$$"; txt "x = y"; txt "more"] false
     = [[]; txt "$$"; txt "x = y"; txt "more"; txt "$$"; []].
Proof.
  split; [reflexivity|]. split; [reflexivity|].
  split; [repeat constructor; discriminate|].
  exact (proj2 (@unterminated_block_to_end no_unicode_alnum
                  [txt "$$"; txt "x = y"; txt "more"] 0 (txt "$$") (txt "$$")
                  eq_refl (or_intror (conj eq_refl eq_refl))
                  ltac:(repeat constructor; discriminate))).
Defined.

Lemma converted_example :
  converted false false
    (split_lines
       (txt "text" ++ nl :: nl :: txt "$$" ++ nl :: txt "x = y" ++ nl :: txt "$$"
            ++ nl :: nl :: txt "more $f(\alpha)$ \# (plain)")).
Proof.
  change (converted false false
            (txt "text" :: [] :: txt "$$" :: [txt "x = y"] ++ txt "$$" :: []
                 :: [txt "more $f(\alpha)$ \# (plain)"])).
  apply converted_plain; [reflexivity | reflexivity |].
  apply converted_plain; [reflexivity | reflexivity |].
  apply converted_display; [discriminate | reflexivity | reflexivity |].
  apply converted_plain; [reflexivity | reflexivity |].
  apply converted_end.
Defined.

Lemma converted_document_fixed_point_witness :
  converted false false
    (split_lines
       (txt "text" ++ nl :: nl :: txt "$$" ++ nl :: txt "x = y" ++ nl :: txt "$$"
            ++ nl :: nl :: txt "more $f(\alpha)$ \# (plain)"))
  /\ fix_content no_unicode_alnum
       (txt "text" ++ nl :: nl :: txt "$$" ++ nl :: txt "x = y" ++ nl :: txt "$$"
            ++ nl :: nl :: txt "more $f(\alpha)$ \# (plain)")
     = txt "text" ++ nl :: nl :: txt "$$" ++ nl :: txt "x = y" ++ nl :: txt "$$"
           ++ nl :: nl :: txt "more $f(\alpha)$ \# (plain)".
Proof.
  split; [exact converted_example|].
  exact (@converted_document_fixed_point no_unicode_alnum _ converted_example).
Defined.

(** Counterexample to C2 as stated.  On [,dt] the four rewrites give [\,dt]; run again
    on that they give [\\,dt]: step 2 matches its own result.  The whole
    normalizer does the same. *)
Lemma normalizer_not_idempotent :
  norm_steps no_unicode_alnum (txt ",dt") = txt "\,dt"
  /\ norm_steps no_unicode_alnum (norm_steps no_unicode_alnum (txt ",dt")) = txt "\\,dt"
  /\ normalize_math no_unicode_alnum (txt ",dt") = txt "\,dt"
  /\ normalize_math no_unicode_alnum (normalize_math no_unicode_alnum (txt ",dt"))
     = txt "\\,dt".
Proof. exact (steps_twice_on_comma_dt no_unicode_alnum). Qed.

(** Counterexample to C5 as stated.  Two empty lines between code fences: the second
    one is not in the output. *)
Lemma code_block_blank_lines_collapsed :
  fix_content no_unicode_alnum (txt "```" ++ nl :: nl :: nl :: txt "```")
  = txt "```" ++ nl :: nl :: txt "```".
Proof. exact (blank_lines_in_code_fence no_unicode_alnum). Qed.

(** Counterexample to C7 as stated.  A display block in converted form with text right
    before and after it gets an empty line on each side; and a line of the
    program's own output, all math in dollars, is dropped as a remote image
    when it is run again. *)
Lemma converted_form_not_fixed :
  fix_content no_unicode_alnum
    (txt "a" ++ nl :: txt "$$" ++ nl :: txt "x" ++ nl :: txt "$$" ++ nl :: txt "b")
  = txt "a" ++ nl :: nl :: txt "$$" ++ nl :: txt "x" ++ nl :: txt "$$" ++ nl :: nl :: txt "b"
  /\ fix_content no_unicode_alnum (txt "![ (\alpha ]$$(http://x))")
     = txt "![ $\alpha ](http://x)$"
  /\ fix_content no_unicode_alnum (txt "![ $\alpha ](http://x)$") = [].
Proof.
  split; [exact (display_block_between_text no_unicode_alnum)|].
  exact (own_output_dropped no_unicode_alnum).
Qed.

(** Counterexample to C8 as stated.  After a parenthesis that is never closed the rest
    of the line is still scanned: the balanced span in it is converted. *)
Lemma text_after_open_paren_converted :
  never_closes (txt " (\alpha)") = true
  /\ convert_inline_parens no_unicode_alnum (txt "( (\alpha)") = txt "( $\alpha$".
Proof. split; [reflexivity | exact (rest_after_open_paren no_unicode_alnum)]. Qed.

(** Counterexample to C6 as stated.  Iota and Kappa with a capital and omicron in either
    case are Greek letter names, yet a backslash followed by one of them is
    not math for the classifier, while iota in lower case is. *)
Lemma greek_names_not_all_recognized :
  In (txt "iota") GREEK_LOWER
  /\ In (txt "Iota") GREEK_UPPER
  /\ In (txt "Kappa") GREEK_UPPER
  /\ In (txt "omicron") GREEK_LOWER
  /\ In (txt "Omicron") GREEK_UPPER
  /\ is_math (txt "\iota") = true
  /\ is_math (txt "\Iota") = false
  /\ is_math (txt "\Kappa") = false
  /\ is_math (txt "\omicron") = false
  /\ is_math (txt "\Omicron") = false
  /\ is_math (txt "x = \Iota_0 + \Kappa") = false.
Proof.
  repeat split; try (vm_compute; reflexivity);
    apply in_by_test; vm_compute; reflexivity.
Qed.

(** ** Instances of the further properties *)

Lemma inline_span_in_prose_witness :
  forallb (fun c => negb (c =? ch "$")%N && negb (c =? ch "(")%N) (txt "see ") = true
  /\ balanced (txt "\alpha + \beta") = true
  /\ convert_inline_parens no_unicode_alnum (txt "see (\alpha + \beta) here")
     = txt "see $\alpha + \beta$ here"
  /\ balanced (txt "plain") = true
  /\ convert_inline_parens no_unicode_alnum (txt "see (plain) here")
     = txt "see (plain) here".
Proof.
  split; [reflexivity|]. split; [reflexivity|]. split.
  - exact (proj1 (@inline_span_in_prose no_unicode_alnum (txt "see ")
                    (txt "\alpha + \beta") (txt " here") eq_refl eq_refl) eq_refl).
  - split; [reflexivity|].
    exact (proj2 (@inline_span_in_prose no_unicode_alnum (txt "see ")
                    (txt "plain") (txt " here") eq_refl eq_refl) eq_refl eq_refl).
Defined.

Lemma dollar_span_verbatim_witness :
  forallb not_dollar (txt "f(\alpha)") = true
  /\ txt "f(\alpha)" <> []
  /\ convert_inline_parens no_unicode_alnum (txt "$f(\alpha)$ and (\beta)")
     = txt "$f(\alpha)$ and $\beta$"
  /\ convert_inline_parens no_unicode_alnum (txt "$$f(\alpha)$$ and (\beta)")
     = txt "$$f(\alpha)$$ and $\beta$"
  /\ convert_inline_parens no_unicode_alnum (txt "$f(\alpha)") = txt "$f$\alpha$".
Proof.
  split; [reflexivity|]. split; [discriminate|].
  pose proof (@dollar_span_verbatim no_unicode_alnum (txt "f(\alpha)") (txt " and (\beta)")
                eq_refl) as (H1 & H2 & _).
  split; [exact (H1 ltac:(discriminate))|]. split; [exact H2|].
  exact (proj2 (proj2 (@dollar_span_verbatim no_unicode_alnum (txt "f(\alpha)") []
                         eq_refl))).
Defined.

Lemma norm_dollars_pairs_witness :
  forallb not_dollar (txt "a ") = true
  /\ forallb not_dollar (txt "b") = true
  /\ norm_dollars (txt "a $b$ c $d") = txt "a b c $d"
  /\ norm_dollars (txt "a $b") = txt "a $b".
Proof.
  split; [reflexivity|]. split; [reflexivity|].
  pose proof (@norm_dollars_pairs (txt "a ") (txt "b") (txt " c $d") eq_refl eq_refl)
    as (H1 & H2 & _).
  split; [exact H1 | exact H2].
Defined.

Lemma style_argument_braced_witness :
  In (txt "mathcal") STYLE_NAMES
  /\ txt " " <> []
  /\ forallb is_space (txt " ") = true
  /\ is_ascii_letter (ch "C") = true
  /\ norm_style (txt "x \in \mathcal C_0") = txt "x \in \mathcal{C}_0".
Proof.
  split; [now left|]. split; [discriminate|]. split; [reflexivity|].
  split; [reflexivity|].
  exact (@style_argument_braced (txt "x \in ") (txt "mathcal") (txt " ") (ch "C")
           (txt "_0") (or_introl eq_refl) ltac:(discriminate) eq_refl eq_refl).
Defined.

Lemma relation_between_semicolons_witness :
  forallb (fun c => negb (c =? ch ";")%N) (txt "a") = true
  /\ In (txt "\sim") RELATIONS
  /\ forallb is_space (txt " ") = true
  /\ forallb is_space [] = true
  /\ norm_relations (txt "a; \sim;b") = txt "a \sim b".
Proof.
  split; [reflexivity|]. split; [now left|]. split; [reflexivity|].
  split; [reflexivity|].
  exact (@relation_between_semicolons (txt "a") (txt " ") (txt "\sim") [] (txt "b")
           eq_refl (or_introl eq_refl) eq_refl eq_refl).
Defined.

Lemma dollar_block_emission_witness :
  strip (txt "$$") = txt "$$"
  /\ strip (txt "  $$ ") = txt "$$"
  /\ Forall (fun l => strip l <> txt "$$") [txt "x ==== (y)  # 1"]
  /\ fix_run no_unicode_alnum
       [txt "$$"; txt "x ==== (y)  # 1"; txt "  $$ "; txt "after"] false
     = [[]; txt "$$"; txt "x (y) \# 1"; txt "$$"; []; txt "after"].
Proof.
  split; [reflexivity|]. split; [reflexivity|].
  split; [repeat constructor; discriminate|].
  exact (@dollar_block_emission no_unicode_alnum (txt "$$") [txt "x ==== (y)  # 1"]
           (txt "  $$ ") [txt "after"] eq_refl eq_refl
           ltac:(repeat constructor; discriminate)).
Defined.

Lemma fenced_block_verbatim_witness :
  startswith (strip (txt "```python")) (txt "```") = true
  /\ Forall (fun l => startswith (strip l) (txt "```") = false)
            [txt "x = (\alpha) # 1"; txt "$$"]
  /\ startswith (strip (txt "```")) (txt "```") = true
  /\ fix_run no_unicode_alnum
       [txt "```python"; txt "x = (\alpha) # 1"; txt "$$"; txt "```"; txt "(\alpha)"] false
     = [txt "```python"; txt "x = (\alpha) # 1"; txt "$$"; txt "```"; txt "$\alpha$"]
  /\ fix_run no_unicode_alnum [txt "```python"; txt "x = (\alpha) # 1"; txt "$$"] false
     = [txt "```python"; txt "x = (\alpha) # 1"; txt "$$"].
Proof.
  split; [reflexivity|]. split; [repeat constructor|]. split; [reflexivity|].
  pose proof (@fenced_block_verbatim no_unicode_alnum (txt "```python")
                [txt "x = (\alpha) # 1"; txt "$$"] eq_refl ltac:(repeat constructor))
    as [H1 H2].
  split; [exact (H1 (txt "```") [txt "(\alpha)"] eq_refl) | exact H2].
Defined.

Lemma remote_image_line_removed_witness :
  forallb is_dot (txt "logo") = true
  /\ strip (txt "  ![logo](https://example.org/a.png) ")
     = txt "![" ++ txt "logo" ++ txt "](http" ++ txt "s" ++ txt "://"
           ++ txt "example.org/a.png)"
  /\ is_remote_image (txt "  ![logo](https://example.org/a.png) ") = true
  /\ fix_run no_unicode_alnum [txt "  ![logo](https://example.org/a.png) "; txt "text"] false
     = fix_run no_unicode_alnum [txt "text"] false.
Proof.
  split; [reflexivity|]. split; [reflexivity|].
  exact (@remote_image_line_removed no_unicode_alnum
           (txt "  ![logo](https://example.org/a.png) ") (txt "logo")
           (txt "example.org/a.png)") true [txt "text"] eq_refl eq_refl).
Defined.

Lemma prose_unchanged_witness :
  forallb (prose) (split_lines (txt "One (two) three." ++ nl :: nl :: nl :: txt "Four \# five."))
  = true
  /\ fix_content no_unicode_alnum
       (txt "One (two) three." ++ nl :: nl :: nl :: txt "Four \# five.")
     = txt "One (two) three." ++ nl :: nl :: txt "Four \# five."
  /\ no_blank_run false (split_lines (txt "One (two) three." ++ nl :: txt "Four \# five."))
     = true
  /\ fix_content no_unicode_alnum (txt "One (two) three." ++ nl :: txt "Four \# five.")
     = txt "One (two) three." ++ nl :: txt "Four \# five.".
Proof.
  split; [reflexivity|]. split.
  - exact (proj1 (@prose_unchanged no_unicode_alnum
                    (txt "One (two) three." ++ nl :: nl :: nl :: txt "Four \# five.")
                    eq_refl)).
  - split; [reflexivity|].
    exact (proj2 (@prose_unchanged no_unicode_alnum
                    (txt "One (two) three." ++ nl :: txt "Four \# five.") eq_refl)
                 eq_refl).
Defined.

Lemma content_lines_kept_witness :
  forallb (existsb is_content) [txt "x = y"; txt "--- z ---"] = true
  /\ Forall2 (fun line out => forall c, is_content c = true -> In c line -> In c out)
             [txt "x = y"; txt "--- z ---"]
             (clean_display_lines [txt "x = y"; txt "--- z ---"]).
Proof.
  split; [reflexivity|].
  exact (@content_lines_kept [txt "x = y"; txt "--- z ---"] eq_refl).
Defined.

Lemma normalize_math_plain_witness :
  forallb (fun name => negb (occurs (ch "\" :: name) (txt " \alpha + \beta ")))
          STYLE_NAMES = true
  /\ forallb (fun c => negb (existsb (N.eqb c) (txt ",;#$"))) (txt " \alpha + \beta ")
     = true
  /\ normalize_math no_unicode_alnum (txt " \alpha + \beta ") = txt "\alpha + \beta".
Proof.
  split; [reflexivity|]. split; [reflexivity|].
  exact (@normalize_math_plain no_unicode_alnum (txt " \alpha + \beta ") eq_refl eq_refl).
Defined.
